(** * Verification of the STT-for-Windows recording controller

    Shallow embedding of three parts of the Go sources:
    - [Hotkey]: [parseHotkey] and the low-level keyboard hook callback
      of [internal/hotkey/hotkey_windows.go];
    - [JsonPath]: [ExtractByPath], [ParseKeyAndIndexes] and
      [ExtractTextFromResponse] of [internal/jsonpath/jsonpath.go];
    - [Record]: the [Recorder] of package [record] (Start, Stop, Cancel,
      TogglePause and the capture goroutine [recordLoop]) as an
      interleaving transition system over goroutines;
    - [HotkeySetup]: the goroutines of [registerHotkeys] and
      [startLowLevelHook] (parsing, registration, hook installation), the
      callers' 2-second select, and [Register];
    - [Cleanup]: [cleanupOldTempFiles] of [internal/app/app.go];
    - [GoFmt]: [strconv.Itoa], used to write path indexes back. *)

From Stdlib Require Import Bool Arith ZArith List Ascii String Lia DecimalString.
Import ListNotations.
Open Scope string_scope.
Set Warnings "-register-all".

(** ** Go standard library helpers on ASCII strings

    Go strings are byte strings; the model works on [string] of [ascii].
    Case mapping and white space are modelled on ASCII only: the Unicode
    tables that Go applies to non-ASCII bytes are outside this model, so
    ToLower, ToUpper and TrimSpace are exact on ASCII strings.  Statements
    about other strings either assume ASCII input or, for parseHotkey,
    take the clean-up of the parts as a parameter ([parseHotkey_with]). *)
Module GoStrings.

Definition ascii_lower (c : ascii) : ascii :=
  let n := nat_of_ascii c in
  if Nat.leb 65 n && Nat.leb n 90 then ascii_of_nat (n + 32) else c.

Definition ascii_upper (c : ascii) : ascii :=
  let n := nat_of_ascii c in
  if Nat.leb 97 n && Nat.leb n 122 then ascii_of_nat (n - 32) else c.

(** strings.ToLower on ASCII strings *)
Fixpoint ToLower (s : string) : string :=
  match s with
  | EmptyString => EmptyString
  | String c s' => String (ascii_lower c) (ToLower s')
  end.

(** strings.ToUpper on ASCII strings *)
Fixpoint ToUpper (s : string) : string :=
  match s with
  | EmptyString => EmptyString
  | String c s' => String (ascii_upper c) (ToUpper s')
  end.

(** The ASCII white space of unicode.IsSpace: '\t', '\n', '\v', '\f',
    '\r' and ' '.  (unicode.IsSpace also holds of U+0085, U+00A0 and the
    other Unicode spaces, which occur only in non-ASCII strings.) *)
Definition isSpace (c : ascii) : bool :=
  let n := nat_of_ascii c in
  (Nat.leb 9 n && Nat.leb n 13) || Nat.eqb n 32.

Fixpoint dropSpaces (l : list ascii) : list ascii :=
  match l with
  | [] => []
  | c :: l' => if isSpace c then dropSpaces l' else l
  end.

(** strings.TrimSpace on ASCII strings *)
Definition TrimSpace (s : string) : string :=
  string_of_list_ascii
    (rev (dropSpaces (rev (dropSpaces (list_ascii_of_string s))))).

(** strings.Split(s, sep) for a one-character separator [sep]:
    [Split "" sep = [""]], and every occurrence of [sep] cuts. *)
Fixpoint Split (s : string) (sep : ascii) : list string :=
  match s with
  | EmptyString => [EmptyString]
  | String c s' =>
      if Ascii.eqb c sep then EmptyString :: Split s' sep
      else match Split s' sep with
           | [] => [String c EmptyString]
           | p :: ps => String c p :: ps
           end
  end.

(** strings.HasPrefix *)
Definition HasPrefix (s pre : string) : bool := String.prefix pre s.

(** strings.TrimPrefix *)
Definition TrimPrefix (s pre : string) : string :=
  if HasPrefix s pre then substring (String.length pre) (String.length s) s
  else s.

(** strings.Index(s, sep) for a one-character [sep]: position of the
    first occurrence, or -1. *)
Fixpoint Index (s : string) (sep : ascii) : Z :=
  match s with
  | EmptyString => (-1)%Z
  | String c s' =>
      if Ascii.eqb c sep then 0%Z
      else let i := Index s' sep in
           if (i <? 0)%Z then (-1)%Z else (i + 1)%Z
  end.

(** Decimal digits of a byte string, most significant first; [None] when
    a byte is not in '0'..'9'. *)
Fixpoint digits_value (s : string) (acc : Z) : option Z :=
  match s with
  | EmptyString => Some acc
  | String c s' =>
      let n := nat_of_ascii c in
      if Nat.leb 48 n && Nat.leb n 57
      then digits_value s' (acc * 10 + Z.of_nat (n - 48))%Z
      else None
  end.

(** strconv.Atoi on a 64-bit platform: an optional sign followed by at
    least one decimal digit, the value in the int64 range.  (Go's fast
    path for inputs shorter than 19 bytes and its [ParseInt] path agree
    on this; base 10 admits no underscores.) *)
Definition Atoi (s : string) : option Z :=
  let '(neg, body) :=
    match s with
    | String "-"%char r => (true, r)
    | String "+"%char r => (false, r)
    | _ => (false, s)
    end in
  match body with
  | EmptyString => None
  | _ =>
      match digits_value body 0 with
      | None => None
      | Some v =>
          let n := if neg then (- v)%Z else v in
          if ((- 2 ^ 63) <=? n)%Z && (n <=? 2 ^ 63 - 1)%Z then Some n
          else None
      end
  end.

End GoStrings.

(** ** Hotkey specs and the low-level keyboard hook *)
Module Hotkey.
Import GoStrings.

(** The three results of [parseHotkey (s string) (uint32, uint32, error)]. *)
Record hk_ret := HkRet { hk_mod : Z; hk_vk : Z; hk_err : option string }.

Definition VK_NUMPAD0 : Z := 96.
Definition VK_NUMPAD1 : Z := 97.
Definition VK_NUMPAD2 : Z := 98.
Definition VK_NUMPAD3 : Z := 99.
Definition VK_NUMPAD4 : Z := 100.
Definition VK_NUMPAD5 : Z := 101.
Definition VK_NUMPAD6 : Z := 102.
Definition VK_NUMPAD7 : Z := 103.
Definition VK_NUMPAD8 : Z := 104.
Definition VK_NUMPAD9 : Z := 105.
Definition VK_ADD : Z := 107.
Definition VK_SUBTRACT : Z := 109.

Definition str_in (s : string) (l : list string) : bool :=
  existsb (String.eqb s) l.

(** [switch p { case "alt", "menu": mod |= 0x0001 ... default: }]:
    the bit a modifier token sets, [None] in the empty default case. *)
Definition modifier_case (p : string) : option Z :=
  if str_in p ["alt"; "menu"] then Some 1%Z
  else if str_in p ["ctrl"; "control"] then Some 2%Z
  else if str_in p ["shift"] then Some 4%Z
  else if str_in p ["win"; "meta"; "super"] then Some 8%Z
  else None.

(** [for _, p := range parts[:len(parts)-1] { switch p ... }] *)
Fixpoint modifier_loop (ps : list string) (md : Z) : Z :=
  match ps with
  | [] => md
  | p :: ps' =>
      modifier_loop ps'
        (match modifier_case p with
         | Some bit => Z.lor md bit
         | None => md
         end)
  end.

Definition code (c : ascii) : Z := Z.of_nat (nat_of_ascii c).

(** The numeric-pad switch. *)
Definition numpad_case (t : string) : option Z :=
  if str_in t ["numpad0"; "num0"; "kp0"] then Some VK_NUMPAD0
  else if str_in t ["numpad1"; "num1"; "kp1"] then Some VK_NUMPAD1
  else if str_in t ["numpad2"; "num2"; "kp2"] then Some VK_NUMPAD2
  else if str_in t ["numpad3"; "num3"; "kp3"] then Some VK_NUMPAD3
  else if str_in t ["numpad4"; "num4"; "kp4"] then Some VK_NUMPAD4
  else if str_in t ["numpad5"; "num5"; "kp5"] then Some VK_NUMPAD5
  else if str_in t ["numpad6"; "num6"; "kp6"] then Some VK_NUMPAD6
  else if str_in t ["numpad7"; "num7"; "kp7"] then Some VK_NUMPAD7
  else if str_in t ["numpad8"; "num8"; "kp8"] then Some VK_NUMPAD8
  else if str_in t ["numpad9"; "num9"; "kp9"] then Some VK_NUMPAD9
  else if str_in t ["add"; "plus"; "kpadd"] then Some VK_ADD
  else if str_in t ["subtract"; "minus"; "kpsubtract"] then Some VK_SUBTRACT
  else None.

(** The map literal [named]. *)
Definition named : list (string * Z) :=
  [("tab", 9); ("backspace", 8); ("insert", 45); ("delete", 46);
   ("home", 36); ("end", 35); ("pageup", 33); ("pagedown", 34);
   ("left", 37); ("up", 38); ("right", 39); ("down", 40)]%Z.

Fixpoint lookup_named (k : string) (m : list (string * Z)) : option Z :=
  match m with
  | [] => None
  | (k', v) :: m' => if String.eqb k k' then Some v else lookup_named k m'
  end.

(** [if len(keyToken) == 1 { ch := keyToken[0]; ... }]: letters and
    digits. *)
Definition single_case (keyToken : string) : option Z :=
  match keyToken with
  | String ch EmptyString =>
      let n := code ch in
      if ((97 <=? n) && (n <=? 122))%Z then Some (n - 97 + 65)%Z
      else if ((48 <=? n) && (n <=? 57))%Z then Some n
      else None
  | _ => None
  end.

(** [if strings.HasPrefix(keyToken, "f") { ... }]: function keys. *)
Definition fkey_case (keyToken : string) : option Z :=
  if HasPrefix keyToken "f" then
    match Atoi (TrimPrefix keyToken "f") with
    | Some n => if ((1 <=? n) && (n <=? 24))%Z then Some (112 + (n - 1))%Z
                else None
    | None => None
    end
  else None.

(** Resolution of the key token, from [if len(keyToken) == 1] on;
    [s] is the whole input, used in the error message. *)
Definition resolve_key (s : string) (md : Z) (keyToken : string) : hk_ret :=
  match single_case keyToken with
  | Some vk => HkRet md vk None
  | None =>
  if str_in keyToken ["esc"; "escape"] then HkRet md 27 None
  else if str_in keyToken ["space"] then HkRet md 32 None
  else if str_in keyToken ["enter"; "return"] then HkRet md 13 None
  else
  match fkey_case keyToken with
  | Some vk => HkRet md vk None
  | None =>
  match numpad_case keyToken with
  | Some vk => HkRet md vk None
  | None =>
  match lookup_named keyToken named with
  | Some v => HkRet md v None
  | None =>
  match keyToken with
  | String ch EmptyString =>
      match ToUpper keyToken with
      | String u _ => HkRet md (code u) None
      | EmptyString => HkRet md 0 None
      end
  | _ => HkRet 0 0 (Some ("unsupported key token: " ++ s))
  end end end end end.

(** [strings.TrimSpace(strings.ToLower(p))] on ASCII parts. *)
Definition normalize (p : string) : string := TrimSpace (ToLower p).

(** [if len(parts) == 1 { keyToken = parts[0] } else { ... }] *)
Definition mod_and_key (parts : list string) : Z * string :=
  match parts with
  | [p] => (0%Z, p)
  | _ => (modifier_loop (removelast parts) 0%Z, last parts EmptyString)
  end.

(** parseHotkey, with [norm] the clean-up applied to each part,
    [strings.TrimSpace(strings.ToLower(.))].  Go's version applies the
    Unicode tables; [normalize] above is exact on ASCII parts only.  For
    Go's clean-up a one-byte part is always ASCII (ToLower re-encodes any
    other byte as the three bytes of U+FFFD, and TrimSpace removes whole
    runes), so the ASCII [ToUpper] of the single-character fallback in
    [resolve_key] is exact on every part it can receive. *)
Definition parseHotkey_with (norm : string -> string) (s : string) : hk_ret :=
  match s with
  | EmptyString => HkRet 0 0 (Some "empty key")
  | _ =>
      let parts := map norm (Split s "+"%char) in
      let '(md, keyToken) := mod_and_key parts in
      resolve_key s md keyToken
  end.

(** parseHotkey on ASCII specs *)
Definition parseHotkey (s : string) : hk_ret := parseHotkey_with normalize s.

Definition ok (r : hk_ret) : bool :=
  match hk_err r with None => true | Some _ => false end.

End Hotkey.

(** ** JSON text extraction (package jsonpath) *)
Module JsonPath.
Import GoStrings.

Section JsonPath.

(** [float64] numbers and their rendering by the [case float64:] branch
    ([%d] of the int64 value when integral, [%v] otherwise) are taken as
    parameters: no claim depends on float formatting. *)
Variable float64 : Type.
Variable format_float64 : float64 -> string.

(** Values produced by [json.Unmarshal] into [interface{}]: nil, bool,
    float64, string, [[]interface{}] and [map[string]interface{}] (one
    entry per key). *)
Inductive JValue : Type :=
| JNull
| JBool (b : bool)
| JNum (x : float64)
| JStr (s : string)
| JArr (l : list JValue)
| JObj (m : list (string * JValue)).

(** [json.Unmarshal(body, &root)]: [None] when it returns an error. *)
Variable Unmarshal : list Byte.byte -> option JValue.

(** The order in which [for _, val := range m] visits a map (Go leaves it
    unspecified). *)
Variable range_order : list (string * JValue) -> list (string * JValue).

(** [m[key]] with the comma-ok form. *)
Fixpoint map_lookup (k : string) (m : list (string * JValue)) : option JValue :=
  match m with
  | [] => None
  | (k', v) :: m' => if String.eqb k k' then Some v else map_lookup k m'
  end.

(** Go's [(string, []int, error)] results. *)
Inductive parse_ret : Type :=
| ParseOk (key : string) (idxs : list Z)
| ParseErr (msg : string).

(** [for len(rest) > 0 { ... }] of ParseKeyAndIndexes; each round
    strips at least the two bytes of "[" and "]", so [fuel] at
    [length rest + 1] never runs out. *)
Fixpoint index_loop (fuel : nat) (token rest : string) (idxs : list Z)
  : parse_ret :=
  match fuel with
  | O => ParseOk EmptyString idxs
  | S fuel' =>
      match rest with
      | EmptyString => ParseOk EmptyString idxs
      | _ =>
          if negb (HasPrefix rest "[") then
            ParseErr ("invalid index syntax in " ++ token)
          else
            let closePos := Index rest "]"%char in
            if (closePos =? -1)%Z then ParseErr ("missing closing ] in " ++ token)
            else
              let numStr := substring 1 (Z.to_nat closePos - 1) rest in
              if String.eqb numStr "" then ParseErr ("empty index in " ++ token)
              else
                match Atoi numStr with
                | None => ParseErr ("invalid index '" ++ numStr ++ "' in " ++ token)
                | Some n =>
                    index_loop fuel' token
                      (substring (Z.to_nat closePos + 1) (String.length rest) rest)
                      (idxs ++ [n])
                end
      end
  end.

(** ParseKeyAndIndexes *)
Definition ParseKeyAndIndexes (token : string) : parse_ret :=
  if String.eqb token "" then ParseErr "empty token"
  else
    let br := Index token "["%char in
    if (br =? -1)%Z then ParseOk token []
    else
      let key := substring 0 (Z.to_nat br) token in
      let rest := substring (Z.to_nat br) (String.length token) token in
      match index_loop (S (String.length rest)) token rest [] with
      | ParseOk _ idxs => ParseOk key idxs
      | ParseErr msg => ParseErr msg
      end.

(** [for _, idx := range idxs { arr, ok := cur.([]interface{}) ... }] *)
Fixpoint index_walk (idxs : list Z) (cur : JValue) : option JValue :=
  match idxs with
  | [] => Some cur
  | idx :: idxs' =>
      match cur with
      | JArr arr =>
          if ((idx <? 0) || (Z.of_nat (List.length arr) <=? idx))%Z then None
          else match nth_error arr (Z.to_nat idx) with
               | Some next => index_walk idxs' next
               | None => None
               end
      | _ => None
      end
  end.

(** One round of [for _, part := range parts]: [None] where the code
    returns [("", false)]. *)
Definition part_step (part : string) (cur : JValue) : option JValue :=
  match ParseKeyAndIndexes part with
  | ParseErr _ => None
  | ParseOk key idxs =>
      let after_key :=
        if String.eqb key "" then Some cur
        else match cur with
             | JObj m => map_lookup key m
             | _ => None
             end in
      match after_key with
      | None => None
      | Some cur' => index_walk idxs cur'
      end
  end.

Fixpoint parts_walk (parts : list string) (cur : JValue) : option JValue :=
  match parts with
  | [] => Some cur
  | part :: parts' =>
      match part_step part cur with
      | None => None
      | Some cur' => parts_walk parts' cur'
      end
  end.

(** The final [switch v := cur.(type)]. *)
Definition leaf_text (cur : JValue) : string * bool :=
  match cur with
  | JStr v => (v, true)
  | JNum v => (format_float64 v, true)
  | JBool v => (if v then "true" else "false", true)
  | _ => ("", false)
  end.

(** ExtractByPath *)
Definition ExtractByPath (root : JValue) (path : string) : string * bool :=
  if String.eqb path "" then ("", false)
  else match parts_walk (Split path "."%char) root with
       | None => ("", false)
       | Some cur => leaf_text cur
       end.

Fixpoint first_nonempty_string (l : list (string * JValue)) : string :=
  match l with
  | [] => ""
  | (_, JStr s) :: l' => if String.eqb s "" then first_nonempty_string l' else s
  | _ :: l' => first_nonempty_string l'
  end.

(** ExtractTextFromResponse *)
Definition ExtractTextFromResponse (body : list Byte.byte) (textPath : string)
  : string :=
  match Unmarshal body with
  | None => ""
  | Some root =>
      let by_path :=
        if String.eqb textPath "" then None
        else match ExtractByPath root textPath with
             | (v, true) => Some v
             | (_, false) => None
             end in
      match by_path with
      | Some v => v
      | None =>
          match root with
          | JObj m =>
              let from_text :=
                match map_lookup "text" m with
                | Some (JStr s) => Some s
                | Some (JNum s) => Some (format_float64 s)
                | Some (JBool s) => Some (if s then "true" else "false")
                | _ => None
                end in
              match from_text with
              | Some v => v
              | None => first_nonempty_string (range_order m)
              end
          | _ => ""
          end
      end
  end.

End JsonPath.

Arguments JNull {float64}.
Arguments JBool {float64} b.
Arguments JNum {float64} x.
Arguments JStr {float64} s.
Arguments JArr {float64} l.
Arguments JObj {float64} m.
Arguments map_lookup {float64} k m.
Arguments index_walk {float64} idxs cur.
Arguments part_step {float64} part cur.
Arguments parts_walk {float64} parts cur.
Arguments leaf_text {float64} format_float64 cur.
Arguments ExtractByPath {float64} format_float64 root path.
Arguments first_nonempty_string {float64} l.
Arguments ExtractTextFromResponse {float64} format_float64 Unmarshal range_order body textPath.

End JsonPath.

(** ** The low-level keyboard hook callback of [startLowLevelHook] *)
Module Hook.

Definition WM_KEYDOWN : Z := 256.
Definition WM_KEYUP : Z := 257.
Definition WM_SYSKEYDOWN : Z := 260.
Definition WM_SYSKEYUP : Z := 261.
Definition LLKHF_INJECTED : Z := 16.
Definition VK_SHIFT : Z := 16.
Definition VK_CONTROL : Z := 17.
Definition VK_MENU : Z := 18.
Definition VK_LWIN : Z := 91.
Definition VK_RWIN : Z := 92.

(** [candidate{id, mod}] *)
Record candidate := Candidate { c_id : Z; c_mod : Z }.

(** One call of the callback: [nCode], [wParam], the [vkCode] and
    [flags] of the [KBDLLHOOKSTRUCT], and [GetAsyncKeyState] as seen
    during this call. *)
Record event := Event {
  ev_nCode : Z;
  ev_msg : Z;
  ev_vk : Z;
  ev_flags : Z;
  ev_keystate : Z -> Z
}.

(** What the callback returns: [CallNextHookEx]'s result (the event is
    passed on) or [uintptr(1)] (the event is swallowed). *)
Inductive verdict := Forward | Swallow.

(** [lookup map[uint32][]candidate] *)
Fixpoint lookup (vk : Z) (m : list (Z * list candidate)) : option (list candidate) :=
  match m with
  | [] => None
  | (k, cs) :: m' => if (k =? vk)%Z then Some cs else lookup vk m'
  end.

Definition pressed (ks : Z -> Z) (vk : Z) : bool :=
  negb (Z.land (ks vk) 32768 =? 0)%Z.

(** modsSatisfied *)
Definition modsSatisfied (ks : Z -> Z) (required : Z) : bool :=
  if (required =? 0)%Z then true
  else if negb (Z.land required 2 =? 0)%Z && negb (pressed ks VK_CONTROL) then false
  else if negb (Z.land required 1 =? 0)%Z && negb (pressed ks VK_MENU) then false
  else if negb (Z.land required 4 =? 0)%Z && negb (pressed ks VK_SHIFT) then false
  else if negb (Z.land required 8 =? 0)%Z
          && negb (pressed ks VK_LWIN) && negb (pressed ks VK_RWIN) then false
  else true.

(** [swallowed map[uint32]bool]: the key codes mapped to [true]. *)
Definition swallowed_set := list Z.

Definition mem (vk : Z) (sw : swallowed_set) : bool := existsb (Z.eqb vk) sw.

Definition set_true (vk : Z) (sw : swallowed_set) : swallowed_set :=
  if mem vk sw then sw else vk :: sw.

Definition delete (vk : Z) (sw : swallowed_set) : swallowed_set :=
  filter (fun k => negb (k =? vk)%Z) sw.

(** [for _, c := range cands { if modsSatisfied(c.mod) {...} }] *)
Fixpoint first_satisfied (ks : Z -> Z) (cs : list candidate) : option candidate :=
  match cs with
  | [] => None
  | c :: cs' => if modsSatisfied ks (c_mod c) then Some c else first_satisfied ks cs'
  end.

(** The callback: verdict, new [swallowed] map, and the command id handed
    to [go handler(c.id)], if any. *)
Definition callback (lk : list (Z * list candidate)) (sw : swallowed_set)
    (e : event) : verdict * swallowed_set * option Z :=
  if (ev_nCode e <? 0)%Z then (Forward, sw, None)
  else
  let msg := ev_msg e in
  let vk := ev_vk e in
  if negb (Z.land (ev_flags e) LLKHF_INJECTED =? 0)%Z then (Forward, sw, None)
  else
  let down :=
    if ((msg =? WM_KEYDOWN) || (msg =? WM_SYSKEYDOWN))%Z then
      match lookup vk lk with
      | Some cands =>
          match first_satisfied (ev_keystate e) cands with
          | Some c => Some (Swallow, set_true vk sw, Some (c_id c))
          | None => None
          end
      | None => None
      end
    else None in
  match down with
  | Some r => r
  | None =>
      if ((msg =? WM_KEYUP) || (msg =? WM_SYSKEYUP))%Z && mem vk sw then
        (Swallow, delete vk sw, None)
      else (Forward, sw, None)
  end.

(** The callback run over a sequence of events: the verdicts in order and
    the final [swallowed] map. *)
Fixpoint run (lk : list (Z * list candidate)) (sw : swallowed_set) (es : list event)
  : list verdict * swallowed_set :=
  match es with
  | [] => ([], sw)
  | e :: es' =>
      let '(v, sw', _) := callback lk sw e in
      let '(vs, swf) := run lk sw' es' in
      (v :: vs, swf)
  end.

End Hook.

(** ** The recorder (package record)

    The [Recorder] and its goroutines are modelled as an interleaving
    transition system.  Each critical section under [r.mu] is one atomic
    step; the capture goroutine [recordLoop] is a program counter; every
    call whose error the code inspects (PortAudio, [os.Create],
    [enc.Write], [enc.Close], [stream.Read]) takes its outcome from the
    scheduler.  Calls whose errors are discarded ([_ = stream.Stop()] and
    the like) always take effect.  [uuid.New] is modelled by the counter
    [next]: distinct sessions get distinct temporary files, so the disk is
    indexed by that counter. *)
Module Record.

Inductive State := StateIdle | StateRecording | StatePaused | StateStopping
                 | StateCanceled.

Definition State_eqb (a b : State) : bool :=
  match a, b with
  | StateIdle, StateIdle | StateRecording, StateRecording
  | StatePaused, StatePaused | StateStopping, StateStopping
  | StateCanceled, StateCanceled => true
  | _, _ => false
  end.

(** [Result{WavPath, Canceled, Err}] *)
Record Result := MkResult { WavPath : string; Canceled : bool; Err : option string }.

Definition decimal (n : nat) : string :=
  NilEmpty.string_of_uint (Nat.to_uint n).

(** generateTempWav: [filepath.Join(dir, "RecordTemp_<id>.wav")]. *)
Definition generateTempWav (tempDir : string) (n : nat) : string :=
  tempDir ++ "\" ++ "RecordTemp_" ++ decimal n ++ ".wav".

(** Program points of [recordLoop], from its first statement to the end
    of its goroutine (the deferred [portaudio.Terminate]). *)
Inductive pc :=
| PInit                (* portaudio.Initialize *)
| POpen                (* portaudio.OpenDefaultStream *)
| PStreamStart         (* stream.Start *)
| PCreate              (* os.Create(wavPath), wav.NewEncoder *)
| PCheckCanceled       (* for { if r.isCanceled() { break } *)
| PCheckPaused         (* if r.isPaused() { sleep; continue } *)
| PCheckStop           (* select { case <-r.stopCtx.Done(): goto done } *)
| PRead                (* stream.Read() *)
| PWrite               (* enc.Write(buf) *)
| PDone                (* done: stream.Stop(); stream.Close() *)
| PDoneCheckCanceled   (* if r.isCanceled() { ... } *)
| PEncClose            (* enc.Close() *)
| PFinish (res : Result)   (* r.finish(res): lock, state = Idle, unlock *)
| PSend (res : Result)     (* r.done <- res *)
| PTerminate           (* deferred portaudio.Terminate *)
| PExited.

(** A [recordLoop] goroutine with what it holds open. *)
Record Worker := MkWorker {
  w_pc : pc;
  w_file : nat;          (* the id in its temporary file name *)
  w_wavPath : string;
  w_pa : bool;           (* portaudio initialised, Terminate deferred *)
  w_stream : bool;       (* stream opened and not closed *)
  w_started : bool;      (* stream started and not stopped *)
  w_fileOpen : bool;     (* os.File open *)
  w_enc : bool;          (* encoder not closed *)
  w_encoded : nat        (* buffers written to the encoder *)
}.

(** A goroutine blocked in [res := <-done] of Stop or Cancel, and what it
    received. *)
Inductive caller_kind := ByStop | ByCancel.
Record Caller := MkCaller {
  c_kind : caller_kind;
  c_chan : nat;
  c_got : option Result
}.

(** The shared fields of the [Recorder], the channels and contexts it
    allocated, the file system, and the goroutines. *)
Record Sys := MkSys {
  state : State;
  tempDir : string;
  done : nat;                  (* r.done: channel id *)
  stopCtx : nat;               (* r.stopCtx: context id *)
  cancelled : nat -> bool;     (* contexts whose cancel func was called *)
  buf : nat -> option Result;  (* the single slot of each [chan Result] *)
  disk : list nat;             (* temporary files present on disk *)
  next : nat;                  (* fresh ids *)
  workers : list Worker;
  callers : list Caller
}.

Definition New (tempDir : string) : Sys :=
  MkSys StateIdle tempDir 0 0 (fun _ => false) (fun _ => None) [] 1 [] [].

Definition set_state (s : Sys) (st : State) : Sys :=
  MkSys st (tempDir s) (done s) (stopCtx s) (cancelled s) (buf s) (disk s)
    (next s) (workers s) (callers s).

Definition cancel_ctx (c : nat) (s : Sys) : Sys :=
  MkSys (state s) (tempDir s) (done s) (stopCtx s)
    (fun c' => if Nat.eqb c' c then true else cancelled s c')
    (buf s) (disk s) (next s) (workers s) (callers s).

Definition add_caller (cl : Caller) (s : Sys) : Sys :=
  MkSys (state s) (tempDir s) (done s) (stopCtx s) (cancelled s) (buf s)
    (disk s) (next s) (workers s) (callers s ++ [cl]).

Definition running (st : State) : bool :=
  State_eqb st StateRecording || State_eqb st StatePaused.

(** Start: the critical section, then [go r.recordLoop()]; the new
    channel, context and temporary-file id are [next]. *)
Definition Start (s : Sys) : Sys * option string :=
  if negb (State_eqb (state s) StateIdle) then (s, Some "recorder not idle")
  else
    let n := next s in
    let w := MkWorker PInit n (generateTempWav (tempDir s) n)
               false false false false false 0 in
    (MkSys StateRecording (tempDir s) n n (cancelled s)
       (fun c => if Nat.eqb c n then None else buf s c)
       (disk s) (S n) (workers s ++ [w]) (callers s), None).

(** Stop up to [res := <-done]: on success the calling goroutine is left
    blocked on the channel; on failure it returns [Result{}] and the
    error. *)
Definition Stop (s : Sys) : Sys * option string :=
  if negb (running (state s)) then (s, Some "recorder not running")
  else
    let s1 := set_state s StateStopping in
    (add_caller (MkCaller ByStop (done s) None) (cancel_ctx (stopCtx s) s1), None).

(** Cancel up to [res := <-done]. *)
Definition Cancel (s : Sys) : Sys * option string :=
  if negb (running (state s)) then (s, Some "recorder not running")
  else
    let s1 := set_state s StateCanceled in
    (add_caller (MkCaller ByCancel (done s) None) (cancel_ctx (stopCtx s) s1), None).

(** TogglePause *)
Definition TogglePause (s : Sys) : Sys * option string :=
  if negb (running (state s)) then (s, Some "recorder not running")
  else if State_eqb (state s) StatePaused then (set_state s StateRecording, None)
  else (set_state s StatePaused, None).

Definition set_disk (s : Sys) (d : list nat) : Sys :=
  MkSys (state s) (tempDir s) (done s) (stopCtx s) (cancelled s) (buf s) d
    (next s) (workers s) (callers s).

Definition set_buf (s : Sys) (b : nat -> option Result) : Sys :=
  MkSys (state s) (tempDir s) (done s) (stopCtx s) (cancelled s) b (disk s)
    (next s) (workers s) (callers s).

Definition set_workers (s : Sys) (ws : list Worker) : Sys :=
  MkSys (state s) (tempDir s) (done s) (stopCtx s) (cancelled s) (buf s)
    (disk s) (next s) ws (callers s).

Definition set_callers (s : Sys) (cs : list Caller) : Sys :=
  MkSys (state s) (tempDir s) (done s) (stopCtx s) (cancelled s) (buf s)
    (disk s) (next s) (workers s) cs.

(** os.Remove *)
Definition remove_file (n : nat) (d : list nat) : list nat :=
  filter (fun m => negb (Nat.eqb m n)) d.

Definition with_pc (w : Worker) (p : pc) : Worker :=
  MkWorker p (w_file w) (w_wavPath w) (w_pa w) (w_stream w) (w_started w)
    (w_fileOpen w) (w_enc w) (w_encoded w).

(** Closing what the worker holds: [stream.Stop(); stream.Close()],
    and [enc.Close(); file.Close()]. *)
Definition stream_closed (w : Worker) : Worker :=
  MkWorker (w_pc w) (w_file w) (w_wavPath w) (w_pa w) false false
    (w_fileOpen w) (w_enc w) (w_encoded w).

Definition file_closed (w : Worker) : Worker :=
  MkWorker (w_pc w) (w_file w) (w_wavPath w) (w_pa w) (w_stream w)
    (w_started w) false false (w_encoded w).

Definition fail_with (w : Worker) (msg : string) : pc :=
  PFinish (MkResult (w_wavPath w) false (Some msg)).

(** One step of a [recordLoop] goroutine; [ok] is the outcome of the call
    made at this point, when the code inspects one.  [None]: the goroutine
    is blocked or has exited. *)
Definition wstep (s : Sys) (w : Worker) (ok : bool) : option (Sys * Worker) :=
  match w_pc w with
  | PInit =>
      if ok then
        Some (s, MkWorker POpen (w_file w) (w_wavPath w) true false false
                   false false (w_encoded w))
      else Some (s, with_pc w (fail_with w "portaudio init failed"))
  | POpen =>
      if ok then
        Some (s, MkWorker PStreamStart (w_file w) (w_wavPath w) (w_pa w) true
                   false false false (w_encoded w))
      else Some (s, with_pc w (fail_with w "open stream failed"))
  | PStreamStart =>
      if ok then
        Some (s, MkWorker PCreate (w_file w) (w_wavPath w) (w_pa w) true true
                   false false (w_encoded w))
      else Some (s, with_pc (stream_closed w) (fail_with w "start stream failed"))
  | PCreate =>
      if ok then
        Some (set_disk s (w_file w :: disk s),
              MkWorker PCheckCanceled (w_file w) (w_wavPath w) (w_pa w)
                (w_stream w) (w_started w) true true (w_encoded w))
      else Some (s, with_pc (stream_closed w) (fail_with w "create wav failed"))
  | PCheckCanceled =>
      if State_eqb (state s) StateCanceled then Some (s, with_pc w PDone)
      else Some (s, with_pc w PCheckPaused)
  | PCheckPaused =>
      if State_eqb (state s) StatePaused then Some (s, with_pc w PCheckCanceled)
      else Some (s, with_pc w PCheckStop)
  | PCheckStop =>
      if cancelled s (stopCtx s) then Some (s, with_pc w PDone)
      else Some (s, with_pc w PRead)
  | PRead =>
      if ok then Some (s, with_pc w PWrite)
      else Some (s, with_pc w PCheckCanceled)
  | PWrite =>
      if ok then
        Some (s, MkWorker PCheckCanceled (w_file w) (w_wavPath w) (w_pa w)
                   (w_stream w) (w_started w) (w_fileOpen w) (w_enc w)
                   (S (w_encoded w)))
      else
        Some (set_disk s (remove_file (w_file w) (disk s)),
              with_pc (stream_closed (file_closed w)) (fail_with w "wav write failed"))
  | PDone => Some (s, with_pc (stream_closed w) PDoneCheckCanceled)
  | PDoneCheckCanceled =>
      if State_eqb (state s) StateCanceled then
        Some (set_disk s (remove_file (w_file w) (disk s)),
              with_pc (file_closed w) (PFinish (MkResult "" true None)))
      else Some (s, with_pc w PEncClose)
  | PEncClose =>
      if ok then
        Some (s, with_pc (file_closed w) (PFinish (MkResult (w_wavPath w) false None)))
      else
        Some (set_disk s (remove_file (w_file w) (disk s)),
              with_pc (file_closed w) (fail_with w "wav close failed"))
  | PFinish res => Some (set_state s StateIdle, with_pc w (PSend res))
  | PSend res =>
      match buf s (done s) with
      | None =>
          let ch := done s in
          Some (set_buf s (fun c => if Nat.eqb c ch then Some res else buf s c),
                with_pc w PTerminate)
      | Some _ => None
      end
  | PTerminate =>
      Some (s, MkWorker PExited (w_file w) (w_wavPath w) false (w_stream w)
                 (w_started w) (w_fileOpen w) (w_enc w) (w_encoded w))
  | PExited => None
  end.

Fixpoint replace {A} (i : nat) (x : A) (l : list A) : list A :=
  match l, i with
  | [], _ => []
  | _ :: l', O => x :: l'
  | y :: l', S i' => y :: replace i' x l'
  end.

(** Scheduler events: a command issued by some goroutine, a step of the
    [i]-th [recordLoop] goroutine with the outcome of its call, or the
    [i]-th blocked Stop/Cancel caller receiving from its channel. *)
Inductive Ev :=
| EStart | EStop | ECancel | EToggle
| EWorker (i : nat) (ok : bool)
| ERecv (i : nat).

Definition step (s : Sys) (e : Ev) : option Sys :=
  match e with
  | EStart => Some (fst (Start s))
  | EStop => Some (fst (Stop s))
  | ECancel => Some (fst (Cancel s))
  | EToggle => Some (fst (TogglePause s))
  | EWorker i ok =>
      match nth_error (workers s) i with
      | None => None
      | Some w =>
          match wstep s w ok with
          | None => None
          | Some (s', w') => Some (set_workers s' (replace i w' (workers s')))
          end
      end
  | ERecv i =>
      match nth_error (callers s) i with
      | Some (MkCaller k ch None) =>
          match buf s ch with
          | Some r =>
              let s1 := set_buf s (fun c => if Nat.eqb c ch then None else buf s c) in
              Some (set_callers s1 (replace i (MkCaller k ch (Some r)) (callers s1)))
          | None => None
          end
      | _ => None
      end
  end.

Fixpoint run (s : Sys) (es : list Ev) : option Sys :=
  match es with
  | [] => Some s
  | e :: es' => match step s e with Some s' => run s' es' | None => None end
  end.

Definition reachable (tempDir : string) (s : Sys) : Prop :=
  exists es, run (New tempDir) es = Some s.

(** The part of [recordLoop] that owns the session: from its start up to
    the state reset in [finish]. *)
Definition in_session (p : pc) : bool :=
  match p with
  | PSend _ | PTerminate | PExited => false
  | _ => true
  end.

Definition alive (p : pc) : bool :=
  match p with PExited => false | _ => true end.

Definition session_workers (ws : list Worker) : nat :=
  List.length (filter (fun w => in_session (w_pc w)) ws).

Definition live_workers (ws : list Worker) : nat :=
  List.length (filter (fun w => alive (w_pc w)) ws).

End Record.

(** ** Key tokens accepted by the parser, as listed in the spec (C6) *)
Module HotkeySpec.
Import GoStrings Hotkey.

Definition is_some {A} (o : option A) : bool :=
  match o with Some _ => true | None => false end.

(** A token with no '+' byte. *)
Definition no_plus (p : string) : bool :=
  negb (existsb (fun c => Ascii.eqb c "+"%char) (list_ascii_of_string p)).

(** Every byte below 0x80. *)
Definition is_ascii (s : string) : bool :=
  forallb (fun c => Nat.ltb (nat_of_ascii c) 128) (list_ascii_of_string s).

(** The final '+'-separated token, lower-cased and trimmed. *)
Definition final_token (s : string) : string :=
  normalize (last (Split s "+"%char) EmptyString).

(** One or more decimal digits, optionally preceded by a sign. *)
Definition unsigned_decimal (d : string) : option Z :=
  match d with
  | EmptyString => None
  | _ => digits_value d 0
  end.

Definition signed_decimal (d : string) : option Z :=
  match d with
  | String c r =>
      if Ascii.eqb c "+"%char then unsigned_decimal r
      else if Ascii.eqb c "-"%char then option_map Z.opp (unsigned_decimal r)
      else unsigned_decimal d
  | EmptyString => None
  end.

(** "f" followed by a signed decimal number from 1 to 24. *)
Definition function_key (t : string) : bool :=
  match t with
  | String c d =>
      Ascii.eqb c "f"%char &&
      match signed_decimal d with
      | Some n => ((1 <=? n) && (n <=? 24))%Z
      | None => false
      end
  | EmptyString => false
  end.

Definition numpad_names : list string :=
  ["numpad0"; "num0"; "kp0"; "numpad1"; "num1"; "kp1"; "numpad2"; "num2"; "kp2";
   "numpad3"; "num3"; "kp3"; "numpad4"; "num4"; "kp4"; "numpad5"; "num5"; "kp5";
   "numpad6"; "num6"; "kp6"; "numpad7"; "num7"; "kp7"; "numpad8"; "num8"; "kp8";
   "numpad9"; "num9"; "kp9"; "add"; "plus"; "kpadd";
   "subtract"; "minus"; "kpsubtract"].

Definition key_names : list string :=
  ["esc"; "escape"; "space"; "enter"; "return";
   "tab"; "backspace"; "insert"; "delete"; "home"; "end"; "pageup"; "pagedown";
   "left"; "up"; "right"; "down"].

(** The amended C6 key set: any single character, a named key, a
    function key, or a numeric-pad key or operator alias. *)
Definition known_key (t : string) : bool :=
  Nat.eqb (String.length t) 1 || str_in t key_names || function_key t
  || str_in t numpad_names.

End HotkeySpec.

(** ** Hook event predicates, and a scenario with Ctrl+V bound to command 1 *)
Module HookScenario.
Import Hook.

Definition ctrl_v_lookup : list (Z * list candidate) := [(86%Z, [Candidate 1 2])].

(** [GetAsyncKeyState]: only Ctrl is held. *)
Definition ctrl_held (k : Z) : Z := if (k =? VK_CONTROL)%Z then 32768%Z else 0%Z.

Definition key_event (msg vk flags : Z) : event := Event 0 msg vk flags ctrl_held.

Definition is_keyup (msg : Z) : bool := ((msg =? WM_KEYUP) || (msg =? WM_SYSKEYUP))%Z.
Definition is_keydown (msg : Z) : bool := ((msg =? WM_KEYDOWN) || (msg =? WM_SYSKEYDOWN))%Z.
Definition injected (e : event) : bool := negb (Z.land (ev_flags e) LLKHF_INJECTED =? 0)%Z.

(** A key-up for [vk] that the callback inspects: [nCode >= 0] and not
    injected. *)
Definition releases (vk : Z) (e : event) : bool :=
  (0 <=? ev_nCode e)%Z && negb (injected e) && is_keyup (ev_msg e) && (ev_vk e =? vk)%Z.

End HookScenario.

(** ** Invariant of the recorder, and schedules used as examples *)
Module RecordInv.
Import Record.

(** What holds of the Result [res] of a worker at [r.finish(res)]: the
    canceled Result, with the state Canceled and the file gone; an error
    Result with the worker's path, the file gone; or the successful Result
    of a Stop. *)
Definition finish_ok (s : Sys) (w : Worker) (res : Result) : Prop :=
  (res = MkResult "" true None /\ state s = StateCanceled /\ ~ In (w_file w) (disk s))
  \/ (res = MkResult (w_wavPath w) false (Err res) /\ Err res <> None
      /\ ~ In (w_file w) (disk s))
  \/ (res = MkResult (w_wavPath w) false None /\ state s = StateStopping).

(** Facts about an in-session worker at each program point: before
    [os.Create] its file is not on disk; past the loop the session is
    being stopped or canceled. *)
Definition wf_worker (s : Sys) (w : Worker) : Prop :=
  match w_pc w with
  | PInit | POpen | PStreamStart | PCreate => ~ In (w_file w) (disk s)
  | PDone | PDoneCheckCanceled => state s = StateStopping \/ state s = StateCanceled
  | PEncClose => state s = StateStopping
  | PFinish res => finish_ok s w res
  | _ => True
  end.

(** The invariant of every reachable state: at most one worker in
    session, one exactly when the state is not Idle; paths and ids are
    those of [generateTempWav] and below [next]; [stopCtx] is cancelled only
    once the recorder is no longer running. *)
Record Inv (s : Sys) : Prop := {
  inv_unique : forall j k a b, nth_error (workers s) j = Some a ->
    nth_error (workers s) k = Some b -> in_session (w_pc a) = true ->
    in_session (w_pc b) = true -> j = k;
  inv_idle : state s = StateIdle <->
    (forall j a, nth_error (workers s) j = Some a -> in_session (w_pc a) = false);
  inv_path : forall j a, nth_error (workers s) j = Some a ->
    w_wavPath a = generateTempWav (tempDir s) (w_file a) /\ w_file a < next s;
  inv_disk : forall f, In f (disk s) -> f < next s;
  inv_ctx : stopCtx s < next s;
  inv_fresh : forall c, next s <= c -> cancelled s c = false;
  inv_cancel : cancelled s (stopCtx s) = true -> running (state s) = false;
  inv_wf : forall j a, nth_error (workers s) j = Some a ->
    in_session (w_pc a) = true -> wf_worker s a
}.

(** The error a call of [recordLoop] finishes with when it fails at
    program point [p] ([fmt.Errorf("<text>: %w", err)]); [None] where no
    failing call ends the loop. *)
Definition io_error (p : pc) : option string :=
  match p with
  | PInit => Some "portaudio init failed"
  | POpen => Some "open stream failed"
  | PStreamStart => Some "start stream failed"
  | PCreate => Some "create wav failed"
  | PWrite => Some "wav write failed"
  | PEncClose => Some "wav close failed"
  | _ => None
  end.

End RecordInv.

Module RecordScenario.
Import Record.

Definition tdir : string := "C:\Temp".

(** The state reached from [New tdir] by a schedule ([New tdir] if the
    schedule gets stuck). *)
Definition after (es : list Ev) : Sys :=
  match run (New tdir) es with Some s => s | None => New tdir end.

Definition worker_at (s : Sys) (j : nat) : Worker :=
  nth j (workers s) (MkWorker PExited 0 "" false false false false false 0).

(** Start; the device set-up and the file creation succeed; Stop; the
    worker runs to the delivery of its result, which Stop receives. *)
Definition stop_session : list Ev :=
  [EStart; EWorker 0 true; EWorker 0 true; EWorker 0 true; EWorker 0 true;
   EStop; EWorker 0 true; EWorker 0 true; EWorker 0 true; EWorker 0 true;
   EWorker 0 true; EWorker 0 true; EWorker 0 true; EWorker 0 true; ERecv 0].

(** ... then the next Start, whose worker initialises PortAudio before
    the first worker has run its deferred [portaudio.Terminate]. *)
Definition restart : list Ev := (stop_session ++ [EStart; EWorker 1 true])%list.

(** Start; Cancel; [portaudio.Initialize] fails; the worker finishes and
    sends; Cancel receives. *)
Definition cancel_after_init_failure : list Ev :=
  [EStart; ECancel; EWorker 0 false; EWorker 0 true; EWorker 0 true; ERecv 0].

(** Start; set-up and file creation succeed; one round of the loop up to
    a failed [stream.Read]. *)
Definition read_failure : list Ev :=
  [EStart; EWorker 0 true; EWorker 0 true; EWorker 0 true; EWorker 0 true;
   EWorker 0 true; EWorker 0 true; EWorker 0 true; EWorker 0 false].

End RecordScenario.

(** ** The cases of a failed JSON path lookup, as the spec lists them (C10) *)
Module JsonPathSpec.
Import JsonPath.

Section JsonPathSpec.
Variable float64 : Type.

Definition is_object (v : JValue float64) : bool :=
  match v with JObj _ => true | _ => false end.

Definition is_array (v : JValue float64) : bool :=
  match v with JArr _ => true | _ => false end.

(** string, number or bool *)
Definition is_primitive (v : JValue float64) : bool :=
  match v with JStr _ | JNum _ | JBool _ => true | _ => false end.

Definition is_parse_err (r : parse_ret) : bool :=
  match r with ParseErr _ => true | ParseOk _ _ => false end.

(** The value a segment's key selects ([cur] itself for an empty key). *)
Definition after_key (key : string) (cur : JValue float64) : option (JValue float64) :=
  if String.eqb key "" then Some cur
  else match cur with JObj m => map_lookup key m | _ => None end.

(** Whether the key [key] fails on [cur]: [cur] is not an object, or has
    no entry [key]. *)
Definition key_fails (key : string) (cur : JValue float64) : bool :=
  negb (String.eqb key "") &&
  match cur with
  | JObj m => match map_lookup key m with None => true | Some _ => false end
  | _ => true
  end.

(** Whether the index [idx] fails on [cur]: [cur] is not an array, or
    [idx] is negative or not below its length. *)
Definition index_fails (idx : Z) (cur : JValue float64) : bool :=
  match cur with
  | JArr arr => ((idx <? 0) || (Z.of_nat (List.length arr) <=? idx))%Z
  | _ => true
  end.

End JsonPathSpec.

Arguments is_object {float64} v.
Arguments is_array {float64} v.
Arguments is_primitive {float64} v.
Arguments after_key {float64} key cur.
Arguments key_fails {float64} key cur.
Arguments index_fails {float64} idx cur.

(** A parsed response: [{"data": {"items": [{"value": "a"}, {"value": "b"}]}}],
    numbers rendered by [num_text]. *)
Definition items : JValue nat := JArr [JObj [("value", JStr "a")]; JObj [("value", JStr "b")]].
Definition data : JValue nat := JObj [("items", items)].
Definition response : JValue nat := JObj [("data", data)].
Definition num_text (n : nat) : string := NilEmpty.string_of_uint (Nat.to_uint n).

End JsonPathSpec.

(** ** Decimal formatting: [strconv.Itoa] and [fmt]'s [%d] *)
Module GoFmt.

(** The digits of [n], most significant first, in front of [acc];
    [fuel] bounds the number of divisions. *)
Fixpoint show_nat_aux (fuel n : nat) (acc : string) : string :=
  match fuel with
  | O => acc
  | S f =>
      let acc' := String (ascii_of_nat (48 + n mod 10)) acc in
      if Nat.ltb n 10 then acc' else show_nat_aux f (n / 10) acc'
  end.

Definition show_nat (n : nat) : string := show_nat_aux (S n) n "".

(** strconv.Itoa *)
Definition Itoa (z : Z) : string :=
  if (z <? 0)%Z then "-" ++ show_nat (Z.to_nat (- z)) else show_nat (Z.to_nat z).

End GoFmt.

(** ** Hotkey set-up: the parsing loops of [startLowLevelHook] and
    [registerHotkeys], and the [RegisterHotKey] loop *)
Module HotkeySetup.
Import Hotkey Hook GoFmt.

(** The three bindings, in the order both set-up functions use. *)
Definition hotkey_specs (startKey pauseKey cancelKey : string) : list (Z * string) :=
  [(1%Z, startKey); (2%Z, pauseKey); (3%Z, cancelKey)].

(** [lookup[vk] = append(lookup[vk], c)] *)
Fixpoint add_candidate (vk : Z) (c : candidate) (m : list (Z * list candidate))
  : list (Z * list candidate) :=
  match m with
  | [] => [(vk, [c])]
  | (k, cs) :: m' =>
      if (k =? vk)%Z then (k, (cs ++ [c])%list) :: m' else (k, cs) :: add_candidate vk c m'
  end.

Definition invalid_hotkey (spec err : string) : string :=
  "invalid hotkey '" ++ spec ++ "': " ++ err.

(** [for _, s := range specs { mod, vk, err := parseHotkey(s.spec) ... }]
    of [startLowLevelHook]: the lookup map, or the error sent on [errCh]. *)
Fixpoint build_lookup (specs : list (Z * string)) (m : list (Z * list candidate))
  : list (Z * list candidate) + string :=
  match specs with
  | [] => inl m
  | (id, spec) :: rest =>
      let r := parseHotkey spec in
      match hk_err r with
      | Some err => inr (invalid_hotkey spec err)
      | None => build_lookup rest (add_candidate (hk_vk r) (Candidate id (hk_mod r)) m)
      end
  end.

(** [hotkeyDef{id, spec, mod, vk}] *)
Record hotkeyDef := HotkeyDef { d_id : Z; d_spec : string; d_mod : Z; d_vk : Z }.

(** The parsing loop of [registerHotkeys]. *)
Fixpoint parse_defs (specs : list (Z * string)) : list hotkeyDef + string :=
  match specs with
  | [] => inl []
  | (id, spec) :: rest =>
      let r := parseHotkey spec in
      match hk_err r with
      | Some err => inr (invalid_hotkey spec err)
      | None =>
          match parse_defs rest with
          | inl ds => inl (HotkeyDef id spec (hk_mod r) (hk_vk r) :: ds)
          | inr e => inr e
          end
      end
  end.

(** [UnregisterHotKey(0, id)] on the set of ids registered for the thread. *)
Definition unregister (id : Z) (reg : list Z) : list Z :=
  filter (fun k => negb (k =? id)%Z) reg.

(** [for _, od := range defs { if od.id == d.id { break }; UnregisterHotKey(0, od.id) }] *)
Fixpoint unregister_before (defs : list hotkeyDef) (id : Z) (reg : list Z) : list Z :=
  match defs with
  | [] => reg
  | od :: rest =>
      if (d_id od =? id)%Z then reg else unregister_before rest id (unregister (d_id od) reg)
  end.

(** [for _, d := range defs { r := RegisterHotKey(0, d.id, d.mod, d.vk) ... }]:
    [register_ok d] is the outcome of [RegisterHotKey] for [d]; the result
    is the set of registered ids and the value sent on [errCh]. *)
Fixpoint register_loop (all : list hotkeyDef) (todo : list hotkeyDef)
    (register_ok : hotkeyDef -> bool) (reg : list Z) : list Z * option string :=
  match todo with
  | [] => (reg, None)
  | d :: rest =>
      if register_ok d then register_loop all rest register_ok (d_id d :: reg)
      else (unregister_before all (d_id d) reg,
            Some ("RegisterHotKey failed for '" ++ d_spec d ++ "' (id=" ++ Itoa (d_id d) ++ ")"))
  end.

(** The goroutine of [registerHotkeys] up to its send on [errCh]: the
    ids registered for its thread once it has sent, and the value sent. *)
Definition registerHotkeys_goroutine (startKey pauseKey cancelKey : string)
    (register_ok : hotkeyDef -> bool) (reg : list Z) : list Z * option string :=
  match parse_defs (hotkey_specs startKey pauseKey cancelKey) with
  | inr e => (reg, Some e)
  | inl defs => register_loop defs defs register_ok reg
  end.

(** The goroutine of [startLowLevelHook] up to its send on [errCh]:
    [hook_ok] is whether [SetWindowsHookExW] returns a handle.  The lookup
    map the installed callback reads, if a hook is installed, and the
    value sent. *)
Definition startLowLevelHook_goroutine (startKey pauseKey cancelKey : string) (hook_ok : bool)
  : option (list (Z * list candidate)) * option string :=
  match build_lookup (hotkey_specs startKey pauseKey cancelKey) [] with
  | inr e => (None, Some e)
  | inl lk => if hook_ok then (Some lk, None) else (None, Some "SetWindowsHookExW failed")
  end.

(** [select { case err := <-errCh: return err; case <-time.After(2 * time.Second): ... }]:
    [in_time] is whether the select takes the [errCh] case, that is, the
    goroutine sent before the timer fired and that case was chosen. *)
Definition select_errCh (in_time : bool) (sent : option string) (timeout : string)
  : option string :=
  if in_time then sent else Some timeout.

(** registerHotkeys: the ids registered once its goroutine has sent (it
    goes on after a timeout), and the error returned. *)
Definition registerHotkeys (startKey pauseKey cancelKey : string)
    (register_ok : hotkeyDef -> bool) (in_time : bool) (reg : list Z)
  : list Z * option string :=
  let '(reg', sent) := registerHotkeys_goroutine startKey pauseKey cancelKey register_ok reg in
  (reg', select_errCh in_time sent "timeout registering hotkeys").

(** startLowLevelHook: the hook installed once its goroutine has sent,
    and the error returned. *)
Definition startLowLevelHook (startKey pauseKey cancelKey : string) (hook_ok : bool)
    (in_time : bool) : option (list (Z * list candidate)) * option string :=
  let '(h, sent) := startLowLevelHook_goroutine startKey pauseKey cancelKey hook_ok in
  (h, select_errCh in_time sent "timeout installing low-level hook").

(** Register: the error it returns. *)
Definition Register (startKey pauseKey cancelKey : string) (hook : bool)
    (hook_ok : bool) (register_ok : hotkeyDef -> bool) (in_time : bool) (reg : list Z)
  : option string :=
  if hook then snd (startLowLevelHook startKey pauseKey cancelKey hook_ok in_time)
  else snd (registerHotkeys startKey pauseKey cancelKey register_ok in_time reg).

End HotkeySetup.

(** ** Start-up clean-up of the temporary directory (app.cleanupOldTempFiles) *)
Module Cleanup.
Import GoStrings.

(** The directory is modelled by the names of its entries; [readdir_ok]
    is whether [os.ReadDir] succeeds, [remove_ok name] whether
    [os.Remove] of that entry does. *)
Definition remove_name (name : string) (fs : list string) : list string :=
  filter (fun x => negb (String.eqb x name)) fs.

Definition cleanup_entry (remove_ok : string -> bool) (fs : list string) (name : string)
  : list string :=
  if HasPrefix name "RecordTemp_" then
    if remove_ok name then remove_name name fs else fs
  else fs.

Definition cleanupOldTempFiles (readdir_ok : bool) (remove_ok : string -> bool)
    (fs : list string) : list string :=
  if readdir_ok then fold_left (cleanup_entry remove_ok) fs fs else fs.

End Cleanup.

(** ** Inputs of the properties of this part *)
Module ExtraSpec.
Import Hotkey Hook HotkeySetup.

(** strings.Join(ts, "+") *)
Fixpoint join_plus (ts : list string) : string :=
  match ts with
  | [] => ""
  | [t] => t
  | t :: ts' => t ++ "+" ++ join_plus ts'
  end.

(** What a caller of parseHotkey gets apart from the error text. *)
Definition hk_view (r : hk_ret) : Z * Z * bool := (hk_mod r, hk_vk r, ok r).

(** The candidates of [lookup[vk]], [[]] when absent. *)
Definition lookup_all (vk : Z) (m : list (Z * list candidate)) : list candidate :=
  match lookup vk m with Some cs => cs | None => [] end.

(** The candidates that the specs parse to for key [vk], in order. *)
Fixpoint cands_for (vk : Z) (specs : list (Z * string)) : list candidate :=
  match specs with
  | [] => []
  | (id, spec) :: rest =>
      let r := parseHotkey spec in
      ((if (hk_vk r =? vk)%Z then [Candidate id (hk_mod r)] else []) ++ cands_for vk rest)%list
  end.

(** ["[i]"] for each index, as a path segment writes them. *)
Definition brackets (idxs : list Z) : string :=
  fold_right (fun i acc => "[" ++ GoFmt.Itoa i ++ "]" ++ acc) "" idxs.

Definition in_int64 (i : Z) : bool := ((- 2 ^ 63) <=? i)%Z && (i <=? 2 ^ 63 - 1)%Z.

Definition no_bracket (s : string) : bool :=
  negb (existsb (fun c => Ascii.eqb c "["%char) (list_ascii_of_string s)).

Definition internal_event (e : Record.Ev) : bool :=
  match e with Record.EWorker _ _ | Record.ERecv _ => true | _ => false end.

(** [c] does not occur in [s]. *)
Definition no_char (c : ascii) (s : string) : bool :=
  negb (existsb (fun x => Ascii.eqb x c) (list_ascii_of_string s)).

End ExtraSpec.

(** * Properties *)

(** ** Hotkey spec parser *)
Module HotkeyFacts.
Import GoStrings Hotkey HotkeySpec.

Lemma Split_not_nil : forall s sep, Split s sep <> [].
Proof.
  induction s as [|c s IH]; intros sep; simpl; [discriminate|].
  destruct (Ascii.eqb c sep); [discriminate|].
  destruct (Split s sep); discriminate.
Qed.

Lemma Split_app_sep : forall pre rest,
  Split (pre ++ String "+"%char rest) "+"%char
  = (Split pre "+"%char ++ Split rest "+"%char)%list.
Proof.
  induction pre as [|c pre IH]; intros rest; simpl; [reflexivity|].
  rewrite IH. destruct (Ascii.eqb c "+"%char); [reflexivity|].
  destruct (Split pre "+"%char) as [|q qs] eqn:E.
  - exfalso; exact (Split_not_nil _ _ E).
  - reflexivity.
Qed.

Lemma Split_no_plus : forall p, no_plus p = true -> Split p "+"%char = [p].
Proof.
  induction p as [|c p IH]; intros H; simpl; [reflexivity|].
  unfold no_plus in H; simpl in H.
  destruct (Ascii.eqb c "+"%char); [discriminate|].
  rewrite IH by exact H. reflexivity.
Qed.

Lemma modifier_loop_app : forall l1 l2 md,
  modifier_loop (l1 ++ l2)%list md = modifier_loop l2 (modifier_loop l1 md).
Proof. induction l1 as [|p l1 IH]; intros l2 md; simpl; auto. Qed.

Lemma modifier_loop_skip : forall l1 x l2 md,
  modifier_case x = None ->
  modifier_loop (l1 ++ x :: l2)%list md = modifier_loop (l1 ++ l2)%list md.
Proof.
  intros l1 x l2 md Hx. rewrite !modifier_loop_app. simpl. rewrite Hx. reflexivity.
Qed.

Lemma removelast_app_cons : forall {A} (l1 l2 : list A) (x : A),
  l2 <> [] -> removelast (l1 ++ x :: l2)%list = (l1 ++ x :: removelast l2)%list.
Proof.
  intros A l1 l2 x H. rewrite removelast_app by discriminate.
  simpl. destruct l2; [contradiction|reflexivity].
Qed.

Lemma last_app_nonnil : forall {A} (l1 l2 : list A) (d : A),
  l2 <> [] -> last (l1 ++ l2)%list d = last l2 d.
Proof.
  induction l1 as [|a l1 IH]; intros l2 d H; simpl; [reflexivity|].
  rewrite IH by exact H.
  destruct (l1 ++ l2)%list eqn:E; [|reflexivity].
  apply app_eq_nil in E. destruct E; contradiction.
Qed.

(** The input string only shows up in the error message. *)
Lemma resolve_key_msg : forall s1 s2 md t,
  hk_mod (resolve_key s1 md t) = hk_mod (resolve_key s2 md t) /\
  hk_vk (resolve_key s1 md t) = hk_vk (resolve_key s2 md t) /\
  ok (resolve_key s1 md t) = ok (resolve_key s2 md t).
Proof.
  intros s1 s2 md t. unfold resolve_key.
  repeat match goal with
         | |- context [match ?x with _ => _ end] =>
             lazymatch x with
             | context [s1] => fail
             | context [s2] => fail
             | _ => destruct x
             end
         | |- context [if ?x then _ else _] => destruct x
         end; simpl; auto.
Qed.

(** C5: the scenarios of the spec.  ["alt+q"] gives the Alt bit (0x0001)
    and 'Q' (0x51); ["ctrl+numpad1"] gives the Ctrl bit (0x0002) and
    VK_NUMPAD1 (0x61); [""] and ["numpad+"] are rejected with an error. *)
Theorem parseHotkey_scenarios :
  parseHotkey "alt+q" = HkRet 1 (code "Q"%char) None /\
  parseHotkey "ctrl+numpad1" = HkRet 2 VK_NUMPAD1 None /\
  ok (parseHotkey "") = false /\
  ok (parseHotkey "numpad+") = false.
Proof. vm_compute. repeat split. Qed.

Lemma parseHotkey_nonempty : forall c r,
  parseHotkey (String c r)
  = let '(md, keyToken) := mod_and_key (map normalize (Split (String c r) "+"%char)) in
    resolve_key (String c r) md keyToken.
Proof. reflexivity. Qed.

Lemma mod_and_key_multi : forall l,
  2 <= List.length l ->
  mod_and_key l = (modifier_loop (removelast l) 0%Z, last l EmptyString).
Proof. intros [|a [|b l]] H; simpl in H; try lia; reflexivity. Qed.

Lemma mod_and_key_skip_front : forall x l,
  modifier_case x = None -> l <> [] ->
  mod_and_key (x :: l) = mod_and_key l.
Proof.
  intros x l Hx Hl. rewrite mod_and_key_multi by (destruct l; [contradiction|simpl; lia]).
  destruct l as [|a [|b l]]; [contradiction| |].
  - simpl. rewrite Hx. reflexivity.
  - rewrite (mod_and_key_multi (a :: b :: l)) by (simpl; lia).
    change (removelast (x :: a :: b :: l)) with (x :: removelast (a :: b :: l)).
    simpl modifier_loop at 1. rewrite Hx. reflexivity.
Qed.

Lemma mod_and_key_skip_mid : forall L1 x L2,
  modifier_case x = None -> L1 <> [] -> L2 <> [] ->
  mod_and_key (L1 ++ x :: L2)%list = mod_and_key (L1 ++ L2)%list.
Proof.
  intros L1 x L2 Hx H1 H2.
  assert (len1 : 1 <= List.length L1) by (destruct L1; [contradiction|simpl; lia]).
  assert (len2 : 1 <= List.length L2) by (destruct L2; [contradiction|simpl; lia]).
  rewrite !mod_and_key_multi by (rewrite length_app; simpl; lia).
  rewrite removelast_app_cons by exact H2.
  rewrite (removelast_app L1 H2).
  rewrite modifier_loop_skip by exact Hx.
  rewrite (last_app_nonnil L1 (x :: L2)) by discriminate.
  rewrite (last_app_nonnil L1 L2) by exact H2.
  destruct L2; [contradiction|reflexivity].
Qed.

Lemma parseHotkey_with_nonempty : forall norm c r,
  parseHotkey_with norm (String c r)
  = let '(md, keyToken) := mod_and_key (map norm (Split (String c r) "+"%char)) in
    resolve_key (String c r) md keyToken.
Proof. reflexivity. Qed.

(** C9: a non-final token that is not a modifier name is ignored.  Dropping
    it (at the front, or after any non-empty prefix of tokens) changes
    neither the modifier mask, nor the key code, nor whether parsing
    succeeds; so "ctl+q" parses like "q", to no modifier and 'Q'.  This
    holds whatever the clean-up [norm] of the parts is, so in particular
    for Go's Unicode [strings.TrimSpace(strings.ToLower(.))]: a token is
    ignored exactly when its cleaned-up form is no modifier name. *)
Theorem parseHotkey_ignores_unknown_modifier :
  forall norm pre p rest,
    no_plus p = true ->
    modifier_case (norm p) = None ->
    rest <> "" ->
    (let r1 := parseHotkey_with norm (p ++ "+" ++ rest) in
     let r2 := parseHotkey_with norm rest in
     hk_mod r1 = hk_mod r2 /\ hk_vk r1 = hk_vk r2 /\ ok r1 = ok r2) /\
    (let r1 := parseHotkey_with norm (pre ++ "+" ++ p ++ "+" ++ rest) in
     let r2 := parseHotkey_with norm (pre ++ "+" ++ rest) in
     hk_mod r1 = hk_mod r2 /\ hk_vk r1 = hk_vk r2 /\ ok r1 = ok r2).
Proof.
  intros norm pre p rest Hp Hmod Hrest. cbv zeta. split.
  - assert (Hs : exists c r, (p ++ "+" ++ rest) = String c r).
    { destruct p; simpl; eexists; eexists; reflexivity. }
    destruct Hs as [c0 [r0 Hs]].
    destruct rest as [|c r]; [contradiction|].
    rewrite Hs, !parseHotkey_with_nonempty, <- Hs.
    change ("+" ++ String c r) with (String "+"%char (String c r)).
    rewrite Split_app_sep, (Split_no_plus p Hp), map_app.
    change (map norm [p] ++ ?l)%list with (norm p :: l).
    rewrite mod_and_key_skip_front
      by (exact Hmod || (intro E; apply map_eq_nil in E; exact (Split_not_nil _ _ E))).
    destruct (mod_and_key (map norm (Split (String c r) "+"%char))) as [md k].
    apply resolve_key_msg.
  - assert (Hs1 : exists c r, (pre ++ "+" ++ p ++ "+" ++ rest) = String c r).
    { destruct pre; simpl; eexists; eexists; reflexivity. }
    assert (Hs2 : exists c r, (pre ++ "+" ++ rest) = String c r).
    { destruct pre; simpl; eexists; eexists; reflexivity. }
    destruct Hs1 as [c1 [r1 Hs1]]. destruct Hs2 as [c2 [r2 Hs2]].
    rewrite Hs1, Hs2, !parseHotkey_with_nonempty, <- Hs1, <- Hs2.
    change ("+" ++ p ++ "+" ++ rest) with (String "+"%char (p ++ String "+"%char rest)).
    change ("+" ++ rest) with (String "+"%char rest).
    rewrite !Split_app_sep, (Split_no_plus p Hp).
    rewrite !map_app.
    change (map norm [p] ++ ?l)%list with (norm p :: l).
    rewrite mod_and_key_skip_mid; try exact Hmod;
      try (intro E; apply map_eq_nil in E; exact (Split_not_nil _ _ E)).
    destruct (mod_and_key (map norm (Split pre "+"%char) ++ map norm (Split rest "+"%char))%list) as [md k].
    apply resolve_key_msg.
Qed.

(** Witness of C9 at "ctrl+ctl+q" and "ctl+q". *)
Lemma parseHotkey_ignores_unknown_modifier_witness :
  parseHotkey "ctl+q" = HkRet 0 (code "Q"%char) None /\
  ((let r1 := parseHotkey_with normalize ("ctl" ++ "+" ++ "q") in
    let r2 := parseHotkey_with normalize "q" in
    hk_mod r1 = hk_mod r2 /\ hk_vk r1 = hk_vk r2 /\ ok r1 = ok r2) /\
   (let r1 := parseHotkey_with normalize ("ctrl" ++ "+" ++ "ctl" ++ "+" ++ "q") in
    let r2 := parseHotkey_with normalize ("ctrl" ++ "+" ++ "q") in
    hk_mod r1 = hk_mod r2 /\ hk_vk r1 = hk_vk r2 /\ ok r1 = ok r2)).
Proof.
  split; [vm_compute; reflexivity|].
  apply (parseHotkey_ignores_unknown_modifier normalize "ctrl" "ctl" "q");
    [vm_compute; reflexivity | vm_compute; reflexivity | discriminate].
Defined.

Lemma numpad_case_names : forall t, is_some (numpad_case t) = str_in t numpad_names.
Proof.
  intros t. unfold numpad_case, str_in, numpad_names. simpl existsb.
  repeat (match goal with |- context [String.eqb t ?x] => destruct (String.eqb t x) end;
          simpl; try reflexivity).
Qed.

Lemma lookup_named_some : forall t,
  is_some (lookup_named t named) =
  str_in t ["tab"; "backspace"; "insert"; "delete"; "home"; "end"; "pageup"; "pagedown";
            "left"; "up"; "right"; "down"].
Proof.
  intros t. unfold named, str_in. simpl lookup_named. simpl existsb.
  repeat (match goal with |- context [String.eqb t ?x] => destruct (String.eqb t x) end;
          simpl; try reflexivity).
Qed.

Lemma substring_all : forall d n, String.length d <= n -> substring 0 n d = d.
Proof.
  induction d as [|c d IH]; intros n H; destruct n; simpl in *; try lia; auto.
  rewrite IH by lia. reflexivity.
Qed.

Lemma Atoi_signed : forall d,
  Atoi d = match signed_decimal d with
           | Some n => if ((- 2 ^ 63) <=? n)%Z && (n <=? 2 ^ 63 - 1)%Z then Some n else None
           | None => None
           end.
Proof.
  intros [|c r]; [reflexivity|].
  unfold Atoi, signed_decimal, unsigned_decimal.
  destruct (Ascii.eqb c "+"%char) eqn:Ep.
  - apply Ascii.eqb_eq in Ep; subst c. destruct r; reflexivity.
  - destruct (Ascii.eqb c "-"%char) eqn:Em.
    + apply Ascii.eqb_eq in Em; subst c. destruct r as [|c' r']; [reflexivity|].
      cbn -[digits_value]. destruct (digits_value (String c' r') 0); reflexivity.
    + destruct c as [[] [] [] [] [] [] [] []]; try discriminate; reflexivity.
Qed.

Lemma fkey_function_key : forall t, is_some (fkey_case t) = function_key t.
Proof.
  intros [|c d]; [reflexivity|].
  destruct (ascii_dec c "f") as [->|Hne].
  - assert (H1 : HasPrefix (String "f" d) "f" = true).
    { unfold HasPrefix. simpl. destruct (ascii_dec "f" "f"); [destruct d; reflexivity|congruence]. }
    assert (H2 : TrimPrefix (String "f" d) "f" = d).
    { unfold TrimPrefix. rewrite H1. simpl. apply substring_all. lia. }
    unfold fkey_case, function_key. rewrite H1, H2, Atoi_signed.
    change (Ascii.eqb "f" "f") with true. cbn [andb].
    destruct (signed_decimal d) as [n|]; [|reflexivity].
    destruct ((1 <=? n)%Z && (n <=? 24)%Z) eqn:R2.
    + apply andb_true_iff in R2. destruct R2 as [R2a R2b].
      apply Z.leb_le in R2a. apply Z.leb_le in R2b.
      assert (R : ((- 2 ^ 63) <=? n)%Z && (n <=? 2 ^ 63 - 1)%Z = true).
      { apply andb_true_iff; split; apply Z.leb_le; lia. }
      rewrite R. rewrite (proj2 (Z.leb_le 1 n) R2a), (proj2 (Z.leb_le n 24) R2b).
      reflexivity.
    + destruct (((- 2 ^ 63) <=? n)%Z && (n <=? 2 ^ 63 - 1)%Z); [rewrite R2|]; reflexivity.
  - assert (H1 : HasPrefix (String c d) "f" = false).
    { unfold HasPrefix.
      change (String.prefix "f" (String c d)) with
        (if ascii_dec "f" c then String.prefix "" d else false).
      destruct (ascii_dec "f" c); [congruence|reflexivity]. }
    assert (E : Ascii.eqb c "f"%char = false) by (apply Ascii.eqb_neq; exact Hne).
    unfold fkey_case, function_key. rewrite H1, E. reflexivity.
Qed.

Lemma str_in_app : forall t l1 l2, str_in t (l1 ++ l2) = str_in t l1 || str_in t l2.
Proof. intros. unfold str_in. apply existsb_app. Qed.

Lemma ok_resolve_key : forall s md t, ok (resolve_key s md t) = known_key t.
Proof.
  intros s md t. unfold resolve_key, known_key.
  destruct t as [|c [|c2 r]].
  - reflexivity.
  - simpl String.length. simpl Nat.eqb. simpl orb.
    destruct (single_case _); [reflexivity|].
    repeat (match goal with
            | |- context [if ?x then _ else _] => destruct x
            | |- context [match ?x with _ => _ end] => destruct x
            end; try reflexivity).
  - remember (String c (String c2 r)) as T.
    assert (Hs : single_case T = None) by (subst; reflexivity).
    assert (Hl : Nat.eqb (String.length T) 1 = false) by (subst; reflexivity).
    rewrite Hs, Hl. cbn [orb].
    change key_names with (["esc"; "escape"] ++ ["space"] ++ ["enter"; "return"] ++
      ["tab"; "backspace"; "insert"; "delete"; "home"; "end"; "pageup"; "pagedown";
       "left"; "up"; "right"; "down"])%list.
    rewrite !str_in_app, <- numpad_case_names, <- lookup_named_some, <- fkey_function_key.
    destruct (str_in T ["esc"; "escape"]), (str_in T ["space"]),
      (str_in T ["enter"; "return"]), (fkey_case T), (numpad_case T),
      (lookup_named T named); simpl; rewrite ?orb_true_r; try reflexivity.
Qed.

Lemma last_map_normalize : forall l,
  last (map normalize l) EmptyString = normalize (last l EmptyString).
Proof.
  induction l as [|a l IH]; [reflexivity|].
  destruct l as [|b l]; [reflexivity|].
  change (last (map normalize (b :: l)) EmptyString = normalize (last (b :: l) EmptyString)).
  exact IH.
Qed.

Lemma mod_and_key_key : forall l, l <> [] -> snd (mod_and_key l) = last l EmptyString.
Proof. intros [|a [|b l]] H; [contradiction|reflexivity|reflexivity]. Qed.

(** C6 (amended): on ASCII input, parseHotkey succeeds exactly when the
    input is non-empty and its final '+'-separated token, lower-cased and
    trimmed, is a known key: any single character, a named key (esc,
    escape, space, enter, return, tab, backspace, insert, delete, home,
    end, pageup, pagedown, left, up, right, down), "f" followed by a
    signed decimal number from 1 to 24, or a numeric-pad key or operator
    alias.  The modifier tokens never make it fail. *)
Theorem parseHotkey_ok_iff_known_key : forall s,
  is_ascii s = true ->
  (ok (parseHotkey s) = true <-> s <> "" /\ known_key (final_token s) = true).
Proof.
  intros [|c r] _.
  - simpl. split; [discriminate|intros [H _]; contradiction].
  - rewrite parseHotkey_nonempty.
    assert (Hk : snd (mod_and_key (map normalize (Split (String c r) "+"%char)))
                 = final_token (String c r)).
    { rewrite mod_and_key_key.
      - apply last_map_normalize.
      - intro E. apply map_eq_nil in E. exact (Split_not_nil _ _ E). }
    destruct (mod_and_key (map normalize (Split (String c r) "+"%char))) as [md k].
    simpl in Hk. subst k. rewrite ok_resolve_key.
    split; [intros H; split; [discriminate|exact H] | intros [_ H]; exact H].
Qed.

(** Witness of C6 at "ctrl+,". *)
Lemma parseHotkey_ok_iff_known_key_witness :
  is_ascii "ctrl+," = true /\
  (ok (parseHotkey "ctrl+,") = true <-> "ctrl+," <> "" /\ known_key (final_token "ctrl+,") = true).
Proof.
  split; [vm_compute; reflexivity|].
  apply parseHotkey_ok_iff_known_key. vm_compute. reflexivity.
Defined.

(** C6 as stated fails: the final token "," is a single character that is
    neither a letter nor a digit, yet "ctrl+," parses, to Ctrl and the
    code of ',' (0x2C), through the closing single-character fallback. *)
Lemma parseHotkey_accepts_comma :
  final_token "ctrl+," = "," /\ parseHotkey "ctrl+," = HkRet 2 44 None.
Proof. vm_compute. split; reflexivity. Qed.

End HotkeyFacts.

(** ** Low-level hook: injected events and swallowed key pairs *)
Module HookFacts.
Import Hook HookScenario.

Lemma mem_set_true : forall vk sw, mem vk (set_true vk sw) = true.
Proof.
  intros vk sw. unfold set_true. destruct (mem vk sw) eqn:E; [exact E|].
  simpl. rewrite Z.eqb_refl. reflexivity.
Qed.

Lemma mem_set_true_other : forall vk k sw, mem vk sw = true -> mem vk (set_true k sw) = true.
Proof.
  intros vk k sw H. unfold set_true. destruct (mem k sw); [exact H|].
  simpl. rewrite H. apply orb_true_r.
Qed.

Lemma mem_delete_other : forall vk k sw,
  k <> vk -> mem vk sw = true -> mem vk (delete k sw) = true.
Proof.
  intros vk k sw Hne. unfold mem, delete. induction sw as [|a sw IH]; simpl; [discriminate|].
  intros H. apply orb_true_iff in H. destruct H as [H|H].
  - apply Z.eqb_eq in H. subst a.
    assert (E : (vk =? k)%Z = false) by (apply Z.eqb_neq; congruence).
    rewrite E. simpl. rewrite Z.eqb_refl. reflexivity.
  - destruct (a =? k)%Z; simpl; [apply IH; exact H|]. rewrite (IH H). apply orb_true_r.
Qed.

Lemma callback_injected : forall lk sw e,
  injected e = true -> callback lk sw e = (Forward, sw, None).
Proof.
  intros lk sw e H. unfold callback. unfold injected in H. rewrite H.
  destruct (ev_nCode e <? 0)%Z; reflexivity.
Qed.

(** A set marker survives every event that does not release its key. *)
Lemma callback_keeps_marker : forall lk sw e vk sw' v d,
  callback lk sw e = (v, sw', d) ->
  mem vk sw = true -> releases vk e = false -> mem vk sw' = true.
Proof.
  intros lk sw e vk sw' v d Hcb Hm Hr. unfold callback in Hcb.
  destruct (ev_nCode e <? 0)%Z eqn:Hn; [inversion Hcb; subst; exact Hm|].
  destruct (negb (Z.land (ev_flags e) LLKHF_INJECTED =? 0)%Z) eqn:Hi;
    [inversion Hcb; subst; exact Hm|].
  destruct (if ((ev_msg e =? WM_KEYDOWN) || (ev_msg e =? WM_SYSKEYDOWN))%Z then _ else None)
    as [r|] eqn:Hd.
  - destruct ((ev_msg e =? WM_KEYDOWN) || (ev_msg e =? WM_SYSKEYDOWN))%Z; [|discriminate].
    destruct (lookup (ev_vk e) lk); [|discriminate].
    destruct (first_satisfied _ _); [|discriminate].
    injection Hd as Hd. subst r. injection Hcb as <- <- <-.
    apply mem_set_true_other; exact Hm.
  - destruct (((ev_msg e =? WM_KEYUP) || (ev_msg e =? WM_SYSKEYUP))%Z && mem (ev_vk e) sw)
      eqn:Hu; inversion Hcb; subst; [|exact Hm].
    apply mem_delete_other; [|exact Hm].
    intro Heq. apply andb_true_iff in Hu. destruct Hu as [Hu _].
    unfold releases, injected, is_keyup in Hr. rewrite Hu, Heq, Z.eqb_refl in Hr.
    rewrite Hi in Hr. apply Z.ltb_ge in Hn. apply Z.leb_le in Hn. rewrite Hn in Hr.
    discriminate.
Qed.

Lemma callback_dispatch_marks : forall lk sw e sw' id,
  callback lk sw e = (Swallow, sw', Some id) -> mem (ev_vk e) sw' = true.
Proof.
  intros lk sw e sw' id Hcb. unfold callback in Hcb.
  destruct (ev_nCode e <? 0)%Z; [discriminate|].
  destruct (negb (Z.land (ev_flags e) LLKHF_INJECTED =? 0)%Z); [discriminate|].
  destruct ((ev_msg e =? WM_KEYDOWN) || (ev_msg e =? WM_SYSKEYDOWN))%Z.
  - destruct (lookup (ev_vk e) lk).
    + destruct (first_satisfied _ _).
      * injection Hcb as <- _. apply mem_set_true.
      * destruct (_ && _); discriminate.
    + destruct (_ && _); discriminate.
  - destruct (_ && _); discriminate.
Qed.

Lemma run_keeps_marker : forall lk vk mid sw,
  mem vk sw = true ->
  forallb (fun e => negb (releases vk e)) mid = true ->
  mem vk (snd (run lk sw mid)) = true.
Proof.
  intros lk vk mid. induction mid as [|e mid IH]; intros sw Hm Hf; [exact Hm|].
  simpl in Hf. apply andb_true_iff in Hf. destruct Hf as [He Hf].
  simpl. destruct (callback lk sw e) as [[v sw1] d] eqn:Hcb.
  destruct (run lk sw1 mid) as [vs swf] eqn:Hrun.
  simpl. change swf with (snd (vs, swf)). rewrite <- Hrun. apply IH; [|exact Hf].
  apply (callback_keeps_marker lk sw e vk sw1 v d Hcb Hm). apply negb_true_iff. exact He.
Qed.

Lemma callback_release : forall lk sw e vk,
  mem vk sw = true -> releases vk e = true ->
  callback lk sw e = (Swallow, delete vk sw, None).
Proof.
  intros lk sw e vk Hm Hr. unfold releases, injected, is_keyup in Hr.
  apply andb_true_iff in Hr. destruct Hr as [Hr Hv].
  apply andb_true_iff in Hr. destruct Hr as [Hr Hu].
  apply andb_true_iff in Hr. destruct Hr as [Hn Hi].
  apply Z.eqb_eq in Hv. apply negb_true_iff in Hi. apply negb_false_iff in Hi.
  unfold callback. apply Z.leb_le in Hn.
  replace (ev_nCode e <? 0)%Z with false by (symmetry; apply Z.ltb_ge; lia).
  rewrite Hi. simpl negb. cbv iota.
  rewrite Hv.
  apply orb_true_iff in Hu.
  destruct Hu as [Hu|Hu]; apply Z.eqb_eq in Hu; rewrite Hu; simpl; rewrite Hm; reflexivity.
Qed.

(** C7 (amended): an injected event is always passed on unchanged, with no
    command dispatched and the swallowed markers untouched; and once a
    key-down for [vk] has been swallowed and dispatched, the next key-up
    for [vk] that the callback inspects ([nCode >= 0], not injected) is
    swallowed too and clears the marker, whatever events for other keys
    or injected events come in between. *)
Theorem hook_injected_and_swallowed_pairs :
  (forall lk sw e, injected e = true -> callback lk sw e = (Forward, sw, None)) /\
  (forall lk sw0 pre e_down sw2 id mid e_up,
     callback lk (snd (run lk sw0 pre)) e_down = (Swallow, sw2, Some id) ->
     forallb (fun e => negb (releases (ev_vk e_down) e)) mid = true ->
     releases (ev_vk e_down) e_up = true ->
     callback lk (snd (run lk sw2 mid)) e_up
     = (Swallow, delete (ev_vk e_down) (snd (run lk sw2 mid)), None)).
Proof.
  split.
  - exact callback_injected.
  - intros lk sw0 pre e_down sw2 id mid e_up Hd Hmid Hup.
    apply callback_release; [|exact Hup].
    apply run_keeps_marker; [|exact Hmid].
    exact (callback_dispatch_marks _ _ _ _ _ Hd).
Qed.

(** Witness of C7: an injected Ctrl+V key-down passes through; a physical
    one is swallowed, an injected V key-up in between is passed on, and the
    physical V key-up is swallowed. *)
Lemma hook_injected_and_swallowed_pairs_witness :
  let e_inj := HookScenario.key_event WM_KEYDOWN 86 16 in
  let e_down := HookScenario.key_event WM_KEYDOWN 86 0 in
  let mid := [HookScenario.key_event WM_KEYUP 86 16] in
  let e_up := HookScenario.key_event WM_KEYUP 86 0 in
  let lk := HookScenario.ctrl_v_lookup in
  (injected e_inj = true /\ callback lk [] e_inj = (Forward, [], None)) /\
  (callback lk (snd (run lk [] [])) e_down = (Swallow, [86%Z], Some 1%Z) /\
   forallb (fun e => negb (releases (ev_vk e_down) e)) mid = true /\
   releases (ev_vk e_down) e_up = true /\
   callback lk (snd (run lk [86%Z] mid)) e_up
   = (Swallow, delete (ev_vk e_down) (snd (run lk [86%Z] mid)), None)).
Proof.
  intros e_inj e_down mid e_up lk.
  split; [split; [reflexivity|] | ].
  - apply (proj1 hook_injected_and_swallowed_pairs). reflexivity.
  - split; [reflexivity|]. split; [reflexivity|]. split; [reflexivity|].
    apply (proj2 hook_injected_and_swallowed_pairs lk [] [] e_down [86%Z] 1%Z);
      reflexivity.
Defined.

(** C7 as stated fails: after the physical Ctrl+V key-down is swallowed,
    the next V key-up is an injected one; it is passed on and the marker
    for V stays set. *)
Lemma hook_forwards_injected_keyup_after_swallow :
  run HookScenario.ctrl_v_lookup []
    [HookScenario.key_event WM_KEYDOWN 86 0; HookScenario.key_event WM_KEYUP 86 16]
  = ([Swallow; Forward], [86%Z]).
Proof. reflexivity. Qed.

End HookFacts.

(** ** JSON path extraction *)
Module JsonPathFacts.
Import GoStrings JsonPath JsonPathSpec.

Section Facts.
Variable F : Type.
Variable fmt : F -> string.

Lemma parts_walk_app : forall pre rest (root : JValue F),
  parts_walk (pre ++ rest) root =
  match parts_walk pre root with Some c => parts_walk rest c | None => None end.
Proof.
  induction pre as [|p pre IH]; intros rest root; simpl; [reflexivity|].
  destruct (part_step p root); [apply IH|reflexivity].
Qed.

Lemma index_walk_app : forall i1 i2 (cur : JValue F),
  index_walk (i1 ++ i2) cur =
  match index_walk i1 cur with Some c => index_walk i2 c | None => None end.
Proof.
  induction i1 as [|i i1 IH]; intros i2 cur; simpl; [reflexivity|].
  destruct cur; try reflexivity.
  destruct ((i <? 0) || (Z.of_nat (List.length l) <=? i))%Z; [reflexivity|].
  destruct (nth_error l (Z.to_nat i)); [apply IH|reflexivity].
Qed.

Lemma part_step_after_key : forall part (cur : JValue F),
  part_step part cur =
  match ParseKeyAndIndexes part with
  | ParseErr _ => None
  | ParseOk key idxs =>
      match after_key key cur with None => None | Some c => index_walk idxs c end
  end.
Proof. reflexivity. Qed.

Lemma key_fails_none : forall key (cur : JValue F),
  key_fails key cur = true -> after_key key cur = None.
Proof.
  intros key cur H. unfold key_fails, after_key in *.
  destruct (String.eqb key ""); [discriminate|].
  destruct cur; try reflexivity. destruct (map_lookup key m); [discriminate|reflexivity].
Qed.

Lemma index_fails_none : forall idx i2 (v : JValue F),
  index_fails idx v = true -> index_walk (idx :: i2) v = None.
Proof.
  intros idx i2 v H. unfold index_fails in H. destruct v; try reflexivity.
  simpl. rewrite H. reflexivity.
Qed.

Lemma walk_none_extract : forall (root : JValue F) path,
  parts_walk (Split path "."%char) root = None -> ExtractByPath fmt root path = ("", false).
Proof.
  intros root path H. unfold ExtractByPath. rewrite H.
  destruct (String.eqb path ""); reflexivity.
Qed.

Lemma walk_step_none : forall (root : JValue F) path pre part post cur,
  Split path "."%char = (pre ++ part :: post)%list -> parts_walk pre root = Some cur ->
  part_step part cur = None -> ExtractByPath fmt root path = ("", false).
Proof.
  intros root path pre part post cur Hs Hp Hn. apply walk_none_extract.
  rewrite Hs, parts_walk_app, Hp. simpl. rewrite Hn. reflexivity.
Qed.

Lemma parse_err_walk : forall parts part (root : JValue F),
  In part parts -> is_parse_err (ParseKeyAndIndexes part) = true ->
  parts_walk parts root = None.
Proof.
  induction parts as [|p parts IH]; intros part root Hin He; [destruct Hin|].
  simpl. destruct Hin as [->|Hin].
  - unfold part_step. destruct (ParseKeyAndIndexes part); [discriminate|reflexivity].
  - destruct (part_step p root); [|reflexivity]. exact (IH part _ Hin He).
Qed.

End Facts.

(** C10: [ExtractByPath] returns [("", false)] for an empty path; for a
    path one of whose dot-separated segments is malformed; when, after the
    segments before it, a segment's key is applied to a value that is not
    an object or lacks the key; when one of its indexes is applied to a
    value that is not an array or is negative or out of range; and when
    the value reached is not a string, number or bool.  Conversely it
    succeeds only on a non-empty path whose walk reaches such a value, and
    every failure returns the empty string.  [ExtractTextFromResponse]
    returns [""] whenever [json.Unmarshal] fails.  (All of them are total
    functions of the model: no input makes them fail otherwise.) *)
Theorem JsonPath_extract_failures : forall (F : Type) (fmt : F -> string),
  (forall root, ExtractByPath fmt root "" = ("", false)) /\
  (forall root path part, In part (Split path "."%char) ->
     is_parse_err (ParseKeyAndIndexes part) = true ->
     ExtractByPath fmt root path = ("", false)) /\
  (forall root path pre part post cur key idxs,
     Split path "."%char = (pre ++ part :: post)%list -> parts_walk pre root = Some cur ->
     ParseKeyAndIndexes part = ParseOk key idxs -> key_fails key cur = true ->
     ExtractByPath fmt root path = ("", false)) /\
  (forall root path pre part post cur key idxs i1 idx i2 cur' v,
     Split path "."%char = (pre ++ part :: post)%list -> parts_walk pre root = Some cur ->
     ParseKeyAndIndexes part = ParseOk key idxs -> after_key key cur = Some cur' ->
     idxs = (i1 ++ idx :: i2)%list -> index_walk i1 cur' = Some v ->
     index_fails idx v = true ->
     ExtractByPath fmt root path = ("", false)) /\
  (forall root path leaf, parts_walk (Split path "."%char) root = Some leaf ->
     is_primitive leaf = false -> ExtractByPath fmt root path = ("", false)) /\
  (forall root path v, ExtractByPath fmt root path = (v, true) ->
     path <> "" /\ exists leaf, parts_walk (Split path "."%char) root = Some leaf /\
       is_primitive leaf = true /\ leaf_text fmt leaf = (v, true)) /\
  (forall root path v, ExtractByPath fmt root path = (v, false) -> v = "") /\
  (forall Unmarshal range_order body textPath, Unmarshal body = None ->
     ExtractTextFromResponse fmt Unmarshal range_order body textPath = "").
Proof.
  intros F fmt. split; [|split; [|split; [|split; [|split; [|split; [|split]]]]]].
  - intros root. reflexivity.
  - intros root path part Hin He. apply walk_none_extract.
    exact (parse_err_walk F (Split path "."%char) part root Hin He).
  - intros root path pre part post cur key idxs Hs Hp Hk Hf.
    apply (walk_step_none F fmt root path pre part post cur Hs Hp).
    rewrite part_step_after_key, Hk, (key_fails_none F key cur Hf). reflexivity.
  - intros root path pre part post cur key idxs i1 idx i2 cur' v Hs Hp Hk Ha Hi Hw Hf.
    apply (walk_step_none F fmt root path pre part post cur Hs Hp).
    rewrite part_step_after_key, Hk, Ha, Hi, index_walk_app, Hw.
    exact (index_fails_none F idx i2 v Hf).
  - intros root path leaf Hw Hl. unfold ExtractByPath. rewrite Hw.
    destruct (String.eqb path ""); [reflexivity|].
    destruct leaf; try discriminate; reflexivity.
  - intros root path v H. unfold ExtractByPath in H.
    destruct (String.eqb_spec path "") as [->|Hne]; [discriminate|].
    split; [exact Hne|].
    destruct (parts_walk (Split path "."%char) root) as [leaf|]; [|discriminate].
    exists leaf. split; [reflexivity|]. split; [|exact H].
    destruct leaf; try discriminate; reflexivity.
  - intros root path v H. unfold ExtractByPath in H.
    destruct (String.eqb path ""); [congruence|].
    destruct (parts_walk (Split path "."%char) root) as [leaf|]; [|congruence].
    destruct leaf; simpl in H; congruence.
  - intros Unmarshal range_order body textPath H.
    unfold ExtractTextFromResponse. rewrite H. reflexivity.
Qed.

Lemma JsonPath_extract_failures_witness :
  (ExtractByPath num_text response "" = ("", false)) /\
  (In "items[x]" (Split "data.items[x].value" "."%char) /\
   is_parse_err (ParseKeyAndIndexes "items[x]") = true /\
   ExtractByPath num_text response "data.items[x].value" = ("", false)) /\
  (Split "data.nope" "."%char = (["data"] ++ "nope" :: [])%list /\
   parts_walk ["data"] response = Some data /\
   ParseKeyAndIndexes "nope" = ParseOk "nope" [] /\ key_fails "nope" data = true /\
   ExtractByPath num_text response "data.nope" = ("", false)) /\
  (Split "data.items[5].value" "."%char = (["data"] ++ "items[5]" :: ["value"])%list /\
   parts_walk ["data"] response = Some data /\
   ParseKeyAndIndexes "items[5]" = ParseOk "items" [5%Z] /\
   after_key "items" data = Some items /\
   index_walk [] items = Some items /\ index_fails 5%Z items = true /\
   ExtractByPath num_text response "data.items[5].value" = ("", false)) /\
  (parts_walk (Split "data.items" "."%char) response = Some items /\
   is_primitive items = false /\
   ExtractByPath num_text response "data.items" = ("", false)) /\
  (ExtractByPath num_text response "data.items[1].value" = ("b", true) /\
   "data.items[1].value" <> "" /\
   exists leaf, parts_walk (Split "data.items[1].value" "."%char) response = Some leaf /\
     is_primitive leaf = true /\ leaf_text num_text leaf = ("b", true)) /\
  (ExtractByPath num_text response "data.nope" = ("", false) /\ "" = "") /\
  (ExtractTextFromResponse num_text (fun _ => None) (fun m => m) [Byte.x7b] "text" = "").
Proof.
  destruct (JsonPath_extract_failures nat num_text) as (P1 & P2 & P3 & P4 & P5 & P6 & P7 & P8).
  split; [apply P1|]. split; [|split; [|split; [|split; [|split; [|split]]]]].
  - assert (Hin : In "items[x]" (Split "data.items[x].value" "."%char))
      by (vm_compute; auto).
    assert (He : is_parse_err (ParseKeyAndIndexes "items[x]") = true) by (vm_compute; reflexivity).
    split; [exact Hin|]. split; [exact He|]. exact (P2 response _ _ Hin He).
  - assert (Hs : Split "data.nope" "."%char = (["data"] ++ "nope" :: [])%list)
      by (vm_compute; reflexivity).
    assert (Hp : parts_walk ["data"] response = Some data) by (vm_compute; reflexivity).
    assert (Hk : ParseKeyAndIndexes "nope" = ParseOk "nope" []) by (vm_compute; reflexivity).
    assert (Hf : key_fails "nope" data = true) by (vm_compute; reflexivity).
    split; [exact Hs|]. split; [exact Hp|]. split; [exact Hk|]. split; [exact Hf|].
    exact (P3 response _ _ _ _ _ _ _ Hs Hp Hk Hf).
  - assert (Hs : Split "data.items[5].value" "."%char = (["data"] ++ "items[5]" :: ["value"])%list)
      by (vm_compute; reflexivity).
    assert (Hp : parts_walk ["data"] response = Some data) by (vm_compute; reflexivity).
    assert (Hk : ParseKeyAndIndexes "items[5]" = ParseOk "items" [5%Z]) by (vm_compute; reflexivity).
    assert (Ha : after_key "items" data = Some items) by (vm_compute; reflexivity).
    assert (Hw : index_walk [] items = Some items) by reflexivity.
    assert (Hf : index_fails 5%Z items = true) by (vm_compute; reflexivity).
    split; [exact Hs|]. split; [exact Hp|]. split; [exact Hk|]. split; [exact Ha|].
    split; [exact Hw|]. split; [exact Hf|].
    exact (P4 response _ _ _ _ _ _ _ [] 5%Z [] _ _ Hs Hp Hk Ha eq_refl Hw Hf).
  - assert (Hw : parts_walk (Split "data.items" "."%char) response = Some items)
      by (vm_compute; reflexivity).
    assert (Hl : is_primitive items = false) by reflexivity.
    split; [exact Hw|]. split; [exact Hl|]. exact (P5 response _ _ Hw Hl).
  - assert (H : ExtractByPath num_text response "data.items[1].value" = ("b", true))
      by (vm_compute; reflexivity).
    split; [exact H|]. exact (P6 response _ _ H).
  - assert (H : ExtractByPath num_text response "data.nope" = ("", false))
      by (vm_compute; reflexivity).
    split; [exact H|]. exact (P7 response _ _ H).
  - apply P8. reflexivity.
Defined.

End JsonPathFacts.

(** ** Recorder *)
Module RecordFacts.
Import Record RecordInv RecordScenario.

Lemma nth_error_replace_eq : forall {A} i (x y : A) l,
  nth_error l i = Some y -> nth_error (replace i x l) i = Some x.
Proof.
  intros A i; induction i as [|i IH]; intros x y [|z l] H; simpl in *; try discriminate.
  - reflexivity.
  - eapply IH; exact H.
Qed.

Lemma nth_error_replace_neq : forall {A} i j (x : A) l,
  i <> j -> nth_error (replace i x l) j = nth_error l j.
Proof.
  intros A i; induction i as [|i IH]; intros j x [|z l] H; simpl; try reflexivity.
  - destruct j; simpl; [congruence|reflexivity].
  - destruct j; simpl; [reflexivity|]. apply IH. congruence.
Qed.

Lemma nth_error_replace_cases : forall {A} i j (x a : A) l,
  nth_error (replace i x l) j = Some a -> (i = j /\ a = x) \/ (i <> j /\ nth_error l j = Some a).
Proof.
  intros A i j x a l H. destruct (Nat.eq_dec i j) as [<-|Hne].
  - left. split; [reflexivity|].
    revert l H. induction i as [|i IH]; intros [|z l] H; simpl in H; try discriminate.
    + congruence.
    + eapply IH; exact H.
  - right. rewrite nth_error_replace_neq in H by exact Hne. auto.
Qed.

Ltac wstep_cases H :=
  unfold wstep in H;
  repeat match type of H with
  | context [match w_pc ?w with _ => _ end] => destruct (w_pc w) eqn:?
  | context [if ?b then _ else _] => destruct b eqn:?
  | context [match buf ?s ?c with _ => _ end] => destruct (buf s c) eqn:?
  end;
  try discriminate; injection H as <- <-.

Lemma wstep_frame : forall s w ok s1 w',
  wstep s w ok = Some (s1, w') ->
  tempDir s1 = tempDir s /\ done s1 = done s /\ stopCtx s1 = stopCtx s /\
  cancelled s1 = cancelled s /\ next s1 = next s /\ workers s1 = workers s /\
  callers s1 = callers s /\ w_file w' = w_file w /\ w_wavPath w' = w_wavPath w.
Proof.
  intros s w ok s1 w' H. wstep_cases H; simpl; repeat split; reflexivity.
Qed.

Lemma wstep_outside : forall s w ok s1 w',
  wstep s w ok = Some (s1, w') -> in_session (w_pc w) = false ->
  state s1 = state s /\ disk s1 = disk s /\ in_session (w_pc w') = false.
Proof.
  intros s w ok s1 w' H Hout. wstep_cases H; simpl in *; try discriminate;
    repeat split; reflexivity.
Qed.

Lemma wstep_inside : forall s w ok s1 w',
  wstep s w ok = Some (s1, w') -> in_session (w_pc w) = true ->
  (in_session (w_pc w') = true /\ state s1 = state s)
  \/ (in_session (w_pc w') = false /\ state s1 = StateIdle /\
      exists res, w_pc w = PFinish res /\ w_pc w' = PSend res /\
                  buf s1 = buf s /\ disk s1 = disk s).
Proof.
  intros s w ok s1 w' H Hin. wstep_cases H; simpl in *; try discriminate;
    try (left; split; reflexivity).
  right. repeat split. eexists. repeat split.
Qed.


Lemma remove_file_not_in : forall f d, ~ In f (remove_file f d).
Proof.
  intros f d H. unfold remove_file in H. apply filter_In in H as [_ H].
  rewrite Nat.eqb_refl in H. discriminate.
Qed.

Lemma remove_file_sub : forall f g d, In g (remove_file f d) -> In g d.
Proof. intros f g d H. unfold remove_file in H. apply filter_In in H. tauto. Qed.

Lemma running_not_idle : forall st, running st = true -> st <> StateIdle.
Proof. intros st H Heq. subst st. discriminate. Qed.

(** A worker whose facts hold while the recorder is running keeps them
    under any change of the state that leaves the disk alone. *)
Lemma wf_running_frame : forall s s' a,
  running (state s) = true -> wf_worker s a -> disk s' = disk s -> wf_worker s' a.
Proof.
  intros s s' a Hr Hwf Hd. unfold wf_worker, finish_ok in *.
  destruct (w_pc a); try exact I; rewrite ?Hd; try exact Hwf.
  - destruct Hwf as [H|H]; rewrite H in Hr; discriminate.
  - destruct Hwf as [H|H]; rewrite H in Hr; discriminate.
  - rewrite Hwf in Hr; discriminate.
  - destruct Hwf as [[_ [H _]]|[H|[_ H]]]; [rewrite H in Hr; discriminate| |rewrite H in Hr; discriminate].
    right; left; exact H.
Qed.

Lemma State_eqb_true : forall a b, State_eqb a b = true -> a = b.
Proof. intros [] [] H; simpl in H; congruence. Qed.

Lemma wf_frame : forall s s' a,
  state s' = state s -> disk s' = disk s -> wf_worker s a -> wf_worker s' a.
Proof.
  intros s s' a Hs Hd Hwf. unfold wf_worker, finish_ok in *. rewrite Hs, Hd. exact Hwf.
Qed.

Lemma wstep_disk : forall s w ok s1 w',
  wstep s w ok = Some (s1, w') -> w_file w < next s ->
  (forall f, In f (disk s) -> f < next s) -> forall f, In f (disk s1) -> f < next s.
Proof.
  intros s w ok s1 w' H Hf Hd f Hin. wstep_cases H; simpl in Hin; auto;
    try (apply Hd; eapply remove_file_sub; exact Hin).
  destruct Hin as [<-|Hin]; auto.
Qed.

Lemma wstep_wf : forall s w ok s1 w',
  wstep s w ok = Some (s1, w') -> in_session (w_pc w) = true ->
  state s <> StateIdle ->
  (cancelled s (stopCtx s) = true -> running (state s) = false) ->
  wf_worker s w -> in_session (w_pc w') = true -> wf_worker s1 w'.
Proof.
  intros s w ok s1 w' H Hin Hni Hc Hwf Hin'.
  unfold wf_worker in Hwf.
  wstep_cases H; unfold wf_worker, finish_ok, fail_with in *; simpl in *;
    rewrite ?Heqp in *; simpl in *; try discriminate; try exact I; auto.
  all: try (right; left; repeat split; auto; discriminate).
  all: try (right; left; repeat split; auto; [discriminate|apply remove_file_not_in]).
  - right. apply State_eqb_true. assumption.
  - specialize (Hc eq_refl).
    destruct (state s); simpl in Hc; try discriminate; auto. congruence.
  - left. repeat split; [|apply remove_file_not_in].
    apply State_eqb_true. assumption.
  - destruct Hwf as [Hs|Hs]; [exact Hs|].
    rewrite Hs in *. simpl in *. discriminate.
Qed.


Lemma nth_error_snoc_cases : forall {A} (l : list A) x j a,
  nth_error (l ++ [x]) j = Some a ->
  nth_error l j = Some a \/ (j = List.length l /\ a = x).
Proof.
  intros A l x j a H. destruct (Nat.lt_ge_cases j (List.length l)) as [Hl|Hl].
  - left. rewrite nth_error_app1 in H by exact Hl. exact H.
  - right. rewrite nth_error_app2 in H by exact Hl.
    destruct (j - List.length l) eqn:E; simpl in H.
    + split; [lia|congruence].
    + destruct n; discriminate.
Qed.

Lemma nth_error_snoc_last : forall {A} (l : list A) x,
  nth_error (l ++ [x]) (List.length l) = Some x.
Proof. intros A l x. rewrite nth_error_app2 by lia. rewrite Nat.sub_diag. reflexivity. Qed.

Lemma idle_no_session : forall s j a,
  Inv s -> state s = StateIdle -> nth_error (workers s) j = Some a ->
  in_session (w_pc a) = false.
Proof. intros s j a HI Hs Hj. exact (proj1 (inv_idle s HI) Hs j a Hj). Qed.

Lemma session_not_idle : forall s j a,
  Inv s -> nth_error (workers s) j = Some a -> in_session (w_pc a) = true ->
  state s <> StateIdle.
Proof.
  intros s j a HI Hj Ha Hs. rewrite (idle_no_session s j a HI Hs Hj) in Ha. discriminate.
Qed.

Lemma running_has_session : forall s,
  Inv s -> running (state s) = true ->
  ~ (forall j a, nth_error (workers s) j = Some a -> in_session (w_pc a) = false).
Proof.
  intros s HI Hr Hall. apply (running_not_idle (state s) Hr).
  exact (proj2 (inv_idle s HI) Hall).
Qed.

Lemma Inv_New : forall td, Inv (New td).
Proof.
  intros td. constructor; simpl.
  - intros j k a b Hj. destruct j; discriminate.
  - split; [intros _ j a Hj; destruct j; discriminate|reflexivity].
  - intros j a Hj. destruct j; discriminate.
  - intros f [].
  - lia.
  - reflexivity.
  - discriminate.
  - intros j a Hj. destruct j; discriminate.
Qed.

Lemma generateTempWav_nonempty : forall td n, generateTempWav td n <> "".
Proof. intros td n. unfold generateTempWav. destruct td; discriminate. Qed.

Lemma Start_Inv : forall s, Inv s -> Inv (fst (Start s)).
Proof.
  intros s HI. unfold Start.
  destruct (negb (State_eqb (state s) StateIdle)) eqn:E; [exact HI|].
  apply negb_false_iff, State_eqb_true in E.
  pose proof (idle_no_session s) as Hout.
  constructor; simpl.
  - intros j k a b Hj Hk Ha Hb.
    apply nth_error_snoc_cases in Hj as [Hj|[-> ->]];
      [rewrite (Hout j a HI E Hj) in Ha; discriminate|].
    apply nth_error_snoc_cases in Hk as [Hk|[-> ->]];
      [rewrite (Hout k b HI E Hk) in Hb; discriminate|reflexivity].
  - split; [discriminate|]. intros H.
    specialize (H _ _ (nth_error_snoc_last (workers s) _)). discriminate.
  - intros j a Hj. apply nth_error_snoc_cases in Hj as [Hj|[-> ->]].
    + destruct (inv_path s HI j a Hj). split; [assumption|lia].
    + simpl. split; [reflexivity|lia].
  - intros f Hf. pose proof (inv_disk s HI f Hf). lia.
  - lia.
  - intros c Hc. apply (inv_fresh s HI). lia.
  - intros Hc. rewrite (inv_fresh s HI (next s)) in Hc by lia. discriminate.
  - intros j a Hj Ha. apply nth_error_snoc_cases in Hj as [Hj|[-> ->]].
    + rewrite (Hout j a HI E Hj) in Ha. discriminate.
    + unfold wf_worker. simpl. intros Hin. pose proof (inv_disk s HI _ Hin). lia.
Qed.

(** Stop and Cancel past their precondition. *)
Lemma end_request_Inv : forall s st cl,
  Inv s -> running (state s) = true -> running st = false -> st <> StateIdle ->
  Inv (add_caller cl (cancel_ctx (stopCtx s) (set_state s st))).
Proof.
  intros s st cl HI Hr Hst Hni. constructor; simpl.
  - exact (inv_unique s HI).
  - split; [intros H; congruence|]. intros H. exfalso.
    exact (running_has_session s HI Hr H).
  - exact (inv_path s HI).
  - exact (inv_disk s HI).
  - exact (inv_ctx s HI).
  - intros c Hc. pose proof (inv_ctx s HI).
    destruct (Nat.eqb_spec c (stopCtx s)); [lia|]. exact (inv_fresh s HI c Hc).
  - intros _. exact Hst.
  - intros j a Hj Ha. eapply wf_running_frame; [exact Hr|exact (inv_wf s HI j a Hj Ha)|reflexivity].
Qed.

Lemma toggle_Inv : forall s st,
  Inv s -> running (state s) = true -> running st = true -> Inv (set_state s st).
Proof.
  intros s st HI Hr Hst. constructor; simpl.
  - exact (inv_unique s HI).
  - split; [intros H; subst st; discriminate|]. intros H. exfalso.
    exact (running_has_session s HI Hr H).
  - exact (inv_path s HI).
  - exact (inv_disk s HI).
  - exact (inv_ctx s HI).
  - exact (inv_fresh s HI).
  - intros Hc. rewrite (inv_cancel s HI Hc) in Hr. discriminate.
  - intros j a Hj Ha. eapply wf_running_frame; [exact Hr|exact (inv_wf s HI j a Hj Ha)|reflexivity].
Qed.

Lemma worker_Inv : forall s i w ok s1 w',
  Inv s -> nth_error (workers s) i = Some w -> wstep s w ok = Some (s1, w') ->
  Inv (set_workers s1 (replace i w' (workers s1))).
Proof.
  intros s i w ok s1 w' HI Hi Hw.
  destruct (wstep_frame s w ok s1 w' Hw) as (Htd & _ & Hctx & Hcan & Hnext & Hws & _ & Hfile & Hpath).
  rewrite Hws.
  destruct (in_session (w_pc w)) eqn:Hin.
  - (* the session's worker *)
    assert (Hother : forall j b, nth_error (workers s) j = Some b ->
              in_session (w_pc b) = true -> j = i)
      by (intros j b Hj Hb; exact (inv_unique s HI j i b w Hj Hi Hb Hin)).
    assert (Hnew : forall j a, nth_error (replace i w' (workers s)) j = Some a ->
              in_session (w_pc a) = true -> j = i /\ a = w').
    { intros j a Hj Ha. apply nth_error_replace_cases in Hj as [[-> ->]|[Hne Hj]]; [auto|].
      exfalso. apply Hne. symmetry. exact (Hother j a Hj Ha). }
    pose proof (session_not_idle s i w HI Hi Hin) as Hni.
    destruct (wstep_inside s w ok s1 w' Hw Hin) as [[Hin' Hst]|[Hin' [Hst _]]];
    constructor; simpl.
    + intros j k a b Hj Hk Ha Hb.
      destruct (Hnew j a Hj Ha), (Hnew k b Hk Hb). congruence.
    + rewrite Hst. split; [intros H; contradiction|]. intros H.
      specialize (H i w' (nth_error_replace_eq i w' w _ Hi)). congruence.
    + intros j a Hj. rewrite Htd, Hnext.
      apply nth_error_replace_cases in Hj as [[<- ->]|[_ Hj]].
      * rewrite Hfile, Hpath. exact (inv_path s HI i w Hi).
      * exact (inv_path s HI j a Hj).
    + rewrite Hnext. eapply wstep_disk; [exact Hw|apply (inv_path s HI i w Hi)|apply (inv_disk s HI)].
    + rewrite Hctx, Hnext. exact (inv_ctx s HI).
    + rewrite Hcan, Hnext. exact (inv_fresh s HI).
    + rewrite Hcan, Hctx, Hst. exact (inv_cancel s HI).
    + intros j a Hj Ha. destruct (Hnew j a Hj Ha) as [-> ->].
      eapply wf_frame with (s := s1); [reflexivity|reflexivity|].
      eapply wstep_wf; [exact Hw|exact Hin|exact Hni|exact (inv_cancel s HI)
                       |exact (inv_wf s HI i w Hi Hin)|exact Hin'].
    + intros j k a b Hj Hk Ha Hb.
      destruct (Hnew j a Hj Ha) as [_ ->]. congruence.
    + rewrite Hst. split; [|reflexivity]. intros _ j a Hj.
      destruct (in_session (w_pc a)) eqn:Ha; [|reflexivity].
      destruct (Hnew j a Hj Ha) as [_ ->]. congruence.
    + intros j a Hj. rewrite Htd, Hnext.
      apply nth_error_replace_cases in Hj as [[<- ->]|[_ Hj]].
      * rewrite Hfile, Hpath. exact (inv_path s HI i w Hi).
      * exact (inv_path s HI j a Hj).
    + rewrite Hnext. eapply wstep_disk; [exact Hw|apply (inv_path s HI i w Hi)|apply (inv_disk s HI)].
    + rewrite Hctx, Hnext. exact (inv_ctx s HI).
    + rewrite Hcan, Hnext. exact (inv_fresh s HI).
    + rewrite Hst. reflexivity.
    + intros j a Hj Ha. destruct (Hnew j a Hj Ha) as [_ ->]. congruence.
  - (* a worker past [finish] *)
    destruct (wstep_outside s w ok s1 w' Hw Hin) as (Hst & Hd & Hin').
    assert (Hold : forall j a, nth_error (replace i w' (workers s)) j = Some a ->
              in_session (w_pc a) = true -> i <> j /\ nth_error (workers s) j = Some a).
    { intros j a Hj Ha. apply nth_error_replace_cases in Hj as [[-> ->]|H]; [congruence|exact H]. }
    constructor; simpl.
    + intros j k a b Hj Hk Ha Hb.
      destruct (Hold j a Hj Ha), (Hold k b Hk Hb).
      exact (inv_unique s HI j k a b ltac:(assumption) ltac:(assumption) Ha Hb).
    + rewrite Hst. split.
      * intros Hs j a Hj. destruct (in_session (w_pc a)) eqn:Ha; [|reflexivity].
        destruct (Hold j a Hj Ha). rewrite <- Ha. exact (idle_no_session s j a HI Hs ltac:(assumption)).
      * intros H. apply (proj2 (inv_idle s HI)). intros j a Hj.
        destruct (Nat.eq_dec i j) as [<-|Hne]; [congruence|].
        apply H with j. rewrite nth_error_replace_neq by exact Hne. exact Hj.
    + intros j a Hj. rewrite Htd, Hnext.
      apply nth_error_replace_cases in Hj as [[<- ->]|[_ Hj]].
      * rewrite Hfile, Hpath. exact (inv_path s HI i w Hi).
      * exact (inv_path s HI j a Hj).
    + rewrite Hd, Hnext. exact (inv_disk s HI).
    + rewrite Hctx, Hnext. exact (inv_ctx s HI).
    + rewrite Hcan, Hnext. exact (inv_fresh s HI).
    + rewrite Hcan, Hctx, Hst. exact (inv_cancel s HI).
    + intros j a Hj Ha. destruct (Hold j a Hj Ha) as [_ Hj'].
      eapply wf_frame with (s := s); [exact Hst|exact Hd|exact (inv_wf s HI j a Hj' Ha)].
Qed.

Lemma step_Inv : forall s e s', Inv s -> step s e = Some s' -> Inv s'.
Proof.
  intros s e s' HI H. destruct e; simpl in H.
  - injection H as <-. apply Start_Inv, HI.
  - injection H as <-. unfold Stop. destruct (running (state s)) eqn:Hr; simpl; [|exact HI].
    apply end_request_Inv; auto; discriminate.
  - injection H as <-. unfold Cancel. destruct (running (state s)) eqn:Hr; simpl; [|exact HI].
    apply end_request_Inv; auto; discriminate.
  - injection H as <-. unfold TogglePause. destruct (running (state s)) eqn:Hr; simpl; [|exact HI].
    destruct (State_eqb (state s) StatePaused); apply toggle_Inv; auto.
  - destruct (nth_error (workers s) i) as [w|] eqn:Hi; [|discriminate].
    destruct (wstep s w ok) as [[s1 w']|] eqn:Hw; [|discriminate].
    injection H as <-. exact (worker_Inv s i w ok s1 w' HI Hi Hw).
  - destruct (nth_error (callers s) i) as [[k ch [r|]]|]; try discriminate.
    destruct (buf s ch); [|discriminate]. injection H as <-.
    constructor; simpl; try exact (inv_unique s HI); try exact (inv_idle s HI);
      try exact (inv_path s HI); try exact (inv_disk s HI); try exact (inv_ctx s HI);
      try exact (inv_fresh s HI); try exact (inv_cancel s HI).
    intros j a Hj Ha. eapply wf_frame; [| |exact (inv_wf s HI j a Hj Ha)]; reflexivity.
Qed.

Lemma run_Inv : forall es s s', Inv s -> run s es = Some s' -> Inv s'.
Proof.
  induction es as [|e es IH]; intros s s' HI H; simpl in H.
  - congruence.
  - destruct (step s e) as [s1|] eqn:E; [|discriminate].
    exact (IH s1 s' (step_Inv s e s1 HI E) H).
Qed.

Lemma reachable_Inv : forall td s, reachable td s -> Inv s.
Proof. intros td s [es H]. exact (run_Inv es (New td) s (Inv_New td) H). Qed.

Lemma session_workers_cons : forall w l,
  session_workers (w :: l) = (if in_session (w_pc w) then 1 else 0) + session_workers l.
Proof. intros w l. unfold session_workers. simpl. destruct (in_session (w_pc w)); reflexivity. Qed.

Lemma session_workers_zero : forall l,
  session_workers l = 0 <->
  (forall j a, nth_error l j = Some a -> in_session (w_pc a) = false).
Proof.
  induction l as [|x l IH].
  - split; [intros _ j a H; destruct j; discriminate|reflexivity].
  - rewrite session_workers_cons. split.
    + intros H j a Hj. destruct (in_session (w_pc x)) eqn:Hx; [simpl in H; discriminate|].
      destruct j as [|j]; simpl in Hj; [congruence|]. exact (proj1 IH H j a Hj).
    + intros H. destruct (in_session (w_pc x)) eqn:Hx.
      * rewrite (H 0 x eq_refl) in Hx. discriminate.
      * simpl. apply IH. intros j a Hj. exact (H (S j) a Hj).
Qed.

Lemma session_workers_le1 : forall l,
  (forall j k a b, nth_error l j = Some a -> nth_error l k = Some b ->
     in_session (w_pc a) = true -> in_session (w_pc b) = true -> j = k) ->
  session_workers l <= 1.
Proof.
  induction l as [|x l IH]; intros H; [exact (le_0_n 1)|].
  rewrite session_workers_cons.
  assert (Hl : session_workers l <= 1)
    by (apply IH; intros j k a b Hj Hk Ha Hb; injection (H (S j) (S k) a b Hj Hk Ha Hb); auto).
  destruct (in_session (w_pc x)) eqn:Hx; [|simpl; exact Hl].
  assert (Hz : session_workers l = 0).
  { apply session_workers_zero. intros j a Hj.
    destruct (in_session (w_pc a)) eqn:Ha; [|reflexivity].
    discriminate (H 0 (S j) x a eq_refl Hj Hx Ha). }
  lia.
Qed.

Lemma session_workers_snoc : forall l w,
  session_workers (l ++ [w]) = session_workers l + (if in_session (w_pc w) then 1 else 0).
Proof.
  intros l w. unfold session_workers. rewrite filter_app, length_app.
  simpl. destruct (in_session (w_pc w)); reflexivity.
Qed.

Lemma step_tempDir : forall s e s', step s e = Some s' -> tempDir s' = tempDir s.
Proof.
  intros s e s' H. destruct e; simpl in H.
  - injection H as <-. unfold Start. destruct (negb _); reflexivity.
  - injection H as <-. unfold Stop. destruct (negb _); reflexivity.
  - injection H as <-. unfold Cancel. destruct (negb _); reflexivity.
  - injection H as <-. unfold TogglePause. destruct (negb _); [reflexivity|].
    destruct (State_eqb _ _); reflexivity.
  - destruct (nth_error (workers s) i) as [w|]; [|discriminate].
    destruct (wstep s w ok) as [[s1 w']|] eqn:Hw; [|discriminate].
    injection H as <-. simpl. exact (proj1 (wstep_frame s w ok s1 w' Hw)).
  - destruct (nth_error (callers s) i) as [[k ch [r|]]|]; try discriminate.
    destruct (buf s ch); [|discriminate]. injection H as <-. reflexivity.
Qed.

Lemma run_tempDir : forall es s s', run s es = Some s' -> tempDir s' = tempDir s.
Proof.
  induction es as [|e es IH]; intros s s' H; simpl in H; [congruence|].
  destruct (step s e) as [s1|] eqn:E; [|discriminate].
  rewrite (IH s1 s' H). exact (step_tempDir s e s1 E).
Qed.

Lemma reachable_tempDir : forall td s, reachable td s -> tempDir s = td.
Proof. intros td s [es H]. exact (run_tempDir es (New td) s H). Qed.

Lemma wstep_progress : forall s w ok, in_session (w_pc w) = true -> wstep s w ok <> None.
Proof.
  intros s w ok H. unfold wstep. destruct (w_pc w); simpl in H; try discriminate;
    repeat match goal with |- context [if ?b then _ else _] => destruct b end;
    discriminate.
Qed.

Lemma exists_session : forall l,
  ~ (forall j a, nth_error l j = Some a -> in_session (w_pc a) = false) ->
  exists j a, nth_error l j = Some a /\ in_session (w_pc a) = true.
Proof.
  intros l H. destruct (existsb (fun a => in_session (w_pc a)) l) eqn:E.
  - apply existsb_exists in E as [a [Ha Hs]].
    apply In_nth_error in Ha as [j Hj]. exists j, a. auto.
  - exfalso. apply H. intros j a Hj.
    destruct (in_session (w_pc a)) eqn:Ha; [|reflexivity].
    assert (existsb (fun a => in_session (w_pc a)) l = true)
      by (apply existsb_exists; exists a; split; [eapply nth_error_In; exact Hj|exact Ha]).
    congruence.
Qed.

(** ** C1 *)

(** C1 (corrected): in every reachable state at most one [recordLoop]
    goroutine is in its session (from its start up to the reset in
    [finish]), and there is one exactly when the state is not Idle; Start
    succeeds only from Idle, where it sets Recording and brings the count
    of in-session workers to one, and is otherwise refused with no change. *)
Theorem Record_at_most_one_session : forall td s, reachable td s ->
  session_workers (workers s) <= 1 /\
  (state s = StateIdle <-> session_workers (workers s) = 0) /\
  (state s = StateIdle ->
     snd (Start s) = None /\ state (fst (Start s)) = StateRecording /\
     session_workers (workers (fst (Start s))) = 1) /\
  (state s <> StateIdle -> Start s = (s, Some "recorder not idle")).
Proof.
  intros td s Hr. pose proof (reachable_Inv td s Hr) as HI.
  split; [exact (session_workers_le1 _ (inv_unique s HI))|].
  split; [rewrite session_workers_zero; exact (inv_idle s HI)|].
  split.
  - intros Hs. unfold Start. rewrite Hs. simpl.
    split; [reflexivity|]. split; [reflexivity|].
    rewrite session_workers_snoc. simpl.
    rewrite (proj2 (session_workers_zero _) (proj1 (inv_idle s HI) Hs)). reflexivity.
  - intros Hs. unfold Start. destruct (state s); simpl; try reflexivity. congruence.
Qed.

Lemma Record_at_most_one_session_witness :
  reachable tdir (after stop_session) /\
  session_workers (workers (after stop_session)) <= 1 /\
  (state (after stop_session) = StateIdle <-> session_workers (workers (after stop_session)) = 0) /\
  (state (after stop_session) = StateIdle ->
     snd (Start (after stop_session)) = None /\
     state (fst (Start (after stop_session))) = StateRecording /\
     session_workers (workers (fst (Start (after stop_session)))) = 1) /\
  (state (after stop_session) <> StateIdle ->
     Start (after stop_session) = (after stop_session, Some "recorder not idle")).
Proof.
  assert (H : reachable tdir (after stop_session)) by (exists stop_session; vm_compute; reflexivity).
  split; [exact H|]. apply (Record_at_most_one_session tdir). exact H.
Defined.

(** C1 as stated fails: after a Stop session, the worker has reset the
    state and delivered its result but not yet run its deferred
    [portaudio.Terminate] when the next Start spawns a second worker,
    which initialises PortAudio: two [recordLoop] goroutines are alive. *)
Lemma Record_previous_worker_alive_at_restart :
  option_map (fun s => (map (fun w => (w_pc w, w_pa w)) (workers s),
                        live_workers (workers s), state s))
    (run (New tdir) restart)
  = Some ([(PTerminate, true); (POpen, true)], 2, StateRecording).
Proof. vm_compute. reflexivity. Qed.

(** ** C2 *)

(** C2: outside their preconditions Start, Stop, Cancel and TogglePause
    return their error and the recorder unchanged (no field written, no
    goroutine started, no context cancelled, no caller left waiting). *)
Theorem Record_requests_outside_precondition :
  (forall s, state s <> StateIdle ->
     Start s = (s, Some "recorder not idle") /\ step s EStart = Some s) /\
  (forall s, state s <> StateRecording -> state s <> StatePaused ->
     Stop s = (s, Some "recorder not running") /\
     Cancel s = (s, Some "recorder not running") /\
     TogglePause s = (s, Some "recorder not running") /\
     step s EStop = Some s /\ step s ECancel = Some s /\ step s EToggle = Some s).
Proof.
  split.
  - intros s Hs. unfold step, Start.
    destruct (state s); simpl; try (split; reflexivity). congruence.
  - intros s H1 H2. unfold step, Stop, Cancel, TogglePause.
    destruct (state s); simpl; try congruence; repeat split.
Qed.

Lemma Record_requests_outside_precondition_witness :
  let s0 := set_state (New tdir) StateStopping in
  (state s0 <> StateIdle /\
   Start s0 = (s0, Some "recorder not idle") /\ step s0 EStart = Some s0) /\
  (state s0 <> StateRecording /\ state s0 <> StatePaused /\
   Stop s0 = (s0, Some "recorder not running") /\
   Cancel s0 = (s0, Some "recorder not running") /\
   TogglePause s0 = (s0, Some "recorder not running") /\
   step s0 EStop = Some s0 /\ step s0 ECancel = Some s0 /\ step s0 EToggle = Some s0).
Proof.
  intros s0. split.
  - split; [discriminate|]. apply (proj1 Record_requests_outside_precondition). discriminate.
  - split; [discriminate|]. split; [discriminate|].
    apply (proj2 Record_requests_outside_precondition); discriminate.
Defined.

(** ** C3 *)

Lemma wstep_finish_err : forall s w ok s' w' res',
  wstep s w ok = Some (s', w') -> w_pc w' = PFinish res' ->
  Err res' = if ok then None else io_error (w_pc w).
Proof.
  intros s w ok s' w' res' H Hp. destruct ok;
  wstep_cases H; simpl in Hp; try discriminate Hp; injection Hp as <-;
    reflexivity.
Qed.

(** C3 (corrected): the Result a worker hands to [finish].  Its path is
    the worker's temporary file name.  Under Stop it is not canceled and
    carries that path; it has an error exactly when an I/O error ended the
    worker, the file is then gone, and otherwise it is the plain Result
    with the path.  Under Cancel the file is not on disk, and the Result
    is either the canceled one with an empty path and no error, or, when a
    set-up, write or close error ended the worker first, a non-canceled
    Result with the path and the error.  While the recorder is still
    running only such an error Result is possible.  Whatever the state,
    the step that reaches [finish] sets the error exactly when the call it
    made failed: the set-up calls, the encoder write or the encoder close,
    each with its own error. *)
Theorem Record_finish_result_by_outcome : forall td s j w res,
  reachable td s -> nth_error (workers s) j = Some w -> w_pc w = PFinish res ->
  w_wavPath w = generateTempWav td (w_file w) /\ state s <> StateIdle /\
  (state s = StateStopping -> Canceled res = false /\ WavPath res = w_wavPath w /\
     (Err res <> None -> ~ In (w_file w) (disk s)) /\
     (Err res = None -> res = MkResult (w_wavPath w) false None)) /\
  (state s = StateCanceled -> ~ In (w_file w) (disk s) /\
     (res = MkResult "" true None \/
      (Canceled res = false /\ WavPath res = w_wavPath w /\ Err res <> None))) /\
  (running (state s) = true -> Canceled res = false /\ WavPath res = w_wavPath w /\
     Err res <> None /\ ~ In (w_file w) (disk s)) /\
  (forall s0 w0 ok s1 w1 res1, wstep s0 w0 ok = Some (s1, w1) -> w_pc w1 = PFinish res1 ->
     Err res1 = if ok then None else io_error (w_pc w0)).
Proof.
  intros td s j w res Hr Hj Hp. pose proof (reachable_Inv td s Hr) as HI.
  assert (Hin : in_session (w_pc w) = true) by (rewrite Hp; reflexivity).
  pose proof (inv_wf s HI j w Hj Hin) as Hwf. unfold wf_worker, finish_ok in Hwf.
  rewrite Hp in Hwf.
  split; [rewrite <- (reachable_tempDir td s Hr); exact (proj1 (inv_path s HI j w Hj))|].
  split; [exact (session_not_idle s j w HI Hj Hin)|].
  assert (Hstep := wstep_finish_err).
  destruct Hwf as [[-> [Hs Hd]]|[[Hres [He Hd]]|[-> Hs]]].
  - rewrite Hs. repeat split; try discriminate; auto.
  - rewrite Hres. simpl. repeat split; auto; try contradiction.
  - rewrite Hs. repeat split; try discriminate; auto.
Qed.

Lemma Record_finish_result_by_outcome_witness :
  let s := after [EStart; ECancel; EWorker 0 false] in
  let w := worker_at s 0 in
  let res := MkResult (generateTempWav tdir 1) false (Some "portaudio init failed") in
  reachable tdir s /\ nth_error (workers s) 0 = Some w /\ w_pc w = PFinish res /\
  (w_wavPath w = generateTempWav tdir (w_file w) /\ state s <> StateIdle /\
  (state s = StateStopping -> Canceled res = false /\ WavPath res = w_wavPath w /\
     (Err res <> None -> ~ In (w_file w) (disk s)) /\
     (Err res = None -> res = MkResult (w_wavPath w) false None)) /\
  (state s = StateCanceled -> ~ In (w_file w) (disk s) /\
     (res = MkResult "" true None \/
      (Canceled res = false /\ WavPath res = w_wavPath w /\ Err res <> None))) /\
  (running (state s) = true -> Canceled res = false /\ WavPath res = w_wavPath w /\
     Err res <> None /\ ~ In (w_file w) (disk s)) /\
  (forall s0 w0 ok s1 w1 res1, wstep s0 w0 ok = Some (s1, w1) -> w_pc w1 = PFinish res1 ->
     Err res1 = if ok then None else io_error (w_pc w0))).
Proof.
  intros s w res.
  assert (Hr : reachable tdir s) by (exists [EStart; ECancel; EWorker 0 false]; vm_compute; reflexivity).
  assert (Hj : nth_error (workers s) 0 = Some w) by (vm_compute; reflexivity).
  assert (Hp : w_pc w = PFinish res) by (vm_compute; reflexivity).
  split; [exact Hr|]. split; [exact Hj|]. split; [exact Hp|].
  exact (Record_finish_result_by_outcome tdir s 0 w res Hr Hj Hp).
Defined.

(** C3 as stated fails: Cancel issued while [portaudio.Initialize] fails;
    the Cancel caller receives a non-canceled Result carrying the path
    and the error. *)
Lemma Record_cancel_receives_init_failure :
  option_map callers (run (New tdir) cancel_after_init_failure)
  = Some [MkCaller ByCancel 1
            (Some (MkResult (generateTempWav tdir 1) false (Some "portaudio init failed")))].
Proof. vm_compute. reflexivity. Qed.

(** ** C4 *)

(** C4 (corrected): a failed encoder write closes the encoder, the file
    and the stream, removes the temporary file and finishes with the
    error, leaving the state to [finish]; PortAudio stays initialised
    until the deferred [portaudio.Terminate] after the Result is sent.
    A failed device read only goes back to the top of the loop: nothing is
    closed or removed and the session goes on. *)
Theorem Record_stream_failures : forall s w,
  (w_pc w = PWrite -> exists s' w', wstep s w false = Some (s', w') /\
     w_pc w' = PFinish (MkResult (w_wavPath w) false (Some "wav write failed")) /\
     ~ In (w_file w) (disk s') /\ state s' = state s /\
     w_stream w' = false /\ w_started w' = false /\ w_fileOpen w' = false /\
     w_enc w' = false /\ w_pa w' = w_pa w) /\
  (w_pc w = PRead -> wstep s w false = Some (s, with_pc w PCheckCanceled)) /\
  (w_pc w = PTerminate -> forall ok, exists w', wstep s w ok = Some (s, w') /\
     w_pc w' = PExited /\ w_pa w' = false).
Proof.
  intros s w. unfold wstep. split; [|split].
  - intros Hp. rewrite Hp. eexists _, _. split; [reflexivity|].
    simpl. repeat split; try reflexivity. apply remove_file_not_in.
  - intros Hp. rewrite Hp. reflexivity.
  - intros Hp ok. rewrite Hp. eexists. split; [reflexivity|]. split; reflexivity.
Qed.

Lemma Record_stream_failures_witness :
  let s := set_disk (after [EStart]) [1] in
  let w := MkWorker PWrite 1 (generateTempWav tdir 1) true true true true true 3 in
  let r := with_pc w PRead in
  let t := with_pc w PTerminate in
  (w_pc w = PWrite /\ exists s' w', wstep s w false = Some (s', w') /\
     w_pc w' = PFinish (MkResult (w_wavPath w) false (Some "wav write failed")) /\
     ~ In (w_file w) (disk s') /\ state s' = state s /\
     w_stream w' = false /\ w_started w' = false /\ w_fileOpen w' = false /\
     w_enc w' = false /\ w_pa w' = w_pa w) /\
  (w_pc r = PRead /\ wstep s r false = Some (s, with_pc r PCheckCanceled)) /\
  (w_pc t = PTerminate /\ exists w', wstep s t true = Some (s, w') /\
     w_pc w' = PExited /\ w_pa w' = false).
Proof.
  intros s w r t. split; [|split].
  - split; [reflexivity|]. apply (proj1 (Record_stream_failures s w)). reflexivity.
  - split; [reflexivity|]. apply (proj1 (proj2 (Record_stream_failures s r))). reflexivity.
  - split; [reflexivity|]. apply (proj2 (proj2 (Record_stream_failures s t))). reflexivity.
Defined.

(** C4 as stated fails: a failed [stream.Read] leaves the worker at the
    top of its loop with the file still on disk and the session
    Recording. *)
Lemma Record_read_failure_keeps_session :
  option_map (fun s => (state s, disk s, map w_pc (workers s)))
    (run (New tdir) read_failure)
  = Some (StateRecording, [1], [PCheckCanceled]).
Proof. vm_compute. reflexivity. Qed.

(** ** C8 *)

(** C8: a worker leaves its session only through [finish], which sets
    the state to Idle, and only after that step does it send its Result;
    results are sent only by workers past [finish]; and in every
    reachable non-Idle state there is a worker in its session that is
    never blocked, so no state other than Idle can be stuck. *)
Theorem Record_finish_resets_idle :
  (forall s w ok s' w', wstep s w ok = Some (s', w') ->
     in_session (w_pc w) = true -> in_session (w_pc w') = false ->
     state s' = StateIdle /\
     exists res, w_pc w = PFinish res /\ w_pc w' = PSend res /\ buf s' = buf s) /\
  (forall s w ok s' w' c, wstep s w ok = Some (s', w') -> buf s' c <> buf s c ->
     in_session (w_pc w) = false /\ exists res, w_pc w = PSend res /\ buf s' c = Some res) /\
  (forall td s, reachable td s -> state s <> StateIdle ->
     exists j w, nth_error (workers s) j = Some w /\ in_session (w_pc w) = true /\
       forall ok, wstep s w ok <> None).
Proof.
  split; [|split].
  - intros s w ok s' w' Hw Hin Hout.
    destruct (wstep_inside s w ok s' w' Hw Hin) as [[H _]|[_ [Hs [res [H1 [H2 [H3 _]]]]]]].
    + congruence.
    + split; [exact Hs|]. exists res. auto.
  - intros s w ok s' w' c Hw Hb. wstep_cases Hw; simpl in *; try congruence.
    split; [reflexivity|]. exists res. split; [reflexivity|].
    destruct (Nat.eqb_spec c (done s)) as [->|]; [reflexivity|congruence].
  - intros td s Hr Hs. pose proof (reachable_Inv td s Hr) as HI.
    destruct (exists_session (workers s)) as [j [w [Hj Hw]]].
    + intros H. exact (Hs (proj2 (inv_idle s HI) H)).
    + exists j, w. split; [exact Hj|]. split; [exact Hw|].
      intros ok. exact (wstep_progress s w ok Hw).
Qed.

Lemma Record_finish_resets_idle_witness :
  let s := set_state (after [EStart]) StateStopping in
  let res := MkResult (generateTempWav tdir 1) false None in
  let w := MkWorker (PFinish res) 1 (generateTempWav tdir 1) true false false false false 2 in
  let s' := set_state s StateIdle in
  let w' := with_pc w (PSend res) in
  let s2 := set_buf s' (fun c => if Nat.eqb c (done s') then Some res else buf s' c) in
  (wstep s w true = Some (s', w') /\ in_session (w_pc w) = true /\ in_session (w_pc w') = false /\
   state s' = StateIdle /\
   exists res, w_pc w = PFinish res /\ w_pc w' = PSend res /\ buf s' = buf s) /\
  (wstep s' w' true = Some (s2, with_pc w' PTerminate) /\ buf s2 1 <> buf s' 1 /\
   in_session (w_pc w') = false /\ exists r, w_pc w' = PSend r /\ buf s2 1 = Some r) /\
  (reachable tdir (after [EStart]) /\ state (after [EStart]) <> StateIdle /\
   exists j w, nth_error (workers (after [EStart])) j = Some w /\ in_session (w_pc w) = true /\
     forall ok, wstep (after [EStart]) w ok <> None).
Proof.
  intros s res w s' w' s2.
  assert (H1 : wstep s w true = Some (s', w')) by reflexivity.
  assert (H2 : wstep s' w' true = Some (s2, with_pc w' PTerminate)) by reflexivity.
  assert (H3 : buf s2 1 <> buf s' 1) by (vm_compute; discriminate).
  assert (H4 : reachable tdir (after [EStart])) by (exists [EStart]; vm_compute; reflexivity).
  assert (H5 : state (after [EStart]) <> StateIdle) by (vm_compute; discriminate).
  split; [|split].
  - split; [exact H1|]. split; [reflexivity|]. split; [reflexivity|].
    apply (proj1 Record_finish_resets_idle s w true s' w' H1); reflexivity.
  - split; [exact H2|]. split; [exact H3|].
    exact (proj1 (proj2 Record_finish_resets_idle) s' w' true s2 _ 1 H2 H3).
  - split; [exact H4|]. split; [exact H5|].
    exact (proj2 (proj2 Record_finish_resets_idle) tdir _ H4 H5).
Defined.

End RecordFacts.

Module HotkeyExtra.
Import GoStrings Hotkey HotkeySpec HotkeyFacts ExtraSpec.

Lemma Split_not_nil_map : forall s, map normalize (Split s "+"%char) <> [].
Proof. intros s E. apply map_eq_nil in E. exact (Split_not_nil _ _ E). Qed.

(** Apart from the error text, parseHotkey depends only on the normalised
    '+'-separated tokens of a non-empty input. *)
Lemma parseHotkey_view_mod_key : forall s1 s2,
  s1 <> "" -> s2 <> "" ->
  mod_and_key (map normalize (Split s1 "+"%char))
  = mod_and_key (map normalize (Split s2 "+"%char)) ->
  hk_view (parseHotkey s1) = hk_view (parseHotkey s2).
Proof.
  intros [|c1 r1] [|c2 r2] H1 H2 E; try contradiction.
  rewrite !parseHotkey_nonempty, E.
  destruct (mod_and_key (map normalize (Split (String c2 r2) "+"%char))) as [md k].
  destruct (resolve_key_msg (String c1 r1) (String c2 r2) md k) as [Ha [Hb Hc]].
  unfold hk_view. rewrite Ha, Hb, Hc. reflexivity.
Qed.

Lemma parseHotkey_with_view_mod_key : forall norm s1 s2,
  s1 <> "" -> s2 <> "" ->
  mod_and_key (map norm (Split s1 "+"%char))
  = mod_and_key (map norm (Split s2 "+"%char)) ->
  hk_view (parseHotkey_with norm s1) = hk_view (parseHotkey_with norm s2).
Proof.
  intros norm [|c1 r1] [|c2 r2] H1 H2 E; try contradiction.
  rewrite !parseHotkey_with_nonempty, E.
  destruct (mod_and_key (map norm (Split (String c2 r2) "+"%char))) as [md k].
  destruct (resolve_key_msg (String c1 r1) (String c2 r2) md k) as [Ha [Hb Hc]].
  unfold hk_view. rewrite Ha, Hb, Hc. reflexivity.
Qed.

Lemma parseHotkey_view_tokens : forall s1 s2,
  s1 <> "" -> s2 <> "" ->
  map normalize (Split s1 "+"%char) = map normalize (Split s2 "+"%char) ->
  hk_view (parseHotkey s1) = hk_view (parseHotkey s2).
Proof. intros s1 s2 H1 H2 E. apply parseHotkey_view_mod_key; [exact H1|exact H2|rewrite E; reflexivity]. Qed.

Lemma upper_plus : forall c, Ascii.eqb (ascii_upper c) "+"%char = Ascii.eqb c "+"%char.
Proof. intros [[] [] [] [] [] [] [] []]; reflexivity. Qed.

Lemma lower_plus : forall c, Ascii.eqb (ascii_lower c) "+"%char = Ascii.eqb c "+"%char.
Proof. intros [[] [] [] [] [] [] [] []]; reflexivity. Qed.

Lemma lower_upper : forall c, ascii_lower (ascii_upper c) = ascii_lower c.
Proof. intros [[] [] [] [] [] [] [] []]; reflexivity. Qed.

Lemma lower_lower : forall c, ascii_lower (ascii_lower c) = ascii_lower c.
Proof. intros [[] [] [] [] [] [] [] []]; reflexivity. Qed.

Lemma Split_ToUpper : forall s,
  Split (ToUpper s) "+"%char = map ToUpper (Split s "+"%char).
Proof.
  induction s as [|c s IH]; [reflexivity|]. simpl. rewrite upper_plus, IH.
  destruct (Ascii.eqb c "+"%char); [reflexivity|].
  destruct (Split s "+"%char); reflexivity.
Qed.

Lemma Split_ToLower : forall s,
  Split (ToLower s) "+"%char = map ToLower (Split s "+"%char).
Proof.
  induction s as [|c s IH]; [reflexivity|]. simpl. rewrite lower_plus, IH.
  destruct (Ascii.eqb c "+"%char); [reflexivity|].
  destruct (Split s "+"%char); reflexivity.
Qed.

Lemma normalize_ToUpper : forall p, normalize (ToUpper p) = normalize p.
Proof.
  intros p. unfold normalize. f_equal.
  induction p as [|c p IH]; [reflexivity|]. simpl. rewrite lower_upper, IH. reflexivity.
Qed.

Lemma normalize_ToLower : forall p, normalize (ToLower p) = normalize p.
Proof.
  intros p. unfold normalize. f_equal.
  induction p as [|c p IH]; [reflexivity|]. simpl. rewrite lower_lower, IH. reflexivity.
Qed.

(** strings.Join(ts, "+") splits back into [ts]. *)
Lemma Split_join_plus : forall ts,
  ts <> [] -> forallb no_plus ts = true -> Split (join_plus ts) "+"%char = ts.
Proof.
  induction ts as [|t ts IH]; intros Hne Hp; [contradiction|].
  simpl in Hp. apply andb_true_iff in Hp. destruct Hp as [Ht Hts].
  destruct ts as [|t' ts'].
  - simpl. apply Split_no_plus. exact Ht.
  - change (join_plus (t :: t' :: ts')) with (t ++ String "+"%char (join_plus (t' :: ts'))).
    rewrite Split_app_sep, (Split_no_plus t Ht), IH by (discriminate || exact Hts).
    reflexivity.
Qed.














Lemma join_plus_nonempty : forall ts,
  join_plus ts <> "" -> ts <> [].
Proof. intros [|t ts] H; [contradiction|discriminate]. Qed.


Lemma resolve_key_empty_token : forall s md,
  hk_view (resolve_key s md "") = (0%Z, 0%Z, false).
Proof. intros s md. reflexivity. Qed.

(** Modifier mask as a disjunction of the bits of the tokens. *)
Definition mod_bit (p : string) : Z :=
  match modifier_case p with Some b => b | None => 0%Z end.

Lemma modifier_loop_lor : forall ps md,
  modifier_loop ps md = Z.lor md (fold_right (fun p acc => Z.lor (mod_bit p) acc) 0%Z ps).
Proof.
  induction ps as [|p ps IH]; intros md; simpl; [rewrite Z.lor_0_r; reflexivity|].
  rewrite IH. unfold mod_bit. destruct (modifier_case p) as [b|].
  - rewrite Z.lor_assoc. reflexivity.
  - rewrite Z.lor_0_l. reflexivity.
Qed.

Lemma testbit_mask : forall ps n,
  Z.testbit (fold_right (fun p acc => Z.lor (mod_bit p) acc) 0%Z ps) n
  = existsb (fun p => Z.testbit (mod_bit p) n) ps.
Proof.
  induction ps as [|p ps IH]; intros n; simpl.
  - apply Z.testbit_0_l.
  - rewrite Z.lor_spec, IH. reflexivity.
Qed.

Lemma existsb_same_set : forall {A} (f : A -> bool) l1 l2,
  (forall x, In x l1 <-> In x l2) -> existsb f l1 = existsb f l2.
Proof.
  intros A f l1 l2 H.
  destruct (existsb f l1) eqn:E1, (existsb f l2) eqn:E2; try reflexivity.
  - apply existsb_exists in E1. destruct E1 as [x [Hx Hf]].
    assert (existsb f l2 = true) by (apply existsb_exists; exists x; split; [apply H|]; assumption).
    congruence.
  - apply existsb_exists in E2. destruct E2 as [x [Hx Hf]].
    assert (existsb f l1 = true) by (apply existsb_exists; exists x; split; [apply H|]; assumption).
    congruence.
Qed.

Lemma modifier_loop_same_set : forall P1 P2,
  (forall p, In p P1 <-> In p P2) -> modifier_loop P1 0%Z = modifier_loop P2 0%Z.
Proof.
  intros P1 P2 H. rewrite !modifier_loop_lor. apply Z.bits_inj'. intros n _.
  rewrite !Z.lor_spec, !testbit_mask. f_equal. apply existsb_same_set. exact H.
Qed.

Lemma mod_and_key_snoc : forall P k,
  P <> [] -> mod_and_key (P ++ [k])%list = (modifier_loop P 0%Z, k).
Proof.
  intros P k H. rewrite mod_and_key_multi.
  - rewrite removelast_last, last_last. reflexivity.
  - rewrite length_app. destruct P; [contradiction|simpl; lia].
Qed.

(** Failures of [resolve_key]. *)
Lemma resolve_key_fail : forall s md t,
  ok (resolve_key s md t) = false ->
  resolve_key s md t = HkRet 0 0 (Some ("unsupported key token: " ++ s)).
Proof.
  intros s md t H. unfold resolve_key in *.
  repeat match goal with
         | |- context [match ?x with _ => _ end] =>
             lazymatch x with
             | context [s] => fail
             | _ => destruct x
             end
         | |- context [if ?x then _ else _] => destruct x
         end; simpl in H; try discriminate H; reflexivity.
Qed.

Lemma digits_value_nonneg : forall d acc v,
  (0 <= acc)%Z -> digits_value d acc = Some v -> (0 <= v)%Z.
Proof.
  induction d as [|c d IH]; intros acc v Ha H; cbn [digits_value] in H.
  - injection H as <-. exact Ha.
  - destruct (Nat.leb 48 (nat_of_ascii c) && Nat.leb (nat_of_ascii c) 57); [|discriminate].
    eapply IH; [|exact H]; lia.
Qed.

Lemma digits_value_head : forall c d acc v,
  digits_value (String c d) acc = Some v ->
  Nat.leb 48 (nat_of_ascii c) && Nat.leb (nat_of_ascii c) 57 = true.
Proof.
  intros c d acc v H. cbn [digits_value] in H.
  destruct (Nat.leb 48 (nat_of_ascii c) && Nat.leb (nat_of_ascii c) 57); [reflexivity|discriminate].
Qed.

Lemma digit_facts : forall c,
  Nat.leb 48 (nat_of_ascii c) && Nat.leb (nat_of_ascii c) 57 = true ->
  ascii_lower c = c /\ isSpace c = false /\ Ascii.eqb c "+"%char = false
  /\ Ascii.eqb c "-"%char = false.
Proof. intros [[] [] [] [] [] [] [] []] H; try discriminate; repeat split. Qed.

Lemma digits_facts : forall d acc v,
  digits_value d acc = Some v ->
  ToLower d = d /\ no_plus d = true /\ forallb (fun c => negb (isSpace c)) (list_ascii_of_string d) = true.
Proof.
  induction d as [|c d IH]; intros acc v H; [repeat split|].
  pose proof (digits_value_head _ _ _ _ H) as Hc.
  destruct (digit_facts c Hc) as [H1 [H2 [H3 _]]].
  cbn [digits_value] in H. rewrite Hc in H. destruct (IH _ _ H) as [E1 [E2 E3]].
  simpl. rewrite H1, E1, H2. unfold no_plus in *. simpl. rewrite H3. simpl.
  repeat split; assumption.
Qed.

Lemma dropSpaces_nonspace : forall c l, isSpace c = false -> dropSpaces (c :: l) = c :: l.
Proof. intros c l H. simpl. rewrite H. reflexivity. Qed.

Lemma TrimSpace_f_digits : forall d,
  d <> "" -> forallb (fun c => negb (isSpace c)) (list_ascii_of_string d) = true ->
  TrimSpace (String "f" d) = String "f" d.
Proof.
  intros d Hd Hs. unfold TrimSpace. simpl list_ascii_of_string.
  rewrite dropSpaces_nonspace by reflexivity.
  remember (list_ascii_of_string d) as D.
  destruct D as [|x D'] using rev_ind.
  - destruct d; [contradiction|discriminate].
  - rewrite forallb_app in Hs. simpl in Hs. apply andb_true_iff in Hs.
    destruct Hs as [_ Hx]. rewrite andb_true_r in Hx. apply negb_true_iff in Hx.
    assert (Hr : rev ("f"%char :: (D' ++ [x]))%list = (x :: rev ("f"%char :: D'))%list).
    { change ("f"%char :: (D' ++ [x]))%list with (("f"%char :: D') ++ [x])%list.
      rewrite rev_app_distr. reflexivity. }
    rewrite Hr, dropSpaces_nonspace by exact Hx.
    change (rev (x :: rev ("f"%char :: D'))) with (rev (rev ("f"%char :: D')) ++ [x])%list.
    rewrite rev_involutive.
    change (("f"%char :: D') ++ [x])%list with ("f"%char :: (D' ++ [x]))%list.
    rewrite HeqD. simpl. rewrite string_of_list_ascii_of_string. reflexivity.
Qed.

Lemma str_length_app : forall a b,
  String.length (a ++ b) = String.length a + String.length b.
Proof. induction a as [|c a IH]; intros b; simpl; [reflexivity|]. rewrite IH. reflexivity. Qed.

Lemma join_plus_cons : forall a l,
  l <> [] -> join_plus (a :: l) = a ++ String "+"%char (join_plus l).
Proof. intros a [|b l] H; [contradiction|reflexivity]. Qed.

Lemma app_plus_nonempty : forall a b, a ++ String "+"%char b <> "".
Proof. intros [|c a] b; discriminate. Qed.

Lemma ToUpper_nonempty : forall s, s <> "" -> ToUpper s <> "".
Proof. intros [|c s] H; [contradiction|discriminate]. Qed.

Lemma ToLower_nonempty : forall s, s <> "" -> ToLower s <> "".
Proof. intros [|c s] H; [contradiction|discriminate]. Qed.


(** X1: on ASCII input, the case of the letters does not matter:
    upper-casing or lower-casing the whole spec gives the same modifier
    mask, the same key code, and the same success or failure. *)
Theorem parseHotkey_case_insensitive : forall s,
  is_ascii s = true ->
  hk_view (parseHotkey (ToUpper s)) = hk_view (parseHotkey s) /\
  hk_view (parseHotkey (ToLower s)) = hk_view (parseHotkey s).
Proof.
  intros [|c r] _; [split; reflexivity|].
  split; apply parseHotkey_view_tokens; try discriminate.
  - rewrite Split_ToUpper, map_map. apply map_ext. apply normalize_ToUpper.
  - rewrite Split_ToLower, map_map. apply map_ext. apply normalize_ToLower.
Qed.

Lemma parseHotkey_case_insensitive_witness :
  is_ascii "Ctrl+q" = true /\
  (hk_view (parseHotkey (ToUpper "Ctrl+q")) = hk_view (parseHotkey "Ctrl+q") /\
   hk_view (parseHotkey (ToLower "Ctrl+q")) = hk_view (parseHotkey "Ctrl+q")).
Proof.
  split; [vm_compute; reflexivity|].
  apply parseHotkey_case_insensitive. vm_compute. reflexivity.
Defined.



(** X3: the modifier tokens before the key token act as a set: two specs
    with the same key token whose cleaned-up modifier tokens are the same
    set, in any order and with any repetitions, give the same modifier
    mask, key code and success.  This holds whatever the clean-up [norm]
    of the parts is, so in particular for Go's Unicode
    [strings.TrimSpace(strings.ToLower(.))]. *)
Theorem parseHotkey_modifiers_as_set : forall norm pre1 pre2 k,
  forallb no_plus (pre1 ++ [k]) = true ->
  forallb no_plus (pre2 ++ [k]) = true ->
  (forall p, In p (map norm pre1) <-> In p (map norm pre2)) ->
  hk_view (parseHotkey_with norm (join_plus (pre1 ++ [k])))
  = hk_view (parseHotkey_with norm (join_plus (pre2 ++ [k]))).
Proof.
  intros norm pre1 pre2 k H1 H2 Hset.
  destruct pre1 as [|a1 p1]; destruct pre2 as [|a2 p2].
  - reflexivity.
  - exfalso. apply (proj2 (Hset (norm a2))). left. reflexivity.
  - exfalso. apply (proj1 (Hset (norm a1))). left. reflexivity.
  - assert (Hne : forall a p, join_plus ((a :: p) ++ [k]) <> "").
    { intros a p. simpl app. rewrite join_plus_cons by (destruct p; discriminate).
      apply app_plus_nonempty. }
    apply parseHotkey_with_view_mod_key; try apply Hne.
    rewrite !Split_join_plus by (exact H1 || exact H2 || (destruct p1; discriminate)
                                  || (destruct p2; discriminate)).
    rewrite !map_app. simpl map at 2 4.
    rewrite !mod_and_key_snoc by discriminate.
    rewrite (modifier_loop_same_set _ _ Hset). reflexivity.
Qed.

Lemma parseHotkey_modifiers_as_set_witness :
  (forallb no_plus (["ctrl"; "alt"] ++ ["q"]) = true /\
   forallb no_plus (["Alt"; "ctrl"; "alt "] ++ ["q"]) = true /\
   (forall p, In p (map normalize ["ctrl"; "alt"]) <-> In p (map normalize ["Alt"; "ctrl"; "alt "]))) /\
  hk_view (parseHotkey_with normalize (join_plus (["ctrl"; "alt"] ++ ["q"])))
  = hk_view (parseHotkey_with normalize (join_plus (["Alt"; "ctrl"; "alt "] ++ ["q"]))).
Proof.
  assert (Hset : forall p, In p (map normalize ["ctrl"; "alt"]) <->
                           In p (map normalize ["Alt"; "ctrl"; "alt "])).
  { intros p. vm_compute. split; intros H; tauto. }
  split; [split; [vm_compute; reflexivity|split; [vm_compute; reflexivity|exact Hset]]|].
  apply (parseHotkey_modifiers_as_set normalize);
    [vm_compute; reflexivity|vm_compute; reflexivity|exact Hset].
Defined.

(** X4: when parseHotkey fails it returns a zero modifier mask and a zero
    key code, and its error is "empty key" for the empty spec and
    "unsupported key token: " followed by the whole spec otherwise. *)
Theorem parseHotkey_failure_result : forall s,
  ok (parseHotkey s) = false ->
  parseHotkey s = HkRet 0 0 (Some (if String.eqb s "" then "empty key"
                                   else "unsupported key token: " ++ s)).
Proof.
  intros [|c r] H; [reflexivity|].
  rewrite parseHotkey_nonempty in H |- *.
  destruct (mod_and_key (map normalize (Split (String c r) "+"%char))) as [md k].
  rewrite resolve_key_fail by exact H. reflexivity.
Qed.

Lemma parseHotkey_failure_result_witness :
  ok (parseHotkey "ctrl+qq") = false /\
  parseHotkey "ctrl+qq" = HkRet 0 0 (Some (if String.eqb "ctrl+qq" "" then "empty key"
                                           else "unsupported key token: " ++ "ctrl+qq")).
Proof.
  split; [vm_compute; reflexivity|].
  apply parseHotkey_failure_result. vm_compute. reflexivity.
Defined.

(** X5: "f" followed by decimal digits whose value [v] is between 1 and 24
    (leading zeros allowed, so "f07" is F7) is the function key VK_F1 +
    v - 1 (0x6F + v) with no modifier; any other value is rejected with
    the unsupported-key error. *)
Theorem parseHotkey_function_key_digits : forall d v,
  d <> "" -> digits_value d 0 = Some v ->
  parseHotkey (String "f" d)
  = if ((1 <=? v) && (v <=? 24))%Z then HkRet 0 (111 + v) None
    else HkRet 0 0 (Some ("unsupported key token: " ++ String "f" d)).
Proof.
  intros d v Hd Hv.
  destruct (digits_facts _ _ _ Hv) as [Hlow [Hplus Hsp]].
  destruct d as [|c r]; [contradiction|].
  pose proof (digits_value_head _ _ _ _ Hv) as Hc.
  destruct (digit_facts c Hc) as [_ [_ [Hcp Hcm]]].
  assert (Hv0 : (0 <= v)%Z) by (eapply digits_value_nonneg; [|exact Hv]; lia).
  rewrite parseHotkey_nonempty.
  rewrite Split_no_plus by (unfold no_plus in *; simpl; exact Hplus).
  assert (Hn : normalize (String "f" (String c r)) = String "f" (String c r)).
  { unfold normalize. change (ToLower (String "f" (String c r)))
      with (String (ascii_lower "f") (ToLower (String c r))).
    rewrite Hlow. apply TrimSpace_f_digits; [discriminate|exact Hsp]. }
  simpl map. rewrite Hn. cbn [mod_and_key].
  assert (Hpre : HasPrefix (String "f" (String c r)) "f" = true) by reflexivity.
  assert (Htrim : TrimPrefix (String "f" (String c r)) "f" = String c r).
  { unfold TrimPrefix. rewrite Hpre. simpl. f_equal. apply substring_all. lia. }
  assert (Hatoi : Atoi (String c r)
                  = if ((- 2 ^ 63) <=? v)%Z && (v <=? 2 ^ 63 - 1)%Z then Some v else None).
  { rewrite Atoi_signed. unfold signed_decimal. rewrite Hcp, Hcm. unfold unsigned_decimal.
    rewrite Hv. reflexivity. }
  assert (Hfk : fkey_case (String "f" (String c r))
                = if ((1 <=? v) && (v <=? 24))%Z then Some (111 + v)%Z else None).
  { unfold fkey_case. rewrite Hpre, Htrim, Hatoi.
    destruct ((1 <=? v) && (v <=? 24))%Z eqn:R.
    - apply andb_true_iff in R. destruct R as [R1 R2]. apply Z.leb_le in R1, R2.
      replace (((- 2 ^ 63) <=? v)%Z && (v <=? 2 ^ 63 - 1)%Z) with true
        by (symmetry; apply andb_true_iff; split; apply Z.leb_le; lia).
      rewrite (proj2 (Z.leb_le 1 v) R1), (proj2 (Z.leb_le v 24) R2).
      cbn [andb]. f_equal. lia.
    - destruct (((- 2 ^ 63) <=? v)%Z && (v <=? 2 ^ 63 - 1)%Z); [rewrite R|]; reflexivity. }
  unfold resolve_key. rewrite Hfk.
  change (single_case (String "f" (String c r))) with (@None Z). cbv iota beta.
  change (str_in (String "f" (String c r)) ["esc"; "escape"]) with false.
  change (str_in (String "f" (String c r)) ["space"]) with false.
  change (str_in (String "f" (String c r)) ["enter"; "return"]) with false.
  cbv iota beta.
  destruct ((1 <=? v) && (v <=? 24))%Z; [reflexivity|].
  change (numpad_case (String "f" (String c r))) with (@None Z).
  change (lookup_named (String "f" (String c r)) named) with (@None Z).
  reflexivity.
Qed.

Lemma parseHotkey_function_key_digits_witness :
  ("07" <> "" /\ digits_value "07" 0 = Some 7%Z) /\
  parseHotkey (String "f" "07")
  = if ((1 <=? 7) && (7 <=? 24))%Z then HkRet 0 (111 + 7) None
    else HkRet 0 0 (Some ("unsupported key token: " ++ String "f" "07")).
Proof.
  split; [split; [discriminate|reflexivity]|].
  apply parseHotkey_function_key_digits; [discriminate|reflexivity].
Defined.

End HotkeyExtra.

Module HookExtra.
Import Hotkey Hook HookScenario HotkeySetup ExtraSpec.

Lemma lookup_all_add : forall k vk c m,
  lookup_all k (add_candidate vk c m)
  = if (k =? vk)%Z then (lookup_all k m ++ [c])%list else lookup_all k m.
Proof.
  intros k vk c m. unfold lookup_all.
  destruct (k =? vk)%Z eqn:E.
  - apply Z.eqb_eq in E. subst k.
    induction m as [|[k' cs] m IH]; simpl; [rewrite Z.eqb_refl; reflexivity|].
    destruct (k' =? vk)%Z eqn:E1; simpl; rewrite E1; [reflexivity|exact IH].
  - induction m as [|[k' cs] m IH]; simpl; [rewrite Z.eqb_sym, E; reflexivity|].
    destruct (k' =? vk)%Z eqn:E1; simpl.
    + apply Z.eqb_eq in E1. subst k'. rewrite Z.eqb_sym, E. reflexivity.
    + destruct (k' =? k)%Z; [reflexivity|exact IH].
Qed.

Lemma build_lookup_ok : forall specs m lk,
  build_lookup specs m = inl lk ->
  (forall k, lookup_all k lk = (lookup_all k m ++ cands_for k specs)%list) /\
  forallb (fun p => ok (parseHotkey (snd p))) specs = true.
Proof.
  induction specs as [|[id spec] specs IH]; intros m lk H; simpl in H.
  - injection H as <-. split; [intros k; rewrite app_nil_r; reflexivity|reflexivity].
  - destruct (hk_err (parseHotkey spec)) as [err|] eqn:Ee; [discriminate|].
    destruct (IH _ _ H) as [Hk Hok]. split.
    + intros k. rewrite Hk, lookup_all_add. simpl.
      destruct (hk_vk (parseHotkey spec) =? k)%Z eqn:E1.
      * apply Z.eqb_eq in E1. subst k. rewrite Z.eqb_refl, <- app_assoc. reflexivity.
      * rewrite Z.eqb_sym, E1. reflexivity.
    + simpl. unfold ok at 1. rewrite Ee. exact Hok.
Qed.

Lemma build_lookup_first_error : forall pre id spec post m e,
  forallb (fun p => ok (parseHotkey (snd p))) pre = true ->
  hk_err (parseHotkey spec) = Some e ->
  build_lookup (pre ++ (id, spec) :: post) m = inr (invalid_hotkey spec e).
Proof.
  induction pre as [|[i s] pre IH]; intros id spec post m e Hpre He; simpl.
  - rewrite He. reflexivity.
  - simpl in Hpre. apply andb_true_iff in Hpre. destruct Hpre as [Hs Hpre].
    unfold ok in Hs. destruct (hk_err (parseHotkey s)); [discriminate|].
    apply IH; assumption.
Qed.

Lemma parse_defs_first_error : forall pre id spec post e,
  forallb (fun p => ok (parseHotkey (snd p))) pre = true ->
  hk_err (parseHotkey spec) = Some e ->
  parse_defs (pre ++ (id, spec) :: post) = inr (invalid_hotkey spec e).
Proof.
  induction pre as [|[i s] pre IH]; intros id spec post e Hpre He; simpl.
  - rewrite He. reflexivity.
  - simpl in Hpre. apply andb_true_iff in Hpre. destruct Hpre as [Hs Hpre].
    unfold ok in Hs. destruct (hk_err (parseHotkey s)); [discriminate|].
    rewrite (IH _ _ _ _ Hpre He). reflexivity.
Qed.

Lemma parse_defs_ids : forall specs defs,
  parse_defs specs = inl defs -> map d_id defs = map fst specs.
Proof.
  induction specs as [|[id spec] specs IH]; intros defs H; simpl in H.
  - injection H as <-. reflexivity.
  - destruct (hk_err (parseHotkey spec)); [discriminate|].
    destruct (parse_defs specs) as [ds|e] eqn:E; [|discriminate].
    injection H as <-. simpl. rewrite (IH ds eq_refl). reflexivity.
Qed.

Lemma first_satisfied_some : forall ks cs c,
  first_satisfied ks cs = Some c -> In c cs /\ modsSatisfied ks (c_mod c) = true.
Proof.
  induction cs as [|c' cs IH]; intros c H; simpl in H; [discriminate|].
  destruct (modsSatisfied ks (c_mod c')) eqn:E.
  - injection H as <-. split; [left; reflexivity|exact E].
  - destruct (IH c H) as [H1 H2]. split; [right; exact H1|exact H2].
Qed.

Lemma first_satisfied_app : forall ks A B,
  first_satisfied ks (A ++ B)%list
  = match first_satisfied ks A with Some c => Some c | None => first_satisfied ks B end.
Proof.
  induction A as [|a A IH]; intros B; simpl; [reflexivity|].
  destruct (modsSatisfied ks (c_mod a)); [reflexivity|apply IH].
Qed.

Lemma cands_for_app : forall vk l1 l2,
  cands_for vk (l1 ++ l2) = (cands_for vk l1 ++ cands_for vk l2)%list.
Proof.
  induction l1 as [|[id s] l1 IH]; intros l2; simpl; [reflexivity|].
  rewrite IH, app_assoc. reflexivity.
Qed.

Lemma cands_for_in : forall vk specs c,
  In c (cands_for vk specs) ->
  exists spec, In (c_id c, spec) specs /\ hk_vk (parseHotkey spec) = vk
               /\ hk_mod (parseHotkey spec) = c_mod c.
Proof.
  induction specs as [|[id s] specs IH]; intros c H; simpl in H; [contradiction|].
  apply in_app_or in H. destruct H as [H|H].
  - destruct (hk_vk (parseHotkey s) =? vk)%Z eqn:E; [|contradiction].
    destruct H as [<-|[]]. apply Z.eqb_eq in E.
    exists s. split; [left; reflexivity|split; [exact E|reflexivity]].
  - destruct (IH c H) as [spec [H1 H2]]. exists spec. split; [right; exact H1|exact H2].
Qed.

Lemma cands_for_id : forall vk specs c, In c (cands_for vk specs) -> In (c_id c) (map fst specs).
Proof.
  intros vk specs c H. destruct (cands_for_in _ _ _ H) as [spec [Hin _]].
  apply (in_map fst) in Hin. exact Hin.
Qed.

Lemma callback_dispatch : forall lk sw e v sw' id,
  callback lk sw e = (v, sw', Some id) ->
  (0 <=? ev_nCode e)%Z = true /\ injected e = false /\ is_keydown (ev_msg e) = true /\
  v = Swallow /\
  exists c, first_satisfied (ev_keystate e) (lookup_all (ev_vk e) lk) = Some c /\ c_id c = id.
Proof.
  intros lk sw e v sw' id H. unfold callback in H.
  destruct (ev_nCode e <? 0)%Z eqn:En; [discriminate|].
  destruct (negb (Z.land (ev_flags e) LLKHF_INJECTED =? 0))%Z eqn:Ei; [discriminate|].
  unfold is_keydown, injected, lookup_all.
  rewrite Ei. apply Z.ltb_ge in En. apply Z.leb_le in En. rewrite En.
  destruct ((ev_msg e =? WM_KEYDOWN) || (ev_msg e =? WM_SYSKEYDOWN))%Z.
  - destruct (lookup (ev_vk e) lk) as [cands|].
    + destruct (first_satisfied (ev_keystate e) cands) as [c|] eqn:Ef.
      * injection H as <- _ <-. repeat split. exists c. split; [reflexivity|reflexivity].
      * destruct (_ && mem _ _); discriminate.
    + destruct (_ && mem _ _); discriminate.
  - destruct (_ && mem _ _); discriminate.
Qed.

Definition has_bit (r b : Z) : bool := negb (Z.land r b =? 0)%Z.

Lemma modsSatisfied_bits : forall ks r,
  modsSatisfied ks r =
  (r =? 0)%Z ||
  (implb (has_bit r 2) (pressed ks VK_CONTROL) && implb (has_bit r 1) (pressed ks VK_MENU)
   && implb (has_bit r 4) (pressed ks VK_SHIFT)
   && implb (has_bit r 8) (pressed ks VK_LWIN || pressed ks VK_RWIN)).
Proof.
  intros ks r. unfold modsSatisfied, has_bit. destruct (r =? 0)%Z; [reflexivity|].
  destruct (negb (Z.land r 2 =? 0))%Z, (pressed ks VK_CONTROL),
    (negb (Z.land r 1 =? 0))%Z, (pressed ks VK_MENU),
    (negb (Z.land r 4 =? 0))%Z, (pressed ks VK_SHIFT),
    (negb (Z.land r 8 =? 0))%Z, (pressed ks VK_LWIN), (pressed ks VK_RWIN); reflexivity.
Qed.

Lemma has_bit_sub : forall m1 m2 b,
  Z.land m1 m2 = m1 -> has_bit m1 b = true -> has_bit m2 b = true.
Proof.
  intros m1 m2 b Hs H. unfold has_bit in *.
  destruct (Z.land m2 b =? 0)%Z eqn:E; [|reflexivity].
  apply Z.eqb_eq in E. rewrite <- Hs, <- Z.land_assoc, E, Z.land_0_r in H. discriminate.
Qed.

Lemma implb_sub : forall a b x, (a = true -> b = true) -> implb b x = true -> implb a x = true.
Proof. intros [] [] [] H1 H2; try reflexivity; try discriminate; specialize (H1 eq_refl); discriminate. Qed.

(** A binding whose required modifiers include those of another is
    satisfied only when the other one is. *)
Lemma modsSatisfied_sub : forall ks m1 m2,
  Z.land m1 m2 = m1 -> modsSatisfied ks m2 = true -> modsSatisfied ks m1 = true.
Proof.
  intros ks m1 m2 Hs H. rewrite modsSatisfied_bits in *.
  destruct (m1 =? 0)%Z eqn:E1; [reflexivity|]. simpl.
  destruct (m2 =? 0)%Z eqn:E2.
  - apply Z.eqb_eq in E2. subst m2. rewrite Z.land_0_r in Hs. subst m1. discriminate.
  - simpl in H. repeat rewrite andb_true_iff in H |- *.
    destruct H as [[[Ha Hb] Hc] Hd].
    repeat split; eapply implb_sub; try eassumption; apply has_bit_sub; exact Hs.
Qed.

Lemma callback_swallowed : forall lk sw e,
  let '(_, sw', _) := callback lk sw e in
  sw' = sw \/ sw' = delete (ev_vk e) sw \/
  (sw' = set_true (ev_vk e) sw /\ lookup (ev_vk e) lk <> None).
Proof.
  intros lk sw e. unfold callback.
  destruct (ev_nCode e <? 0)%Z; [left; reflexivity|].
  destruct (negb (Z.land (ev_flags e) LLKHF_INJECTED =? 0))%Z; [left; reflexivity|].
  destruct ((ev_msg e =? WM_KEYDOWN) || (ev_msg e =? WM_SYSKEYDOWN))%Z.
  - destruct (lookup (ev_vk e) lk) as [cands|] eqn:El.
    + destruct (first_satisfied (ev_keystate e) cands).
      * right; right. split; [reflexivity|congruence].
      * destruct (_ && mem _ _); [right; left|left]; reflexivity.
    + destruct (_ && mem _ _); [right; left|left]; reflexivity.
  - destruct (_ && mem _ _); [right; left|left]; reflexivity.
Qed.

Lemma set_true_in : forall k vk sw, In k (set_true vk sw) -> k = vk \/ In k sw.
Proof.
  intros k vk sw. unfold set_true. destruct (mem vk sw); [right; exact H|].
  intros [H|H]; [left; symmetry; exact H|right; exact H].
Qed.

Lemma set_true_nodup : forall vk sw, NoDup sw -> NoDup (set_true vk sw).
Proof.
  intros vk sw H. unfold set_true. destruct (mem vk sw) eqn:E; [exact H|].
  constructor; [|exact H]. intros Hin.
  assert (mem vk sw = true) by (apply existsb_exists; exists vk; split; [exact Hin|apply Z.eqb_refl]).
  congruence.
Qed.

Lemma delete_in : forall k vk sw, In k (delete vk sw) -> In k sw.
Proof. intros k vk sw H. unfold delete in H. apply filter_In in H. apply H. Qed.

Lemma delete_nodup : forall vk sw, NoDup sw -> NoDup (delete vk sw).
Proof. intros vk sw H. unfold delete. apply NoDup_filter. exact H. Qed.

(** X6: with distinct ids, when an earlier binding has the same key as a
    later one and requires a subset of its modifiers, the callback never
    dispatches the later binding's id. *)
Theorem hook_shadowed_binding : forall specs lk pre i1 s1 mid i2 s2 post m1 m2 vk sw e,
  specs = (pre ++ (i1, s1) :: mid ++ (i2, s2) :: post)%list ->
  NoDup (map fst specs) ->
  build_lookup specs [] = inl lk ->
  parseHotkey s1 = HkRet m1 vk None ->
  parseHotkey s2 = HkRet m2 vk None ->
  Z.land m1 m2 = m1 ->
  snd (callback lk sw e) <> Some i2.
Proof.
  intros specs lk pre i1 s1 mid i2 s2 post m1 m2 vk sw e Hs Hnd Hb H1 H2 Hsub Hcb.
  destruct (callback lk sw e) as [[v sw'] oid] eqn:Ec. simpl in Hcb. subst oid.
  destruct (callback_dispatch _ _ _ _ _ _ Ec) as [_ [_ [_ [_ [c [Hf Hid]]]]]].
  destruct (build_lookup_ok _ _ _ Hb) as [Hk _].
  rewrite Hk in Hf. cbn [lookup_all lookup app] in Hf. subst specs.
  assert (Hnin : forall p, In p (pre ++ (i1, s1) :: mid ++ post)%list -> fst p <> i2).
  { intros p Hp Heq.
    replace (pre ++ (i1, s1) :: mid ++ (i2, s2) :: post)%list
      with ((pre ++ (i1, s1) :: mid) ++ (i2, s2) :: post)%list in Hnd
      by (rewrite <- app_assoc; reflexivity).
    rewrite map_app in Hnd.
    change (map fst ((i2, s2) :: post)) with (i2 :: map fst post) in Hnd.
    apply NoDup_remove_2 in Hnd. apply Hnd. rewrite <- map_app, <- Heq. apply in_map.
    rewrite <- app_assoc. exact Hp. }
  assert (Hpre : forall c', In c' (cands_for (ev_vk e) pre) -> c_id c' <> i2).
  { intros c' Hin. destruct (cands_for_in _ _ _ Hin) as [sp [Hsp _]].
    apply (Hnin _ (in_or_app _ _ _ (or_introl Hsp))). }
  assert (Hmid : forall c', In c' (cands_for (ev_vk e) mid) -> c_id c' <> i2).
  { intros c' Hin. destruct (cands_for_in _ _ _ Hin) as [sp [Hsp _]].
    apply (Hnin (c_id c', sp)). apply in_or_app. right. right. apply in_or_app. left. exact Hsp. }
  assert (Hpost : forall c', In c' (cands_for (ev_vk e) post) -> c_id c' <> i2).
  { intros c' Hin. destruct (cands_for_in _ _ _ Hin) as [sp [Hsp _]].
    apply (Hnin (c_id c', sp)). apply in_or_app. right. right. apply in_or_app. right. exact Hsp. }
  assert (Hi1 : i1 <> i2).
  { apply (Hnin (i1, s1)). apply in_or_app. right. left. reflexivity. }
  rewrite cands_for_app in Hf. cbn [cands_for] in Hf. rewrite cands_for_app in Hf.
  cbn [cands_for] in Hf. rewrite H1, H2 in Hf. cbn [hk_vk hk_mod] in Hf.
  rewrite !first_satisfied_app in Hf.
  destruct (first_satisfied (ev_keystate e) (cands_for (ev_vk e) pre)) as [c'|] eqn:Ep.
  - injection Hf as ->. apply first_satisfied_some in Ep. exact (Hpre c (proj1 Ep) Hid).
  - destruct (vk =? ev_vk e)%Z eqn:Ev.
    + apply Z.eqb_eq in Ev. cbn [app first_satisfied c_mod] in Hf.
      destruct (modsSatisfied (ev_keystate e) m1) eqn:Em1.
      * injection Hf as <-. exact (Hi1 Hid).
      * destruct (first_satisfied (ev_keystate e) (cands_for (ev_vk e) mid)) as [c'|] eqn:Em.
        -- injection Hf as ->. apply first_satisfied_some in Em. exact (Hmid c (proj1 Em) Hid).
        -- cbn [app first_satisfied c_mod] in Hf.
           destruct (modsSatisfied (ev_keystate e) m2) eqn:Em2.
           ++ rewrite (modsSatisfied_sub _ _ _ Hsub Em2) in Em1. discriminate.
           ++ apply first_satisfied_some in Hf. exact (Hpost c (proj1 Hf) Hid).
    + cbn [app first_satisfied] in Hf.
      destruct (first_satisfied (ev_keystate e) (cands_for (ev_vk e) mid)) as [c'|] eqn:Em.
      * injection Hf as ->. apply first_satisfied_some in Em. exact (Hmid c (proj1 Em) Hid).
      * cbn [app] in Hf. apply first_satisfied_some in Hf. exact (Hpost c (proj1 Hf) Hid).
Qed.

Lemma hook_shadowed_binding_witness :
  build_lookup (hotkey_specs "q" "ctrl+q" "esc") []
  = inl [(81%Z, [Candidate 1 0; Candidate 2 2]); (27%Z, [Candidate 3 0])] /\
  snd (callback [(81%Z, [Candidate 1 0; Candidate 2 2]); (27%Z, [Candidate 3 0])] []
         (key_event WM_KEYDOWN 81 0)) <> Some 2%Z.
Proof.
  split; [vm_compute; reflexivity|].
  apply (hook_shadowed_binding (hotkey_specs "q" "ctrl+q" "esc")
           [(81%Z, [Candidate 1 0; Candidate 2 2]); (27%Z, [Candidate 3 0])] [] 1 "q" [] 2 "ctrl+q"
           [(3%Z, "esc")] 0 2 81); vm_compute; try reflexivity.
  constructor; [simpl; lia|]. constructor; [simpl; lia|]. constructor; [simpl; lia|].
  constructor.
Defined.

Lemma ok_parse : forall spec,
  ok (parseHotkey spec) = true -> parseHotkey spec = HkRet (hk_mod (parseHotkey spec))
                                                     (hk_vk (parseHotkey spec)) None.
Proof.
  intros spec H. unfold ok in H. destruct (parseHotkey spec) as [m v [e|]]; [discriminate|].
  reflexivity.
Qed.

(** X7: every command id the installed callback hands to the handler is
    the id of a binding whose spec parses to the key of the event, whose
    modifiers are held, and the event is a non-injected key-down with
    [nCode >= 0], which is swallowed. *)
Theorem hook_dispatch_provenance : forall specs lk sw e v sw' id,
  build_lookup specs [] = inl lk ->
  callback lk sw e = (v, sw', Some id) ->
  v = Swallow /\ (0 <= ev_nCode e)%Z /\ injected e = false /\ is_keydown (ev_msg e) = true /\
  exists spec m, In (id, spec) specs /\ parseHotkey spec = HkRet m (ev_vk e) None /\
                 modsSatisfied (ev_keystate e) m = true.
Proof.
  intros specs lk sw e v sw' id Hb Hc.
  destruct (callback_dispatch _ _ _ _ _ _ Hc) as [Hn [Hi [Hd [Hv [c [Hf Hid]]]]]].
  destruct (build_lookup_ok _ _ _ Hb) as [Hk Hok].
  rewrite Hk in Hf. cbn [lookup_all lookup app] in Hf.
  destruct (first_satisfied_some _ _ _ Hf) as [Hin Hm].
  destruct (cands_for_in _ _ _ Hin) as [spec [Hsp [Hvk Hmod]]].
  apply Z.leb_le in Hn.
  split; [exact Hv|split; [exact Hn|split; [exact Hi|split; [exact Hd|]]]].
  exists spec, (c_mod c). rewrite <- Hid.
  split; [exact Hsp|split; [|exact Hm]].
  rewrite forallb_forall in Hok. pose proof (Hok _ Hsp) as Hs. simpl in Hs.
  rewrite (ok_parse _ Hs), Hvk, Hmod. reflexivity.
Qed.

Lemma hook_dispatch_provenance_witness :
  (build_lookup (hotkey_specs "ctrl+q" "f5" "esc") []
   = inl [(81%Z, [Candidate 1 2]); (116%Z, [Candidate 2 0]); (27%Z, [Candidate 3 0])] /\
   callback [(81%Z, [Candidate 1 2]); (116%Z, [Candidate 2 0]); (27%Z, [Candidate 3 0])] []
     (key_event WM_KEYDOWN 81 0) = (Swallow, [81%Z], Some 1%Z)) /\
  (Swallow = Swallow /\ (0 <= ev_nCode (key_event WM_KEYDOWN 81 0))%Z /\
   injected (key_event WM_KEYDOWN 81 0) = false /\
   is_keydown (ev_msg (key_event WM_KEYDOWN 81 0)) = true /\
   exists spec m, In (1%Z, spec) (hotkey_specs "ctrl+q" "f5" "esc") /\
     parseHotkey spec = HkRet m (ev_vk (key_event WM_KEYDOWN 81 0)) None /\
     modsSatisfied (ev_keystate (key_event WM_KEYDOWN 81 0)) m = true).
Proof.
  split; [split; vm_compute; reflexivity|].
  apply (hook_dispatch_provenance (hotkey_specs "ctrl+q" "f5" "esc")
           [(81%Z, [Candidate 1 2]); (116%Z, [Candidate 2 0]); (27%Z, [Candidate 3 0])] []
           (key_event WM_KEYDOWN 81 0) Swallow [81%Z]); vm_compute; reflexivity.
Defined.

(** X8: over any sequence of events, the [swallowed] map only holds key
    codes that have candidates in the lookup map, each at most once,
    provided it starts so (it starts empty). *)
Theorem hook_swallowed_bound : forall lk es sw,
  NoDup sw -> (forall k, In k sw -> lookup k lk <> None) ->
  NoDup (snd (run lk sw es)) /\ (forall k, In k (snd (run lk sw es)) -> lookup k lk <> None).
Proof.
  intros lk es. induction es as [|e es IH]; intros sw Hnd Hb; [split; assumption|].
  pose proof (callback_swallowed lk sw e) as Hc.
  simpl. destruct (callback lk sw e) as [[v sw'] o].
  destruct (run lk sw' es) as [vs swf] eqn:Er. simpl.
  assert (Hsw' : NoDup sw' /\ forall k, In k sw' -> lookup k lk <> None).
  { destruct Hc as [->|[->|[-> Hl]]].
    - split; assumption.
    - split; [apply delete_nodup; exact Hnd|]. intros k Hk. apply Hb. eapply delete_in. exact Hk.
    - split; [apply set_true_nodup; exact Hnd|]. intros k Hk.
      destruct (set_true_in _ _ _ Hk) as [->|Hk']; [exact Hl|apply Hb; exact Hk']. }
  destruct Hsw' as [H1 H2]. specialize (IH sw' H1 H2). rewrite Er in IH. exact IH.
Qed.

Lemma hook_swallowed_bound_witness :
  (NoDup (@nil Z) /\ (forall k, In k (@nil Z) -> lookup k ctrl_v_lookup <> None)) /\
  (NoDup (snd (run ctrl_v_lookup [] [key_event WM_KEYDOWN 86 0; key_event WM_KEYDOWN 86 0])) /\
   (forall k, In k (snd (run ctrl_v_lookup [] [key_event WM_KEYDOWN 86 0; key_event WM_KEYDOWN 86 0]))
              -> lookup k ctrl_v_lookup <> None)).
Proof.
  assert (H0 : NoDup (@nil Z)) by constructor.
  assert (H1 : forall k, In k (@nil Z) -> lookup k ctrl_v_lookup <> None) by (intros k []).
  split; [split; assumption|].
  apply hook_swallowed_bound; assumption.
Defined.

(** X9: when one of the start, pause and cancel specs is rejected by
    parseHotkey and those before it are accepted, the goroutine of either
    mode sends "invalid hotkey '<spec>': <error>" for it before any hotkey
    is registered or any hook installed.  Register returns that error,
    unless the 2-second timer wins the select, in which case it returns
    the timeout error of its mode; either way nothing is registered and no
    hook is installed. *)
Theorem Register_reports_first_invalid :
  forall sk pk ck hook hook_ok register_ok in_time reg pre id spec post e,
  hotkey_specs sk pk ck = (pre ++ (id, spec) :: post)%list ->
  forallb (fun p => ok (parseHotkey (snd p))) pre = true ->
  hk_err (parseHotkey spec) = Some e ->
  registerHotkeys_goroutine sk pk ck register_ok reg = (reg, Some (invalid_hotkey spec e)) /\
  startLowLevelHook_goroutine sk pk ck hook_ok = (None, Some (invalid_hotkey spec e)) /\
  Register sk pk ck hook hook_ok register_ok in_time reg
  = Some (if in_time then invalid_hotkey spec e
          else if hook then "timeout installing low-level hook"
          else "timeout registering hotkeys") /\
  fst (registerHotkeys sk pk ck register_ok in_time reg) = reg /\
  fst (startLowLevelHook sk pk ck hook_ok in_time) = None.
Proof.
  intros sk pk ck hook hook_ok register_ok in_time reg pre id spec post e Hs Hpre He.
  assert (H1 : registerHotkeys_goroutine sk pk ck register_ok reg
               = (reg, Some (invalid_hotkey spec e))).
  { unfold registerHotkeys_goroutine. rewrite Hs, (parse_defs_first_error _ _ _ _ _ Hpre He).
    reflexivity. }
  assert (H2 : startLowLevelHook_goroutine sk pk ck hook_ok = (None, Some (invalid_hotkey spec e))).
  { unfold startLowLevelHook_goroutine. rewrite Hs, (build_lookup_first_error _ _ _ _ _ _ Hpre He).
    reflexivity. }
  split; [exact H1|]. split; [exact H2|].
  unfold Register, registerHotkeys, startLowLevelHook. rewrite H1, H2.
  split; [|split; reflexivity].
  destruct hook, in_time; reflexivity.
Qed.

Lemma Register_reports_first_invalid_witness :
  (hotkey_specs "ctrl+q" "ctrl+" "esc" = ([(1%Z, "ctrl+q")] ++ (2%Z, "ctrl+") :: [(3%Z, "esc")])%list /\
   forallb (fun p => ok (parseHotkey (snd p))) [(1%Z, "ctrl+q")] = true /\
   hk_err (parseHotkey "ctrl+") = Some "unsupported key token: ctrl+") /\
  (registerHotkeys_goroutine "ctrl+q" "ctrl+" "esc" (fun _ => true) []
   = ([], Some (invalid_hotkey "ctrl+" "unsupported key token: ctrl+")) /\
   startLowLevelHook_goroutine "ctrl+q" "ctrl+" "esc" true
   = (None, Some (invalid_hotkey "ctrl+" "unsupported key token: ctrl+")) /\
   Register "ctrl+q" "ctrl+" "esc" true true (fun _ => true) false []
   = Some (if false then invalid_hotkey "ctrl+" "unsupported key token: ctrl+"
           else if true then "timeout installing low-level hook"
           else "timeout registering hotkeys") /\
   fst (registerHotkeys "ctrl+q" "ctrl+" "esc" (fun _ => true) false []) = [] /\
   fst (startLowLevelHook "ctrl+q" "ctrl+" "esc" true false) = None).
Proof.
  split; [repeat split; vm_compute; reflexivity|].
  exact (Register_reports_first_invalid "ctrl+q" "ctrl+" "esc" true true (fun _ => true) false []
           [(1%Z, "ctrl+q")] 2 "ctrl+" [(3%Z, "esc")] "unsupported key token: ctrl+"
           eq_refl eq_refl eq_refl).
Defined.

Lemma unregister_in : forall x id reg, In x (unregister id reg) <-> In x reg /\ x <> id.
Proof.
  intros x id reg. unfold unregister. rewrite filter_In.
  split; intros [H1 H2]; split; try exact H1.
  - intros ->. rewrite Z.eqb_refl in H2. discriminate.
  - apply negb_true_iff, Z.eqb_neq. exact H2.
Qed.

Lemma unregister_before_in : forall done d rest reg x,
  ~ In (d_id d) (map d_id done) ->
  In x (unregister_before (done ++ d :: rest) (d_id d) reg)
  <-> In x reg /\ ~ In x (map d_id done).
Proof.
  induction done as [|od done IH]; intros d rest reg x Hn; simpl.
  - rewrite Z.eqb_refl. tauto.
  - simpl in Hn. destruct (d_id od =? d_id d)%Z eqn:E.
    + apply Z.eqb_eq in E. exfalso. apply Hn. left. exact E.
    + rewrite IH by tauto. rewrite unregister_in. intuition congruence.
Qed.

Lemma register_loop_spec : forall todo done reg0 rok,
  NoDup (map d_id (done ++ todo)) ->
  (forall x, In x reg0 -> ~ In x (map d_id (done ++ todo))) ->
  let '(reg', err) := register_loop (done ++ todo) todo rok (map d_id (rev done) ++ reg0) in
  (err = None -> forall x, In x reg' <-> In x (map d_id (done ++ todo)) \/ In x reg0) /\
  (err <> None -> forall x, In x reg' <-> In x reg0).
Proof.
  induction todo as [|d rest IH]; intros done reg0 rok Hnd Hdis.
  - simpl. split; [|intros H; contradiction].
    intros _ x. rewrite app_nil_r, in_app_iff, map_rev, <- in_rev. reflexivity.
  - simpl. destruct (rok d) eqn:Er.
    + specialize (IH (done ++ [d])%list reg0 rok).
      rewrite <- app_assoc, rev_app_distr in IH. exact (IH Hnd Hdis).
    + split; [discriminate|]. intros _ x.
      assert (Hn : ~ In (d_id d) (map d_id done)).
      { rewrite map_app in Hnd. simpl in Hnd. apply NoDup_remove_2 in Hnd.
        intro H. apply Hnd. apply in_or_app. left. exact H. }
      rewrite unregister_before_in by exact Hn.
      rewrite in_app_iff, map_rev, <- in_rev.
      split.
      * intros [[H|H] H']; [contradiction|exact H].
      * intros H. split; [right; exact H|]. intros H'. apply (Hdis x H).
        rewrite map_app. apply in_or_app. left. exact H'.
Qed.

Lemma registerHotkeys_goroutine_all_or_nothing : forall sk pk ck register_ok,
  let '(reg, sent) := registerHotkeys_goroutine sk pk ck register_ok [] in
  (sent = None -> forall x, In x reg <-> In x [1; 2; 3]%Z) /\
  (sent <> None -> reg = []).
Proof.
  intros sk pk ck register_ok. unfold registerHotkeys_goroutine.
  destruct (parse_defs (hotkey_specs sk pk ck)) as [defs|e] eqn:Ep.
  - pose proof (parse_defs_ids _ _ Ep) as Hids. simpl in Hids.
    pose proof (register_loop_spec defs [] [] register_ok) as H. simpl in H.
    rewrite Hids in H.
    assert (Hnd : NoDup [1; 2; 3]%Z).
    { constructor; [simpl; lia|]. constructor; [simpl; lia|]. constructor; [simpl; lia|].
      constructor. }
    specialize (H Hnd (fun x Hx => match Hx with end)).
    destruct (register_loop defs defs register_ok []) as [reg err].
    destruct H as [H1 H2]. split.
    + intros He x. rewrite (H1 He x). simpl. tauto.
    + intros He. destruct reg as [|r reg]; [reflexivity|].
      exfalso. apply ((proj1 (H2 He r)) (or_introl eq_refl)).
  - split; [discriminate|reflexivity].
Qed.

(** X10: registerHotkeys is all or nothing.  Once its goroutine has sent,
    either the ids 1, 2 and 3 are all registered or none is (those
    registered before a failing one are unregistered again), also when the
    caller has already returned the timeout error.  When it returns no
    error all three are registered; when it returns an error other than
    the timeout, none is. *)
Theorem registerHotkeys_all_or_nothing : forall sk pk ck register_ok in_time,
  let '(reg, err) := registerHotkeys sk pk ck register_ok in_time [] in
  ((forall x, In x reg <-> In x [1; 2; 3]%Z) \/ reg = []) /\
  (err = None -> forall x, In x reg <-> In x [1; 2; 3]%Z) /\
  (err <> None -> err <> Some "timeout registering hotkeys" -> reg = []).
Proof.
  intros sk pk ck register_ok in_time. unfold registerHotkeys.
  pose proof (registerHotkeys_goroutine_all_or_nothing sk pk ck register_ok) as H.
  destruct (registerHotkeys_goroutine sk pk ck register_ok []) as [reg sent].
  destruct H as [H1 H2]. unfold select_errCh.
  split.
  - destruct sent as [m|]; [right; apply H2; discriminate|left; apply H1; reflexivity].
  - destruct in_time.
    + split; [exact H1|]. intros Hne _. exact (H2 Hne).
    + split; [discriminate|]. intros _ Ht. contradiction.
Qed.

End HookExtra.

Module JsonPathExtra.
Import GoStrings HotkeySpec HotkeyFacts JsonPath JsonPathSpec JsonPathFacts GoFmt ExtraSpec.

Lemma digits_value_shift : forall s v,
  digits_value s v
  = option_map (fun x => (v * 10 ^ Z.of_nat (String.length s) + x)%Z) (digits_value s 0).
Proof.
  induction s as [|c s IH]; intros v.
  - simpl. f_equal. ring.
  - cbn [digits_value String.length].
    destruct (Nat.leb 48 (nat_of_ascii c) && Nat.leb (nat_of_ascii c) 57); [|reflexivity].
    rewrite (IH (v * 10 + _)%Z), (IH (0 * 10 + _)%Z).
    destruct (digits_value s 0); [|reflexivity]. cbn [option_map]. f_equal.
    rewrite Nat2Z.inj_succ, Z.pow_succ_r by lia. ring.
Qed.

Lemma digit_ascii : forall k, k < 10 ->
  nat_of_ascii (ascii_of_nat (48 + k)) = 48 + k.
Proof. intros k Hk. apply nat_ascii_embedding. lia. Qed.

Lemma show_nat_aux_value : forall f n acc, n < f ->
  digits_value (show_nat_aux f n acc) 0
  = option_map (fun a => (Z.of_nat n * 10 ^ Z.of_nat (String.length acc) + a)%Z)
               (digits_value acc 0).
Proof.
  induction f as [|f IH]; intros n acc Hn; [lia|].
  assert (Hm : n mod 10 < 10) by (apply Nat.mod_upper_bound; lia).
  assert (Hd : digits_value (String (ascii_of_nat (48 + n mod 10)) acc) 0
               = option_map (fun a => (Z.of_nat (n mod 10) * 10 ^ Z.of_nat (String.length acc) + a)%Z)
                            (digits_value acc 0)).
  { cbn [digits_value]. rewrite digit_ascii by exact Hm.
    replace (Nat.leb 48 (48 + n mod 10) && Nat.leb (48 + n mod 10) 57) with true
      by (symmetry; apply andb_true_iff; split; apply Nat.leb_le; lia).
    rewrite digits_value_shift. replace (48 + n mod 10 - 48) with (n mod 10) by lia.
    destruct (digits_value acc 0); reflexivity. }
  cbn [show_nat_aux]. destruct (Nat.ltb n 10) eqn:Hlt.
  - apply Nat.ltb_lt in Hlt. rewrite Hd. rewrite Nat.mod_small by exact Hlt. reflexivity.
  - apply Nat.ltb_ge in Hlt.
    rewrite IH by (pose proof (Nat.div_lt n 10); lia).
    rewrite Hd. destruct (digits_value acc 0); [|reflexivity]. cbn [option_map String.length]. f_equal.
    rewrite Nat2Z.inj_succ, Z.pow_succ_r by lia.
    assert (Hn10 : Z.of_nat n = (10 * Z.of_nat (n / 10) + Z.of_nat (n mod 10))%Z).
    { rewrite (Nat.div_mod n 10) at 1 by lia. lia. }
    rewrite Hn10. ring.
Qed.

Lemma show_nat_value : forall n, digits_value (show_nat n) 0 = Some (Z.of_nat n).
Proof.
  intros n. unfold show_nat. rewrite show_nat_aux_value by lia. simpl. f_equal. ring.
Qed.

Lemma show_nat_aux_nonempty : forall f n acc, acc <> "" -> show_nat_aux f n acc <> "".
Proof.
  induction f as [|f IH]; intros n acc H; [exact H|]. cbn [show_nat_aux].
  destruct (Nat.ltb n 10); [discriminate|apply IH; discriminate].
Qed.

Lemma show_nat_nonempty : forall n, show_nat n <> "".
Proof.
  intros n. unfold show_nat. cbn [show_nat_aux].
  destruct (Nat.ltb n 10); [discriminate|apply show_nat_aux_nonempty; discriminate].
Qed.

Lemma digits_no_char : forall s acc v c,
  digits_value s acc = Some v ->
  Nat.leb 48 (nat_of_ascii c) && Nat.leb (nat_of_ascii c) 57 = false ->
  no_char c s = true.
Proof.
  induction s as [|x s IH]; intros acc v c H Hc; [reflexivity|].
  cbn [digits_value] in H.
  destruct (Nat.leb 48 (nat_of_ascii x) && Nat.leb (nat_of_ascii x) 57) eqn:Ex; [|discriminate].
  unfold no_char. simpl.
  destruct (Ascii.eqb x c) eqn:E.
  - apply Ascii.eqb_eq in E. subst. congruence.
  - simpl. exact (IH _ _ _ H Hc).
Qed.

Lemma Itoa_no_char : forall z c,
  Nat.leb 48 (nat_of_ascii c) && Nat.leb (nat_of_ascii c) 57 = false ->
  Ascii.eqb "-"%char c = false -> no_char c (Itoa z) = true.
Proof.
  intros z c Hc Hm. unfold Itoa. destruct (z <? 0)%Z.
  - unfold no_char.
    change (list_ascii_of_string ("-" ++ show_nat (Z.to_nat (- z))))
      with ("-"%char :: list_ascii_of_string (show_nat (Z.to_nat (- z)))).
    cbn [existsb]. rewrite Hm. cbn [orb].
    exact (digits_no_char _ _ _ _ (show_nat_value _) Hc).
  - exact (digits_no_char _ _ _ _ (show_nat_value _) Hc).
Qed.

Lemma Itoa_nonempty : forall z, Itoa z <> "".
Proof.
  intros z. unfold Itoa. destruct (z <? 0)%Z; [discriminate|apply show_nat_nonempty].
Qed.

(** strconv.Atoi reads back what strconv.Itoa writes. *)
Lemma Atoi_Itoa : forall z, in_int64 z = true -> Atoi (Itoa z) = Some z.
Proof.
  intros z Hr. rewrite Atoi_signed. unfold in_int64 in Hr.
  assert (Hs : signed_decimal (Itoa z) = Some z).
  { unfold Itoa. destruct (z <? 0)%Z eqn:Hz.
    - apply Z.ltb_lt in Hz. simpl.
      destruct (show_nat (Z.to_nat (- z))) as [|c r] eqn:E;
        [exfalso; exact (show_nat_nonempty _ E)|].
      unfold unsigned_decimal. rewrite <- E, show_nat_value. simpl. f_equal.
      rewrite Z2Nat.id by lia. lia.
    - apply Z.ltb_ge in Hz. pose proof (show_nat_value (Z.to_nat z)) as Hv.
      destruct (show_nat (Z.to_nat z)) as [|c r] eqn:E;
        [exfalso; exact (show_nat_nonempty _ E)|].
      destruct (HotkeyExtra.digit_facts c (HotkeyExtra.digits_value_head _ _ _ _ Hv))
        as [_ [_ [Hp Hm]]].
      unfold signed_decimal. rewrite Hp, Hm. unfold unsigned_decimal. rewrite Hv.
      rewrite Z2Nat.id by lia. reflexivity. }
  rewrite Hs, Hr. reflexivity.
Qed.

Lemma Index_app_char : forall a b c,
  no_char c a = true -> Index (a ++ String c b) c = Z.of_nat (String.length a).
Proof.
  induction a as [|x a IH]; intros b c H; simpl.
  - rewrite Ascii.eqb_refl. reflexivity.
  - unfold no_char in H. simpl in H. destruct (Ascii.eqb x c); [discriminate|].
    rewrite IH by exact H. destruct (Z.of_nat (String.length a) <? 0)%Z eqn:E; [lia|]. lia.
Qed.

Lemma Index_none : forall a c, no_char c a = true -> Index a c = (-1)%Z.
Proof.
  induction a as [|x a IH]; intros c H; simpl; [reflexivity|].
  unfold no_char in H. simpl in H. destruct (Ascii.eqb x c); [discriminate|].
  rewrite IH by exact H. reflexivity.
Qed.

Lemma substring_app_left : forall a b, substring 0 (String.length a) (a ++ b) = a.
Proof.
  induction a as [|c a IH]; intros b; simpl; [destruct b; reflexivity|].
  rewrite IH. reflexivity.
Qed.

Lemma substring_app_right : forall a b k m,
  substring (String.length a + k) m (a ++ b) = substring k m b.
Proof. induction a as [|c a IH]; intros b k m; simpl; [reflexivity|]. apply IH. Qed.

Lemma string_app_nil : forall a, a ++ "" = a.
Proof. induction a as [|c a IH]; simpl; [reflexivity|]. rewrite IH. reflexivity. Qed.

Lemma brackets_cons : forall i idxs,
  brackets (i :: idxs) = String "[" (Itoa i ++ String "]" (brackets idxs)).
Proof. reflexivity. Qed.

Lemma brackets_length : forall idxs, List.length idxs <= String.length (brackets idxs).
Proof.
  induction idxs as [|i idxs IH]; [simpl; lia|].
  rewrite brackets_cons. simpl. rewrite HotkeyExtra.str_length_app. simpl. lia.
Qed.

Lemma index_loop_brackets : forall token idxs f acc,
  List.length idxs < f -> forallb in_int64 idxs = true ->
  index_loop f token (brackets idxs) acc = ParseOk "" (acc ++ idxs).
Proof.
  intros token idxs. induction idxs as [|i idxs IH]; intros f acc Hf Hr;
    destruct f as [|f]; try (simpl in Hf; lia).
  - simpl. rewrite app_nil_r. reflexivity.
  - simpl in Hr. apply andb_true_iff in Hr. destruct Hr as [Hi Hr].
    rewrite brackets_cons. cbn [index_loop].
    assert (Hp : HasPrefix (String "[" (Itoa i ++ String "]" (brackets idxs))) "[" = true).
    { unfold HasPrefix. simpl. destruct (ascii_dec "[" "["); [|congruence].
      destruct (Itoa i ++ String "]" (brackets idxs)); reflexivity. }
    rewrite Hp. cbn [negb].
    assert (Hc : Index (String "[" (Itoa i ++ String "]" (brackets idxs))) "]"
                 = (Z.of_nat (String.length (Itoa i)) + 1)%Z).
    { cbn [Index]. change (Ascii.eqb "[" "]") with false. cbv iota.
      rewrite Index_app_char by (apply Itoa_no_char; reflexivity).
      destruct (Z.of_nat (String.length (Itoa i)) <? 0)%Z eqn:E; [lia|reflexivity]. }
    rewrite Hc.
    replace (Z.of_nat (String.length (Itoa i)) + 1 =? -1)%Z with false by lia.
    replace (Z.to_nat (Z.of_nat (String.length (Itoa i)) + 1) - 1)
      with (String.length (Itoa i)) by lia.
    replace (Z.to_nat (Z.of_nat (String.length (Itoa i)) + 1) + 1)
      with (S (String.length (Itoa i) + 1)) by lia.
    change (substring 1 (String.length (Itoa i)) (String "[" (Itoa i ++ String "]" (brackets idxs))))
      with (substring 0 (String.length (Itoa i)) (Itoa i ++ String "]" (brackets idxs))).
    rewrite substring_app_left.
    destruct (String.eqb (Itoa i) "") eqn:Ee;
      [apply String.eqb_eq in Ee; exfalso; exact (Itoa_nonempty _ Ee)|].
    rewrite Atoi_Itoa by exact Hi.
    cbn [substring]. rewrite substring_app_right. cbn [substring].
    rewrite substring_all by (simpl; rewrite HotkeyExtra.str_length_app; simpl; lia).
    rewrite IH by (simpl in Hf; lia || exact Hr).
    rewrite <- app_assoc. reflexivity.
Qed.

(** X11: a key with no '[' followed by indexes written "[i]" (strconv.Itoa)
    is parsed back by ParseKeyAndIndexes into that key and those indexes,
    for any int64 indexes, provided the token is not empty. *)
Theorem ParseKeyAndIndexes_roundtrip : forall key idxs,
  no_bracket key = true -> forallb in_int64 idxs = true ->
  key ++ brackets idxs <> "" ->
  ParseKeyAndIndexes (key ++ brackets idxs) = ParseOk key idxs.
Proof.
  intros key idxs Hk Hr Hne. unfold ParseKeyAndIndexes.
  destruct (String.eqb (key ++ brackets idxs) "") eqn:E;
    [apply String.eqb_eq in E; contradiction|].
  assert (Hk' : no_char "[" key = true) by exact Hk.
  destruct idxs as [|i idxs'].
  - simpl brackets. rewrite string_app_nil in *. rewrite Index_none by exact Hk'. reflexivity.
  - rewrite brackets_cons. rewrite Index_app_char by exact Hk'.
    replace (Z.of_nat (String.length key) =? -1)%Z with false by (symmetry; apply Z.eqb_neq; lia).
    rewrite Nat2Z.id, substring_app_left.
    rewrite <- brackets_cons.
    assert (Hrest : substring (String.length key) (String.length (key ++ brackets (i :: idxs')))
                      (key ++ brackets (i :: idxs')) = brackets (i :: idxs')).
    { replace (String.length key) with (String.length key + 0) at 1 by lia.
      rewrite substring_app_right. apply substring_all.
      rewrite HotkeyExtra.str_length_app. lia. }
    rewrite Hrest.
    rewrite index_loop_brackets by (exact Hr || (pose proof (brackets_length (i :: idxs')); lia)).
    reflexivity.
Qed.

Lemma ParseKeyAndIndexes_roundtrip_witness :
  (no_bracket "items" = true /\ forallb in_int64 [0; -3; 12]%Z = true /\
   "items" ++ brackets [0; -3; 12]%Z <> "") /\
  ParseKeyAndIndexes ("items" ++ brackets [0; -3; 12]%Z) = ParseOk "items" [0; -3; 12]%Z.
Proof.
  split; [split; [reflexivity|split; [reflexivity|discriminate]]|].
  apply ParseKeyAndIndexes_roundtrip; [reflexivity|reflexivity|discriminate].
Defined.

Lemma Split_not_nil_any : forall s sep, Split s sep <> [].
Proof. exact Split_not_nil. Qed.

Lemma Split_app_char : forall pre rest sep,
  Split (pre ++ String sep rest) sep = (Split pre sep ++ Split rest sep)%list.
Proof.
  induction pre as [|c pre IH]; intros rest sep; simpl; [rewrite Ascii.eqb_refl; reflexivity|].
  rewrite IH. destruct (Ascii.eqb c sep); [reflexivity|].
  destruct (Split pre sep) as [|q qs] eqn:E.
  - exfalso; exact (Split_not_nil _ _ E).
  - reflexivity.
Qed.

(** X12: a path "p1.p2" (p2 non-empty) is resolved by walking p1 from the
    root and then resolving p2 from the value reached; when the walk of p1
    fails, the whole path fails. *)
Theorem ExtractByPath_concat : forall (F : Type) (fmt : F -> string) (root : JValue F) p1 p2,
  p2 <> "" ->
  ExtractByPath fmt root (p1 ++ "." ++ p2)
  = match parts_walk (Split p1 "."%char) root with
    | Some v => ExtractByPath fmt v p2
    | None => ("", false)
    end.
Proof.
  intros F fmt root p1 p2 Hp2. unfold ExtractByPath.
  replace (String.eqb (p1 ++ "." ++ p2) "") with false
    by (destruct p1; reflexivity).
  change ("." ++ p2) with (String "." p2). rewrite Split_app_char, parts_walk_app.
  destruct (parts_walk (Split p1 "."%char) root); [|reflexivity].
  destruct (String.eqb p2 "") eqn:E; [apply String.eqb_eq in E; contradiction|reflexivity].
Qed.

Lemma ExtractByPath_concat_witness :
  "items[1].value" <> "" /\
  ExtractByPath num_text response ("data" ++ "." ++ "items[1].value")
  = match parts_walk (Split "data" "."%char) response with
    | Some v => ExtractByPath num_text v "items[1].value"
    | None => ("", false)
    end.
Proof. split; [discriminate|]. apply ExtractByPath_concat. discriminate. Defined.

Lemma leaf_text_primitive : forall (F : Type) (fmt : F -> string) (v : JValue F),
  snd (leaf_text fmt v) = is_primitive v.
Proof. intros F fmt [] ; reflexivity. Qed.

Lemma first_nonempty_string_in : forall (F : Type) (l : list (string * JValue F)),
  first_nonempty_string l <> "" -> exists k, In (k, JStr (first_nonempty_string l)) l.
Proof.
  intros F l. induction l as [|[k v] l IH]; intros H; [contradiction|].
  destruct v; simpl in *;
    try (destruct (IH H) as [k' Hk]; exists k'; right; exact Hk).
  destruct (String.eqb s "") eqn:E.
  - destruct (IH H) as [k' Hk]. exists k'. right. exact Hk.
  - exists k. left. reflexivity.
Qed.

(** X13: ExtractTextFromResponse tries its sources in a fixed order.  When
    the body parses and the path (non-empty) yields a text, that text is
    returned.  Otherwise, when the root is an object whose "text" member
    is a string, number or bool, that member's text is returned, whatever
    order the map is iterated in; and when the root is not an object, the
    result is "". *)
Theorem ExtractTextFromResponse_order :
  forall (F : Type) (fmt : F -> string) Unmarshal range_order body path (root : JValue F),
  Unmarshal body = Some root ->
  (path <> "" -> snd (ExtractByPath fmt root path) = true ->
   ExtractTextFromResponse fmt Unmarshal range_order body path = fst (ExtractByPath fmt root path)) /\
  ((path = "" \/ snd (ExtractByPath fmt root path) = false) ->
   (forall m leaf, root = JObj m -> map_lookup "text" m = Some leaf -> is_primitive leaf = true ->
    ExtractTextFromResponse fmt Unmarshal range_order body path = fst (leaf_text fmt leaf)) /\
   (is_object root = false -> ExtractTextFromResponse fmt Unmarshal range_order body path = "")).
Proof.
  intros F fmt Unm ro body path root Hu. unfold ExtractTextFromResponse. rewrite Hu.
  split.
  - intros Hp Hok. destruct (String.eqb path "") eqn:E; [apply String.eqb_eq in E; contradiction|].
    destruct (ExtractByPath fmt root path) as [v b]. simpl in Hok. subst b. reflexivity.
  - intros Hf.
    assert (Hnone : (if String.eqb path "" then None
                     else match ExtractByPath fmt root path with
                          | (v, true) => Some v | (_, false) => None end) = @None string).
    { destruct Hf as [->|Hf]; [reflexivity|].
      destruct (String.eqb path ""); [reflexivity|].
      destruct (ExtractByPath fmt root path) as [v b]. simpl in Hf. subst b. reflexivity. }
    rewrite Hnone. split.
    + intros m leaf -> Hl Hprim. rewrite Hl.
      destruct leaf; try discriminate; reflexivity.
    + intros Ho. destruct root; try reflexivity. discriminate.
Qed.

Lemma ExtractTextFromResponse_order_witness :
  (fun _ : list Byte.byte => Some (JObj [("data", data); ("text", JNum 5)])) []
    = Some (JObj [("data", data); ("text", JNum 5)]) /\
  ((("data.items[7].value" <> "" ->
     snd (ExtractByPath num_text (JObj [("data", data); ("text", JNum 5)]) "data.items[7].value") = true ->
     ExtractTextFromResponse num_text (fun _ => Some (JObj [("data", data); ("text", JNum 5)]))
       (fun m => m) [] "data.items[7].value"
     = fst (ExtractByPath num_text (JObj [("data", data); ("text", JNum 5)]) "data.items[7].value")) /\
    (("data.items[7].value" = "" \/
      snd (ExtractByPath num_text (JObj [("data", data); ("text", JNum 5)]) "data.items[7].value") = false) ->
     (forall m leaf, JObj [("data", data); ("text", JNum 5)] = JObj m ->
        map_lookup "text" m = Some leaf -> is_primitive leaf = true ->
        ExtractTextFromResponse num_text (fun _ => Some (JObj [("data", data); ("text", JNum 5)]))
          (fun m => m) [] "data.items[7].value" = fst (leaf_text num_text leaf)) /\
     (is_object (JObj [("data", data); ("text", JNum 5)]) = false ->
        ExtractTextFromResponse num_text (fun _ => Some (JObj [("data", data); ("text", JNum 5)]))
          (fun m => m) [] "data.items[7].value" = ""))) /\
   ExtractTextFromResponse num_text (fun _ => Some (JObj [("data", data); ("text", JNum 5)]))
     (fun m => m) [] "data.items[7].value" = "5").
Proof.
  split; [reflexivity|]. split; [|vm_compute; reflexivity].
  exact (ExtractTextFromResponse_order nat num_text
           (fun _ => Some (JObj [("data", data); ("text", JNum 5)])) (fun m => m) []
           "data.items[7].value" _ eq_refl).
Defined.

(** X14: if the iteration order of a map only visits its entries, a
    non-empty result of ExtractTextFromResponse comes from the parsed body
    in one of three ways: it is the text the (non-empty) path yields; or
    the root is an object and it is the text of its "text" member; or the
    root is an object and it is the value of one of its string members. *)
Theorem ExtractTextFromResponse_provenance :
  forall (F : Type) (fmt : F -> string) Unmarshal range_order body path,
  (forall m kv, In kv (range_order m) -> In kv m) ->
  ExtractTextFromResponse fmt Unmarshal range_order body path <> "" ->
  exists root : JValue F, Unmarshal body = Some root /\
    let r := ExtractTextFromResponse fmt Unmarshal range_order body path in
    ((path <> "" /\ ExtractByPath fmt root path = (r, true)) \/
     exists m, root = JObj m /\
       ((exists leaf, map_lookup "text" m = Some leaf /\ leaf_text fmt leaf = (r, true)) \/
        exists k, In (k, JStr r) m)).
Proof.
  intros F fmt Unm ro body path Hro Hne.
  unfold ExtractTextFromResponse in *.
  destruct (Unm body) as [root|]; [|contradiction].
  exists root. split; [reflexivity|]. cbv zeta.
  destruct (String.eqb path "") eqn:Ep.
  - destruct root; try contradiction. right. exists m. split; [reflexivity|].
    destruct (map_lookup "text" m) as [leaf|] eqn:Hl.
    + destruct leaf;
        try (left; exists (JStr s); split; reflexivity);
        try (left; eexists; split; reflexivity);
        (destruct (first_nonempty_string_in _ _ Hne) as [k Hk]; right; exists k; apply Hro; exact Hk).
    + destruct (first_nonempty_string_in _ _ Hne) as [k Hk]. right. exists k. apply Hro. exact Hk.
  - destruct (ExtractByPath fmt root path) as [v b] eqn:Hx. destruct b.
    + left. split; [intro E; subst; discriminate|reflexivity].
    + destruct root; try contradiction. right. exists m. split; [reflexivity|].
      destruct (map_lookup "text" m) as [leaf|] eqn:Hl.
      * destruct leaf;
          try (left; eexists; split; reflexivity);
          (destruct (first_nonempty_string_in _ _ Hne) as [k Hk]; right; exists k; apply Hro; exact Hk).
      * destruct (first_nonempty_string_in _ _ Hne) as [k Hk]. right. exists k. apply Hro. exact Hk.
Qed.

Lemma ExtractTextFromResponse_provenance_witness :
  ((forall (m : list (string * JValue nat)) kv, In kv (rev m) -> In kv m) /\
   ExtractTextFromResponse num_text (fun _ => Some (JObj [("a", JNum 1); ("b", JStr "hi")]))
     (@rev _) [] "nope" <> "") /\
  exists root : JValue nat,
    (fun _ : list Byte.byte => Some (JObj [("a", JNum 1); ("b", JStr "hi")])) [] = Some root /\
    let r := ExtractTextFromResponse num_text (fun _ => Some (JObj [("a", JNum 1); ("b", JStr "hi")]))
               (@rev _) [] "nope" in
    (("nope" <> "" /\ ExtractByPath num_text root "nope" = (r, true)) \/
     exists m, root = JObj m /\
       ((exists leaf, map_lookup "text" m = Some leaf /\ leaf_text num_text leaf = (r, true)) \/
        exists k, In (k, JStr r) m)).
Proof.
  assert (Hro : forall (m : list (string * JValue nat)) kv, In kv (rev m) -> In kv m).
  { intros m kv H. apply in_rev. exact H. }
  assert (Hne : ExtractTextFromResponse num_text (fun _ => Some (JObj [("a", JNum 1); ("b", JStr "hi")]))
                  (@rev _) [] "nope" <> "") by (vm_compute; discriminate).
  split; [split; assumption|].
  exact (ExtractTextFromResponse_provenance nat num_text
           (fun _ => Some (JObj [("a", JNum 1); ("b", JStr "hi")])) (@rev _) [] "nope" Hro Hne).
Defined.

End JsonPathExtra.

Module RecordExtra.
Import Record RecordInv RecordScenario RecordFacts ExtraSpec.

Lemma internal_step_state : forall s e s',
  internal_event e = true -> step s e = Some s' ->
  state s' = state s \/ state s' = StateIdle.
Proof.
  intros s e s' He Hs. destruct e; try discriminate He; simpl in Hs.
  - destruct (nth_error (workers s) i) as [w|]; [|discriminate].
    destruct (wstep s w ok) as [[s1 w']|] eqn:Hw; [|discriminate].
    injection Hs as <-. simpl.
    destruct (in_session (w_pc w)) eqn:Hin.
    + destruct (wstep_inside s w ok s1 w' Hw Hin) as [[_ H]|[_ [H _]]]; auto.
    + left. exact (proj1 (wstep_outside s w ok s1 w' Hw Hin)).
  - destruct (nth_error (callers s) i) as [[k ch [r|]]|]; try discriminate.
    destruct (buf s ch); [|discriminate]. injection Hs as <-. left. reflexivity.
Qed.

Lemma internal_run_state : forall es s s',
  forallb internal_event es = true -> run s es = Some s' ->
  state s' = state s \/ state s' = StateIdle.
Proof.
  induction es as [|e es IH]; intros s s' Hi Hr.
  - injection Hr as <-. left. reflexivity.
  - simpl in Hi, Hr. apply andb_prop in Hi as [He Hes].
    destruct (step s e) as [s1|] eqn:Hs; [|discriminate].
    destruct (IH s1 s' Hes Hr) as [H|H]; [|right; exact H].
    rewrite H. exact (internal_step_state s e s1 He Hs).
Qed.

(** X15: the capture goroutines and the Stop/Cancel callers receiving
    their Result never move the recorder's state anywhere but to Idle.
    So once the handler has seen [StateIdle], whatever these goroutines do
    before its [Start] call, the state is still Idle and Start succeeds. *)
Theorem Record_internal_events_only_reset : forall es s s',
  forallb internal_event es = true -> run s es = Some s' ->
  (state s' = state s \/ state s' = StateIdle) /\
  (state s = StateIdle -> state s' = StateIdle /\ snd (Start s') = None).
Proof.
  intros es s s' Hi Hr.
  pose proof (internal_run_state es s s' Hi Hr) as H.
  split; [exact H|]. intros Hs.
  assert (Hs' : state s' = StateIdle) by (destruct H as [H|H]; congruence).
  split; [exact Hs'|]. unfold Start. rewrite Hs'. reflexivity.
Qed.

Lemma Record_internal_events_only_reset_witness :
  let s := after [EStart] in
  let es := [EWorker 0 false; EWorker 0 true; EWorker 0 true] in
  let s' := after [EStart; EWorker 0 false; EWorker 0 true; EWorker 0 true] in
  (forallb internal_event es = true /\ run s es = Some s') /\
  ((state s' = state s \/ state s' = StateIdle) /\
   (state s = StateIdle -> state s' = StateIdle /\ snd (Start s') = None)).
Proof.
  intros s es s'.
  assert (H1 : forallb internal_event es = true) by reflexivity.
  assert (H2 : run s es = Some s') by (vm_compute; reflexivity).
  split; [split; assumption|].
  exact (Record_internal_events_only_reset es s s' H1 H2).
Defined.

(** X16: on a running recorder TogglePause succeeds, switches between
    Recording and Paused (the recorder stays running), and toggling twice
    gives back the recorder unchanged. *)
Theorem Record_TogglePause_involutive : forall s,
  running (state s) = true ->
  snd (TogglePause s) = None /\
  running (state (fst (TogglePause s))) = true /\
  state (fst (TogglePause s)) <> state s /\
  TogglePause (fst (TogglePause s)) = (s, None).
Proof.
  intros [st td d c cs b dk n ws cls] Hr. simpl in Hr.
  destruct st; try discriminate Hr; unfold TogglePause; simpl;
    repeat split; discriminate.
Qed.

Lemma Record_TogglePause_involutive_witness :
  running (state (after [EStart])) = true /\
  snd (TogglePause (after [EStart])) = None /\
  running (state (fst (TogglePause (after [EStart])))) = true /\
  state (fst (TogglePause (after [EStart]))) <> state (after [EStart]) /\
  TogglePause (fst (TogglePause (after [EStart]))) = (after [EStart], None).
Proof.
  assert (H : running (state (after [EStart])) = true) by (vm_compute; reflexivity).
  split; [exact H|]. exact (Record_TogglePause_involutive _ H).
Defined.

Lemma remove_file_other : forall f g d, g <> f -> (In g (remove_file f d) <-> In g d).
Proof.
  intros f g d Hne. unfold remove_file. rewrite filter_In.
  destruct (Nat.eqb_spec g f); [contradiction|]. simpl. tauto.
Qed.

Lemma wstep_disk_own : forall s w ok s1 w',
  wstep s w ok = Some (s1, w') ->
  forall f, f <> w_file w -> (In f (disk s1) <-> In f (disk s)).
Proof.
  intros s w ok s1 w' H f Hf. wstep_cases H; simpl; try tauto;
    try (apply remove_file_other; exact Hf).
  split; [intros [H|H]; [congruence|exact H]|intros H; right; exact H].
Qed.

(** X17: the temporary files on disk change only by a step of a capture
    goroutine, and only in that goroutine's own file: Start, Stop, Cancel,
    TogglePause and the receiving callers never create or remove a file,
    and no goroutine creates or removes another session's file. *)
Theorem Record_disk_changes_own_file : forall s e s',
  step s e = Some s' ->
  (forall f, In f (disk s') <-> In f (disk s)) \/
  exists i ok w, e = EWorker i ok /\ nth_error (workers s) i = Some w /\
    forall f, f <> w_file w -> (In f (disk s') <-> In f (disk s)).
Proof.
  intros s e s' Hs. destruct e; simpl in Hs.
  - injection Hs as <-. left. intros f. unfold Start.
    destruct (negb (State_eqb (state s) StateIdle)); simpl; tauto.
  - injection Hs as <-. left. intros f. unfold Stop.
    destruct (negb (running (state s))); simpl; tauto.
  - injection Hs as <-. left. intros f. unfold Cancel.
    destruct (negb (running (state s))); simpl; tauto.
  - injection Hs as <-. left. intros f. unfold TogglePause.
    destruct (negb (running (state s))); [simpl; tauto|].
    destruct (State_eqb (state s) StatePaused); simpl; tauto.
  - destruct (nth_error (workers s) i) as [w|] eqn:Hw; [|discriminate].
    destruct (wstep s w ok) as [[s1 w']|] eqn:Hst; [|discriminate].
    injection Hs as <-. right. exists i, ok, w. split; [reflexivity|].
    split; [exact Hw|]. intros f Hf. simpl.
    exact (wstep_disk_own s w ok s1 w' Hst f Hf).
  - destruct (nth_error (callers s) i) as [[k ch [r|]]|]; try discriminate.
    destruct (buf s ch); [|discriminate]. injection Hs as <-. left. simpl. tauto.
Qed.

Lemma Record_disk_changes_own_file_witness :
  let s := after [EStart; EWorker 0 true; EWorker 0 true; EWorker 0 true] in
  let s' := after [EStart; EWorker 0 true; EWorker 0 true; EWorker 0 true; EWorker 0 true] in
  step s (EWorker 0 true) = Some s' /\ disk s' = [1] /\ disk s = [] /\
  ((forall f, In f (disk s') <-> In f (disk s)) \/
   exists i ok w, EWorker 0 true = EWorker i ok /\ nth_error (workers s) i = Some w /\
     forall f, f <> w_file w -> (In f (disk s') <-> In f (disk s))).
Proof.
  intros s s'.
  assert (H : step s (EWorker 0 true) = Some s') by (vm_compute; reflexivity).
  split; [exact H|]. split; [vm_compute; reflexivity|]. split; [vm_compute; reflexivity|].
  exact (Record_disk_changes_own_file s (EWorker 0 true) s' H).
Defined.

End RecordExtra.

Module CleanupFacts.
Import GoStrings Cleanup.

Lemma remove_name_In : forall x name fs,
  In x (remove_name name fs) <-> In x fs /\ x <> name.
Proof.
  intros x name fs. unfold remove_name. rewrite filter_In.
  destruct (String.eqb_spec x name); simpl; intuition congruence.
Qed.

Lemma cleanup_fold_In : forall rok l acc x,
  In x (fold_left (cleanup_entry rok) l acc) <->
  In x acc /\ ~ (In x l /\ HasPrefix x "RecordTemp_" = true /\ rok x = true).
Proof.
  intros rok l. induction l as [|n l IH]; intros acc x; simpl.
  - intuition.
  - rewrite IH. unfold cleanup_entry.
    destruct (HasPrefix n "RecordTemp_") eqn:Hp; [destruct (rok n) eqn:Hr|].
    + rewrite remove_name_In.
      split.
      * intros [[Hin Hne] Hn]. split; [exact Hin|]. intros [[<-|Hl] Hrest]; [congruence|tauto].
      * intros [Hin Hn]. split; [split; [exact Hin|]|].
        -- intros ->. apply Hn. tauto.
        -- intros Hl. apply Hn. tauto.
    + split.
      * intros [Hin Hn]. split; [exact Hin|]. intros [[<-|Hl] [Hp' Hr']]; [congruence|tauto].
      * intros [Hin Hn]. split; [exact Hin|]. intros Hl. apply Hn. tauto.
    + split.
      * intros [Hin Hn]. split; [exact Hin|]. intros [[<-|Hl] [Hp' Hr']]; [congruence|tauto].
      * intros [Hin Hn]. split; [exact Hin|]. intros Hl. apply Hn. tauto.
Qed.

(** X18: cleanupOldTempFiles removes from the directory exactly the
    entries whose name starts with "RecordTemp_" and whose removal
    succeeds; every other entry stays, and when the directory cannot be
    read nothing is removed. *)
Theorem cleanupOldTempFiles_removes_only_temp : forall readdir_ok remove_ok fs x,
  In x (cleanupOldTempFiles readdir_ok remove_ok fs) <->
  In x fs /\ ~ (readdir_ok = true /\ HasPrefix x "RecordTemp_" = true /\ remove_ok x = true).
Proof.
  intros rd rok fs x. unfold cleanupOldTempFiles. destruct rd.
  - rewrite cleanup_fold_In. intuition.
  - intuition discriminate.
Qed.

End CleanupFacts.
